(** * Showdex play-ahead: the turn-simulation engine

    A shallow embedding of the play-ahead simulation code:

    - [determineMoveOrder]  (src/utils/playahead/determineMoveOrder.ts)
    - [applyMoveEffects]    (src/utils/playahead/applyMoveEffects.ts)
    - [simulateTurn]        (src/utils/playahead/simulateTurn.ts)
    - the reducers of       src/redux/store/playAheadSlice.ts

    JavaScript numbers that hold hit points, damage, priorities, speeds and
    counters are integers in this code base and are modelled as [Z].
    Optional properties ([x?: T], [T | null]) are modelled as [option T];
    [a ?? b] is [default b a]; [a?.f] is [a ≫= f]. *)

From Stdlib Require Import ZArith QArith.
From stdpp Require Import base option list strings gmap fin_maps pretty.

Local Open Scope Z_scope.

(** ** Data model *)

(** [CalcdexPlayerKey = 'p1' | 'p2' | 'p3' | 'p4'] *)
Inductive CalcdexPlayerKey : Set := p1 | p2 | p3 | p4.

#[global] Instance CalcdexPlayerKey_eq_dec : EqDecision CalcdexPlayerKey.
Proof. solve_decision. Defined.

Definition MoveName : Set := string.

(** [format: string | GenerationNum].  [truthy] is JavaScript truthiness,
    as used by [format || currentBattleState.format]. *)
Inductive FormatArg : Set :=
| FormatString (s : string)
| FormatGen (g : Z).

Module CalcdexPokemon.
(** The properties of a [CalcdexPokemon] that the play-ahead code reads or
    writes.  The object spread [{ ...pokemon, hp, dirtyHp }] keeps every
    other property, so only these are carried. *)
Record t : Set := mk {
  speciesForme : string;
  playerKey : option CalcdexPlayerKey;
  hp : option Z;
  maxhp : option Z;
  dirtyHp : option Z;
}.
End CalcdexPokemon.

Module CalcdexPlayer.
Record t : Set := mk {
  activeIndices : option (list Z);
  selectionIndex : option Z;
  pokemon : option (list CalcdexPokemon.t);
}.
End CalcdexPlayer.

Module CalcdexBattleField.
Record t : Set := mk {
  isTrickRoom : option bool;
}.
End CalcdexBattleField.

Module CalcdexBattleState.
(** The record has one property per player key. *)
Record t : Set := mk {
  format : string;
  gameType : string;
  field : CalcdexBattleField.t;
  p1 : option CalcdexPlayer.t;
  p2 : option CalcdexPlayer.t;
  p3 : option CalcdexPlayer.t;
  p4 : option CalcdexPlayer.t;
}.
End CalcdexBattleState.

(** Move metadata, as returned by [dex.moves.get(move)]. *)
Inductive MoveCategory : Set := Physical | Special | Status.

#[global] Instance MoveCategory_eq_dec : EqDecision MoveCategory.
Proof. solve_decision. Defined.

Module DexMove.
(** [recoil] and [drain] are [[numerator, denominator]] pairs.  The
    quotient is taken in exact arithmetic; the metadata provider only
    hands out positive denominators, which the type records. *)
Record t : Set := mk {
  priority : option Z;
  category : MoveCategory;
  recoil : option (Z * positive);
  drain : option (Z * positive);
}.
End DexMove.

(** Modelled from the spec: the declaration of [CalcdexMatchupResult] is not
    among the files verified here.  Section 6 of the specification describes
    the calculator's answer as "a damage range (low/high) or a single
    value, plus a textual summary and a knockout-likelihood descriptor",
    which is also how [applyMoveEffects] inspects it
    ([Array.isArray(..) && length === 2], [typeof .. === 'number']). *)
Inductive DamageRange : Set :=
| DamagePair (low high : Z)
| DamageScalar (value : Z).

Module CalcdexMatchupResult.
Record t : Set := mk {
  damageRange : option DamageRange;
  description : option string;
  koChance : option string;
}.
End CalcdexMatchupResult.

(** ** JavaScript helpers *)

Definition truthyString (s : string) : bool :=
  match s with EmptyString => false | _ => true end.

Definition truthyFormat (f : FormatArg) : bool :=
  match f with
  | FormatString s => truthyString s
  | FormatGen g => negb (g =? 0)
  end.

(** A damage range is truthy unless it is the number [0]. *)
Definition truthyDamageRange (d : DamageRange) : bool :=
  match d with
  | DamagePair _ _ => true
  | DamageScalar v => negb (v =? 0)
  end.

(** [xs[i]] for a number [i]: [undefined] outside the array. *)
Definition at_index {A : Type} (xs : list A) (i : Z) : option A :=
  if i <? 0 then None else xs !! Z.to_nat i.

(** [xs[i] = x], used only where [xs[i]] was read as defined before. *)
Definition set_index {A : Type} (xs : list A) (i : Z) (x : A) : list A :=
  <[Z.to_nat i := x]> xs.

(** [player.activeIndices?.[0] ?? player.selectionIndex ?? 0] *)
Definition activeIndex (player : CalcdexPlayer.t) : Z :=
  default (default 0 (CalcdexPlayer.selectionIndex player))
          (CalcdexPlayer.activeIndices player ≫= (λ xs, xs !! 0%nat)).

(** [player.pokemon?.[index]] *)
Definition pokemonAt (player : CalcdexPlayer.t) (index : Z)
  : option CalcdexPokemon.t :=
  CalcdexPlayer.pokemon player ≫= (λ xs, at_index xs index).

(** [battleState[key]] *)
Definition getPlayer (bs : CalcdexBattleState.t) (k : CalcdexPlayerKey)
  : option CalcdexPlayer.t :=
  match k with
  | p1 => CalcdexBattleState.p1 bs
  | p2 => CalcdexBattleState.p2 bs
  | p3 => CalcdexBattleState.p3 bs
  | p4 => CalcdexBattleState.p4 bs
  end.

(** [battleState[key] = player], on the value of the snapshot. *)
Definition setPlayer (bs : CalcdexBattleState.t) (k : CalcdexPlayerKey)
    (player : CalcdexPlayer.t) : CalcdexBattleState.t :=
  let 'CalcdexBattleState.mk f g fl a b c d := bs in
  match k with
  | p1 => CalcdexBattleState.mk f g fl (Some player) b c d
  | p2 => CalcdexBattleState.mk f g fl a (Some player) c d
  | p3 => CalcdexBattleState.mk f g fl a b (Some player) d
  | p4 => CalcdexBattleState.mk f g fl a b c (Some player)
  end.

(** [battleState[key].pokemon[index] = pokemon]: the assignment lands in
    the player object that the snapshot holds under [key] at that moment,
    so an earlier assignment through the same player object stays visible. *)
Definition setPokemon (bs : CalcdexBattleState.t) (k : CalcdexPlayerKey)
    (index : Z) (pokemon : CalcdexPokemon.t) : CalcdexBattleState.t :=
  match getPlayer bs k with
  | Some player =>
      match CalcdexPlayer.pokemon player with
      | Some xs =>
          setPlayer bs k
            (CalcdexPlayer.mk (CalcdexPlayer.activeIndices player)
               (CalcdexPlayer.selectionIndex player)
               (Some (set_index xs index pokemon)))
      | None => bs
      end
  | None => bs
  end.

(** [{ ...pokemon, hp: newHp, dirtyHp: newHp }] *)
Definition withHp (pokemon : CalcdexPokemon.t) (newHp : Z) : CalcdexPokemon.t :=
  CalcdexPokemon.mk (CalcdexPokemon.speciesForme pokemon)
    (CalcdexPokemon.playerKey pokemon)
    (Some newHp) (CalcdexPokemon.maxhp pokemon) (Some newHp).

(** Modelled from the spec: [cloneBattleState] lives in
    [@showdex/utils/battle], which is not among the files verified here.
    The specification calls it a deep copy; on the immutable values of this
    part of the development a deep copy of a snapshot is that snapshot.
    [Store.cloneBattleState] further down allocates the copy. *)
Definition cloneBattleState (bs : CalcdexBattleState.t) : CalcdexBattleState.t := bs.

(** ** determineMoveOrder.ts *)

Inductive OrderReason : Set :=
| reason_priority      (* 'priority' *)
| reason_speed         (* 'speed' *)
| reason_trick_room    (* 'trick-room' *)
| reason_random.       (* 'random' *)

Module MoveOrderInfo.
Record t : Set := mk {
  firstPlayerKey : CalcdexPlayerKey;
  secondPlayerKey : CalcdexPlayerKey;
  firstMove : MoveName;
  secondMove : MoveName;
  firstPriority : Z;
  secondPriority : Z;
  firstSpeed : Z;
  secondSpeed : Z;
  reason : OrderReason;
}.
End MoveOrderInfo.

Module MoveEffectApplicationResult.
Record t : Set := mk {
  battleState : CalcdexBattleState.t;
  targetFainted : bool;
  userFainted : bool;
  description : option string;
  errors : option (list string);
}.
End MoveEffectApplicationResult.

Module PlayAheadMoveResult.
Record t : Set := mk {
  pokemon : option CalcdexPokemon.t;
  move : MoveName;
  playerKey : CalcdexPlayerKey;
  damageRange : option DamageRange;
  damagePercent : option string;
  koChance : option string;
  movesFirst : bool;
  priority : Z;
  effectiveSpeed : Z;
}.
End PlayAheadMoveResult.

Module TurnSimulationResult.
Record t : Set := mk {
  battleState : CalcdexBattleState.t;
  moveResults : list PlayAheadMoveResult.t;
  errors : option (list string);
}.
End TurnSimulationResult.

(** Reading a property of [undefined] throws a [TypeError]; this is what
    [firstMoveUser.activeIndices] does in [simulateTurn] when the key chosen
    by the move order names no player of the snapshot. *)
Inductive completion (A : Type) : Type :=
| Returns (a : A)
| Throws.
Arguments Returns {A} a.
Arguments Throws {A}.

Section Engine.

(** The external collaborators.  [dexMoves format move] stands for
    [getDexForFormat(format)?.moves.get(move)]; [calcPokemonFinalStats]
    yields [statsRecord.stats()?.spe]; [Math_random] is the number the
    next call of [Math.random()] returns. *)
Variable dexMoves : option FormatArg → MoveName → option DexMove.t.
Variable calcPokemonFinalStats :
  FormatArg → CalcdexPokemon.t → CalcdexPokemon.t →
  option CalcdexPlayer.t → option CalcdexPlayer.t →
  option CalcdexBattleField.t → option (list CalcdexPlayer.t) → option Z.
Variable Math_random : Q.

Definition determineMoveOrder
    (format : FormatArg)
    (p1Pokemon p2Pokemon : CalcdexPokemon.t)
    (p1Move p2Move : MoveName)
    (p1Player p2Player : option CalcdexPlayer.t)
    (field : option CalcdexBattleField.t)
    (allPlayers : option (list CalcdexPlayer.t)) : MoveOrderInfo.t :=
  let p1DexMove := dexMoves (Some format) p1Move in
  let p2DexMove := dexMoves (Some format) p2Move in
  let p1Priority := default 0 (p1DexMove ≫= DexMove.priority) in
  let p2Priority := default 0 (p2DexMove ≫= DexMove.priority) in
  let p1Speed :=
    default 0 (calcPokemonFinalStats format p1Pokemon p2Pokemon
                 p1Player p2Player field allPlayers) in
  let p2Speed :=
    default 0 (calcPokemonFinalStats format p2Pokemon p1Pokemon
                 p2Player p1Player field allPlayers) in
  let p1Key := default p1 (CalcdexPokemon.playerKey p1Pokemon) in
  let p2Key := default p2 (CalcdexPokemon.playerKey p2Pokemon) in
  if negb (p1Priority =? p2Priority) then
    let p1Higher := p2Priority <? p1Priority in
    {| MoveOrderInfo.firstPlayerKey := if p1Higher then p1Key else p2Key;
       MoveOrderInfo.secondPlayerKey := if p1Higher then p2Key else p1Key;
       MoveOrderInfo.firstMove := if p1Higher then p1Move else p2Move;
       MoveOrderInfo.secondMove := if p1Higher then p2Move else p1Move;
       MoveOrderInfo.firstPriority := Z.max p1Priority p2Priority;
       MoveOrderInfo.secondPriority := Z.min p1Priority p2Priority;
       MoveOrderInfo.firstSpeed := if p1Higher then p1Speed else p2Speed;
       MoveOrderInfo.secondSpeed := if p1Higher then p2Speed else p1Speed;
       MoveOrderInfo.reason := reason_priority |}
  else
    let isTrickRoom := default false (field ≫= CalcdexBattleField.isTrickRoom) in
    if p1Speed =? p2Speed then
      let p1GoesFirst := if Qlt_le_dec Math_random (1 # 2) then true else false in
      {| MoveOrderInfo.firstPlayerKey := if p1GoesFirst then p1Key else p2Key;
         MoveOrderInfo.secondPlayerKey := if p1GoesFirst then p2Key else p1Key;
         MoveOrderInfo.firstMove := if p1GoesFirst then p1Move else p2Move;
         MoveOrderInfo.secondMove := if p1GoesFirst then p2Move else p1Move;
         MoveOrderInfo.firstPriority := p1Priority;
         MoveOrderInfo.secondPriority := p2Priority;
         MoveOrderInfo.firstSpeed := p1Speed;
         MoveOrderInfo.secondSpeed := p2Speed;
         MoveOrderInfo.reason := reason_random |}
    else
      let p1GoesFirst :=
        if isTrickRoom then p1Speed <? p2Speed else p2Speed <? p1Speed in
      {| MoveOrderInfo.firstPlayerKey := if p1GoesFirst then p1Key else p2Key;
         MoveOrderInfo.secondPlayerKey := if p1GoesFirst then p2Key else p1Key;
         MoveOrderInfo.firstMove := if p1GoesFirst then p1Move else p2Move;
         MoveOrderInfo.secondMove := if p1GoesFirst then p2Move else p1Move;
         MoveOrderInfo.firstPriority := p1Priority;
         MoveOrderInfo.secondPriority := p2Priority;
         MoveOrderInfo.firstSpeed := if p1GoesFirst then p1Speed else p2Speed;
         MoveOrderInfo.secondSpeed := if p1GoesFirst then p2Speed else p1Speed;
         MoveOrderInfo.reason :=
           if isTrickRoom then reason_trick_room else reason_speed |}.

(** ** applyMoveEffects.ts *)

(** The damage a range stands for: [Math.floor((low + high) / 2)] for an
    array of two numbers, the number itself otherwise. *)
Definition damageOf (d : DamageRange) : Z :=
  match d with
  | DamagePair low high => (low + high) / 2
  | DamageScalar value => value
  end.

(** [matchupResult?.damageRange] where the code tests it for truthiness. *)
Definition presentDamageRange (matchupResult : option CalcdexMatchupResult.t)
  : option DamageRange :=
  match matchupResult ≫= CalcdexMatchupResult.damageRange with
  | Some d => if truthyDamageRange d then Some d else None
  | None => None
  end.

(** The function body runs three blocks in a row over the cloned snapshot
    and the list of description clauses; a block either returns the
    function's result or falls through to the next one. *)
Definition Working : Set := CalcdexBattleState.t * list string.

Inductive flow : Set :=
| Return (r : MoveEffectApplicationResult.t)
| Continue (w : Working).

(** [src/utils/playahead/applyMoveEffects.ts], "Apply damage if this is a
    damaging move". *)
Definition damageBlock (dexMove : DexMove.t)
    (matchupResult : option CalcdexMatchupResult.t)
    (targetPlayerKey : CalcdexPlayerKey) (targetIndex : Z)
    (targetPokemon : CalcdexPokemon.t) (w : Working) : flow :=
  let '(newBattleState, descriptionParts) := w in
  match (if bool_decide (DexMove.category dexMove ≠ Status)
         then presentDamageRange matchupResult else None) with
  | Some damageArray =>
        let damage := damageOf damageArray in
        if 0 <? damage then
          let currentHp := default 100 (CalcdexPokemon.hp targetPokemon) in
          let newHp := Z.max 0 (currentHp - damage) in
          let newBattleState :=
            setPokemon newBattleState targetPlayerKey targetIndex
              (withHp targetPokemon newHp) in
          let descriptionParts :=
            descriptionParts ++ ["It dealt " +:+ pretty damage +:+ " damage."] in
          if newHp =? 0 then
            let descriptionParts :=
              descriptionParts ++
              [CalcdexPokemon.speciesForme targetPokemon +:+ " fainted!"] in
            Return {|
              MoveEffectApplicationResult.battleState := newBattleState;
              MoveEffectApplicationResult.targetFainted := true;
              MoveEffectApplicationResult.userFainted := false;
              MoveEffectApplicationResult.description :=
                Some (String.concat " " descriptionParts);
              MoveEffectApplicationResult.errors := None |}
          else Continue (newBattleState, descriptionParts)
        else Continue w
  | None => Continue w
  end.

(** "Handle recoil damage".  [recoilPercent = recoil[0] / recoil[1]] is
    positive exactly when the numerator is, and
    [Math.floor(damageDealt * recoilPercent)] is the floor of the exact
    quotient. *)
Definition recoilBlock (dexMove : DexMove.t)
    (matchupResult : option CalcdexMatchupResult.t)
    (userPlayerKey : CalcdexPlayerKey) (userIndex : Z)
    (userPokemon : CalcdexPokemon.t) (w : Working) : flow :=
  let '(newBattleState, descriptionParts) := w in
  match DexMove.recoil dexMove, presentDamageRange matchupResult with
  | Some (num, den), Some damageRange =>
      if 0 <? num then
        let damageDealt := damageOf damageRange in
        let recoilDamage := Z.max 1 (damageDealt * num / Z.pos den) in
        let currentHp := default 100 (CalcdexPokemon.hp userPokemon) in
        let newHp := Z.max 0 (currentHp - recoilDamage) in
        let newBattleState :=
          setPokemon newBattleState userPlayerKey userIndex
            (withHp userPokemon newHp) in
        let descriptionParts :=
          descriptionParts ++
          [CalcdexPokemon.speciesForme userPokemon +:+ " took " +:+
           pretty recoilDamage +:+ " recoil damage."] in
        if newHp =? 0 then
          let descriptionParts :=
            descriptionParts ++
            [CalcdexPokemon.speciesForme userPokemon +:+ " fainted from recoil!"] in
          Return {|
            MoveEffectApplicationResult.battleState := newBattleState;
            MoveEffectApplicationResult.targetFainted := false;
            MoveEffectApplicationResult.userFainted := true;
            MoveEffectApplicationResult.description :=
              Some (String.concat " " descriptionParts);
            MoveEffectApplicationResult.errors := None |}
        else Continue (newBattleState, descriptionParts)
      else Continue w
  | _, _ => Continue w
  end.

(** "Handle drain moves (e.g., Giga Drain, Drain Punch)". *)
Definition drainBlock (dexMove : DexMove.t)
    (matchupResult : option CalcdexMatchupResult.t)
    (userPlayerKey : CalcdexPlayerKey) (userIndex : Z)
    (userPokemon : CalcdexPokemon.t) (w : Working) : Working :=
  let '(newBattleState, descriptionParts) := w in
  match DexMove.drain dexMove, presentDamageRange matchupResult with
  | Some (num, den), Some damageRange =>
      if 0 <? num then
        let damageDealt := damageOf damageRange in
        let healAmount := Z.max 1 (damageDealt * num / Z.pos den) in
        let currentHp := default 100 (CalcdexPokemon.hp userPokemon) in
        let maxHp := default 100 (CalcdexPokemon.maxhp userPokemon) in
        let newHp := Z.min maxHp (currentHp + healAmount) in
        (setPokemon newBattleState userPlayerKey userIndex
           (withHp userPokemon newHp),
         descriptionParts ++
         [CalcdexPokemon.speciesForme userPokemon +:+ " restored " +:+
          pretty healAmount +:+ " HP."])
      else w
  | _, _ => w
  end.

(** The result of the three early exits that only report an error. *)
Definition failed (newBattleState : CalcdexBattleState.t) (error : string)
  : MoveEffectApplicationResult.t :=
  {| MoveEffectApplicationResult.battleState := newBattleState;
     MoveEffectApplicationResult.targetFainted := false;
     MoveEffectApplicationResult.userFainted := false;
     MoveEffectApplicationResult.description := None;
     MoveEffectApplicationResult.errors := Some [error] |}.

Definition applyMoveEffects
    (battleState : CalcdexBattleState.t)
    (userPlayerKey targetPlayerKey : CalcdexPlayerKey)
    (move : MoveName)
    (matchupResult : option CalcdexMatchupResult.t)
    (format : option FormatArg) : MoveEffectApplicationResult.t :=
  let newBattleState := cloneBattleState battleState in
  match getPlayer newBattleState userPlayerKey,
        getPlayer newBattleState targetPlayerKey with
  | Some userPlayer, Some targetPlayer =>
      let userIndex := activeIndex userPlayer in
      let targetIndex := activeIndex targetPlayer in
      match pokemonAt userPlayer userIndex,
            pokemonAt targetPlayer targetIndex with
      | Some userPokemon, Some targetPokemon =>
          match dexMoves format move with
          | Some dexMove =>
              let descriptionParts :=
                [CalcdexPokemon.speciesForme userPokemon +:+ " used " +:+
                 move +:+ "!"] in
              match damageBlock dexMove matchupResult targetPlayerKey
                      targetIndex targetPokemon
                      (newBattleState, descriptionParts) with
              | Return r => r
              | Continue w =>
                  match recoilBlock dexMove matchupResult userPlayerKey
                          userIndex userPokemon w with
                  | Return r => r
                  | Continue w =>
                      let '(newBattleState, descriptionParts) :=
                        drainBlock dexMove matchupResult userPlayerKey
                          userIndex userPokemon w in
                      {| MoveEffectApplicationResult.battleState := newBattleState;
                         MoveEffectApplicationResult.targetFainted := false;
                         MoveEffectApplicationResult.userFainted := false;
                         MoveEffectApplicationResult.description :=
                           Some (String.concat " " descriptionParts);
                         MoveEffectApplicationResult.errors := None |}
                  end
              end
          | None =>
              failed newBattleState ("Move " +:+ move +:+ " not found in dex")
          end
      | _, _ => failed newBattleState "Invalid Pokemon"
      end
  | _, _ => failed newBattleState "Invalid player keys"
  end.

(** ** simulateTurn.ts *)

Variable calcSmogonMatchup :
  FormatArg → string →
  option CalcdexPokemon.t → option CalcdexPokemon.t → MoveName →
  CalcdexPlayer.t → CalcdexPlayer.t → list CalcdexPlayer.t →
  CalcdexBattleField.t → option CalcdexMatchupResult.t.

(** [format || currentBattleState.format] *)
Definition formatOr (format : option FormatArg) (bs : CalcdexBattleState.t)
  : FormatArg :=
  match format with
  | Some f => if truthyFormat f then f
              else FormatString (CalcdexBattleState.format bs)
  | None => FormatString (CalcdexBattleState.format bs)
  end.

(** [errors.push(...(result.errors))] when [result.errors?.length] *)
Definition pushErrors (errors : list string) (more : option (list string))
  : list string :=
  errors ++ default [] more.

(** [errors.length > 0 ? errors : undefined] *)
Definition reportErrors (errors : list string) : option (list string) :=
  match errors with [] => None | _ => Some errors end.

Definition simulateTurn
    (battleState : CalcdexBattleState.t)
    (playerKey opponentKey : CalcdexPlayerKey)
    (playerMove opponentMove : MoveName)
    (format : option FormatArg) : completion TurnSimulationResult.t :=
  let currentBattleState := cloneBattleState battleState in
  match getPlayer currentBattleState playerKey,
        getPlayer currentBattleState opponentKey with
  | Some player, Some opponent =>
      let playerIndex := activeIndex player in
      let opponentIndex := activeIndex opponent in
      match pokemonAt player playerIndex, pokemonAt opponent opponentIndex with
      | Some playerPokemon, Some opponentPokemon =>
          let moveOrder :=
            determineMoveOrder (formatOr format currentBattleState)
              playerPokemon opponentPokemon playerMove opponentMove
              (Some player) (Some opponent)
              (Some (CalcdexBattleState.field currentBattleState))
              (Some [player; opponent]) in
          (* Execute first move *)
          match getPlayer currentBattleState (MoveOrderInfo.firstPlayerKey moveOrder),
                getPlayer currentBattleState (MoveOrderInfo.secondPlayerKey moveOrder) with
          | Some firstMoveUser, Some firstMoveTarget =>
              let firstMoveUserPokemon :=
                pokemonAt firstMoveUser (activeIndex firstMoveUser) in
              let firstMoveTargetPokemon :=
                pokemonAt firstMoveTarget (activeIndex firstMoveTarget) in
              let firstMatchup :=
                calcSmogonMatchup (formatOr format currentBattleState)
                  (CalcdexBattleState.gameType currentBattleState)
                  firstMoveUserPokemon firstMoveTargetPokemon
                  (MoveOrderInfo.firstMove moveOrder)
                  firstMoveUser firstMoveTarget [firstMoveUser; firstMoveTarget]
                  (CalcdexBattleState.field currentBattleState) in
              let firstMoveResult :=
                applyMoveEffects currentBattleState
                  (MoveOrderInfo.firstPlayerKey moveOrder)
                  (MoveOrderInfo.secondPlayerKey moveOrder)
                  (MoveOrderInfo.firstMove moveOrder)
                  firstMatchup
                  (Some (formatOr format currentBattleState)) in
              let currentBattleState :=
                MoveEffectApplicationResult.battleState firstMoveResult in
              let moveResults :=
                [ {| PlayAheadMoveResult.pokemon := firstMoveUserPokemon;
                     PlayAheadMoveResult.move := MoveOrderInfo.firstMove moveOrder;
                     PlayAheadMoveResult.playerKey :=
                       MoveOrderInfo.firstPlayerKey moveOrder;
                     PlayAheadMoveResult.damageRange :=
                       firstMatchup ≫= CalcdexMatchupResult.damageRange;
                     PlayAheadMoveResult.damagePercent :=
                       firstMatchup ≫= CalcdexMatchupResult.description;
                     PlayAheadMoveResult.koChance :=
                       firstMatchup ≫= CalcdexMatchupResult.koChance;
                     PlayAheadMoveResult.movesFirst := true;
                     PlayAheadMoveResult.priority :=
                       MoveOrderInfo.firstPriority moveOrder;
                     PlayAheadMoveResult.effectiveSpeed :=
                       MoveOrderInfo.firstSpeed moveOrder |} ] in
              let errors :=
                pushErrors [] (MoveEffectApplicationResult.errors firstMoveResult) in
              if MoveEffectApplicationResult.targetFainted firstMoveResult then
                Returns {| TurnSimulationResult.battleState := currentBattleState;
                           TurnSimulationResult.moveResults := moveResults;
                           TurnSimulationResult.errors := reportErrors errors |}
              else if MoveEffectApplicationResult.userFainted firstMoveResult then
                Returns {| TurnSimulationResult.battleState := currentBattleState;
                           TurnSimulationResult.moveResults := moveResults;
                           TurnSimulationResult.errors := reportErrors errors |}
              else
                (* Execute second move *)
                match getPlayer currentBattleState (MoveOrderInfo.secondPlayerKey moveOrder),
                      getPlayer currentBattleState (MoveOrderInfo.firstPlayerKey moveOrder) with
                | Some secondMoveUser, Some secondMoveTarget =>
                    let secondMoveUserPokemon :=
                      pokemonAt secondMoveUser (activeIndex secondMoveUser) in
                    let secondMoveTargetPokemon :=
                      pokemonAt secondMoveTarget (activeIndex secondMoveTarget) in
                    let secondMatchup :=
                      calcSmogonMatchup (formatOr format currentBattleState)
                        (CalcdexBattleState.gameType currentBattleState)
                        secondMoveUserPokemon secondMoveTargetPokemon
                        (MoveOrderInfo.secondMove moveOrder)
                        secondMoveUser secondMoveTarget
                        [secondMoveUser; secondMoveTarget]
                        (CalcdexBattleState.field currentBattleState) in
                    let secondMoveResult :=
                      applyMoveEffects currentBattleState
                        (MoveOrderInfo.secondPlayerKey moveOrder)
                        (MoveOrderInfo.firstPlayerKey moveOrder)
                        (MoveOrderInfo.secondMove moveOrder)
                        secondMatchup
                        (Some (formatOr format currentBattleState)) in
                    let currentBattleState :=
                      MoveEffectApplicationResult.battleState secondMoveResult in
                    let moveResults :=
                      moveResults ++
                      [ {| PlayAheadMoveResult.pokemon := secondMoveUserPokemon;
                           PlayAheadMoveResult.move :=
                             MoveOrderInfo.secondMove moveOrder;
                           PlayAheadMoveResult.playerKey :=
                             MoveOrderInfo.secondPlayerKey moveOrder;
                           PlayAheadMoveResult.damageRange :=
                             secondMatchup ≫= CalcdexMatchupResult.damageRange;
                           PlayAheadMoveResult.damagePercent :=
                             secondMatchup ≫= CalcdexMatchupResult.description;
                           PlayAheadMoveResult.koChance :=
                             secondMatchup ≫= CalcdexMatchupResult.koChance;
                           PlayAheadMoveResult.movesFirst := false;
                           PlayAheadMoveResult.priority :=
                             MoveOrderInfo.secondPriority moveOrder;
                           PlayAheadMoveResult.effectiveSpeed :=
                             MoveOrderInfo.secondSpeed moveOrder |} ] in
                    let errors :=
                      pushErrors errors
                        (MoveEffectApplicationResult.errors secondMoveResult) in
                    Returns {| TurnSimulationResult.battleState := currentBattleState;
                               TurnSimulationResult.moveResults := moveResults;
                               TurnSimulationResult.errors := reportErrors errors |}
                | _, _ => Throws
                end
          | _, _ => Throws
          end
      | _, _ =>
          Returns {| TurnSimulationResult.battleState := currentBattleState;
                     TurnSimulationResult.moveResults := [];
                     TurnSimulationResult.errors := Some ["No active Pokemon"] |}
      end
  | _, _ =>
      Returns {| TurnSimulationResult.battleState := currentBattleState;
                 TurnSimulationResult.moveResults := [];
                 TurnSimulationResult.errors := Some ["Invalid player keys"] |}
  end.

End Engine.


(** ** playAheadSlice.ts: the session store *)

(** [PlayAheadPendingDecision], as declared in the feature description. *)
Inductive DecisionType : Set :=
| switch_in | random_effect | multi_hit
| focus_sash | berry_activation | ability_trigger.

Module PlayAheadPendingDecision.
Record metadata_t : Set := mk_metadata {
  availablePokemonIndices : option (list Z);
  probability : option Q;
  effectName : option string;
  hitRange : option (Z * Z);
  triggerName : option string;
}.
Record t : Set := mk {
  type : DecisionType;
  playerKey : CalcdexPlayerKey;
  moveName : option MoveName;
  description : string;
  metadata : option metadata_t;
}.
End PlayAheadPendingDecision.

Module TurnHistoryEntry.
Record t : Set := mk {
  turn : Z;
  playerMove : MoveName;
  opponentMove : MoveName;
  results : list PlayAheadMoveResult.t;
}.
End TurnHistoryEntry.

Module PlayAheadState.
Record t : Set := mk {
  battleId : option string;
  active : bool;
  simulatedTurns : Z;
  playerMove : option MoveName;
  opponentMove : option MoveName;
  simulatedBattleState : option CalcdexBattleState.t;
  turnResults : option (list PlayAheadMoveResult.t);
  pendingDecisions : list PlayAheadPendingDecision.t;
  turnHistory : option (list TurnHistoryEntry.t);
  errors : option (list string);
}.
End PlayAheadState.

(** [PlayAheadSliceState = Record<string, PlayAheadState>].  A reducer
    takes the state and the action's payload and yields the next state; a
    reducer that returns without touching its draft yields the state it
    was given. *)
Abbreviation PlayAheadSliceState := (gmap string PlayAheadState.t).

(** A move selection counts for [playerMove && opponentMove] when it is a
    non-empty name. *)
Definition truthyMove (m : option MoveName) : option MoveName :=
  match m with
  | Some name => if truthyString name then Some name else None
  | None => None
  end.

(** [state[battleId]?.active], with [!battleId] tested before it. *)
Definition activeSession (state : PlayAheadSliceState) (battleId : string)
  : option PlayAheadState.t :=
  if truthyString battleId then
    match state !! battleId with
    | Some s => if PlayAheadState.active s then Some s else None
    | None => None
    end
  else None.

Definition initSimulation (state : PlayAheadSliceState) (battleId : string)
    (battleState : option CalcdexBattleState.t) : PlayAheadSliceState :=
  if truthyString battleId then
    match battleState with
    | Some battleState =>
        let simulatedBattleState := cloneBattleState battleState in
        <[battleId :=
            {| PlayAheadState.battleId := Some battleId;
               PlayAheadState.active := true;
               PlayAheadState.simulatedTurns := 0;
               PlayAheadState.playerMove := None;
               PlayAheadState.opponentMove := None;
               PlayAheadState.simulatedBattleState := Some simulatedBattleState;
               PlayAheadState.turnResults := Some [];
               PlayAheadState.pendingDecisions := [];
               PlayAheadState.turnHistory := Some [];
               PlayAheadState.errors := Some [] |}]> state
    | None => state
    end
  else state.

Definition setPlayerMove (state : PlayAheadSliceState) (battleId : string)
    (move : MoveName) : PlayAheadSliceState :=
  match activeSession state battleId with
  | Some s =>
      <[battleId :=
          PlayAheadState.mk (PlayAheadState.battleId s) (PlayAheadState.active s)
            (PlayAheadState.simulatedTurns s)
            (Some move) (PlayAheadState.opponentMove s)
            (PlayAheadState.simulatedBattleState s) (PlayAheadState.turnResults s)
            (PlayAheadState.pendingDecisions s) (PlayAheadState.turnHistory s)
            (PlayAheadState.errors s)]> state
  | None => state
  end.

Definition setOpponentMove (state : PlayAheadSliceState) (battleId : string)
    (move : MoveName) : PlayAheadSliceState :=
  match activeSession state battleId with
  | Some s =>
      <[battleId :=
          PlayAheadState.mk (PlayAheadState.battleId s) (PlayAheadState.active s)
            (PlayAheadState.simulatedTurns s)
            (PlayAheadState.playerMove s) (Some move)
            (PlayAheadState.simulatedBattleState s) (PlayAheadState.turnResults s)
            (PlayAheadState.pendingDecisions s) (PlayAheadState.turnHistory s)
            (PlayAheadState.errors s)]> state
  | None => state
  end.

Definition updateSimulatedState (state : PlayAheadSliceState) (battleId : string)
    (simulatedBattleState : CalcdexBattleState.t)
    (turnResults : list PlayAheadMoveResult.t) : PlayAheadSliceState :=
  match activeSession state battleId with
  | Some s =>
      <[battleId :=
          PlayAheadState.mk (PlayAheadState.battleId s) (PlayAheadState.active s)
            (PlayAheadState.simulatedTurns s)
            (PlayAheadState.playerMove s) (PlayAheadState.opponentMove s)
            (Some simulatedBattleState) (Some turnResults)
            (PlayAheadState.pendingDecisions s) (PlayAheadState.turnHistory s)
            (PlayAheadState.errors s)]> state
  | None => state
  end.

Definition addPendingDecision (state : PlayAheadSliceState) (battleId : string)
    (decision : PlayAheadPendingDecision.t) : PlayAheadSliceState :=
  match activeSession state battleId with
  | Some s =>
      <[battleId :=
          PlayAheadState.mk (PlayAheadState.battleId s) (PlayAheadState.active s)
            (PlayAheadState.simulatedTurns s)
            (PlayAheadState.playerMove s) (PlayAheadState.opponentMove s)
            (PlayAheadState.simulatedBattleState s) (PlayAheadState.turnResults s)
            (PlayAheadState.pendingDecisions s ++ [decision])
            (PlayAheadState.turnHistory s)
            (PlayAheadState.errors s)]> state
  | None => state
  end.

(** [xs.splice(start, 1)] for an integer [start]: a negative [start] counts
    from the end, and nothing is removed at or past the end. *)
Definition spliceOne {A : Type} (xs : list A) (start : Z) : list A :=
  let len := Z.of_nat (length xs) in
  let actualStart :=
    if start <? 0 then Z.max (len + start) 0 else Z.min start len in
  delete (Z.to_nat actualStart) xs.

Definition resolvePendingDecision (state : PlayAheadSliceState)
    (battleId : string) (decisionIndex : Z) : PlayAheadSliceState :=
  match activeSession state battleId with
  | Some s =>
      <[battleId :=
          PlayAheadState.mk (PlayAheadState.battleId s) (PlayAheadState.active s)
            (PlayAheadState.simulatedTurns s)
            (PlayAheadState.playerMove s) (PlayAheadState.opponentMove s)
            (PlayAheadState.simulatedBattleState s) (PlayAheadState.turnResults s)
            (spliceOne (PlayAheadState.pendingDecisions s) decisionIndex)
            (PlayAheadState.turnHistory s)
            (PlayAheadState.errors s)]> state
  | None => state
  end.

Definition advanceTurn (state : PlayAheadSliceState) (battleId : string)
  : PlayAheadSliceState :=
  match activeSession state battleId with
  | Some playAheadState =>
      (* Save current turn to history *)
      let turnHistory :=
        match truthyMove (PlayAheadState.playerMove playAheadState),
              truthyMove (PlayAheadState.opponentMove playAheadState),
              PlayAheadState.turnResults playAheadState with
        | Some playerMove, Some opponentMove, Some turnResults =>
            Some (default [] (PlayAheadState.turnHistory playAheadState) ++
                  [ {| TurnHistoryEntry.turn :=
                         PlayAheadState.simulatedTurns playAheadState + 1;
                       TurnHistoryEntry.playerMove := playerMove;
                       TurnHistoryEntry.opponentMove := opponentMove;
                       TurnHistoryEntry.results := turnResults |} ])
        | _, _, _ => PlayAheadState.turnHistory playAheadState
        end in
      <[battleId :=
          {| PlayAheadState.battleId := PlayAheadState.battleId playAheadState;
             PlayAheadState.active := PlayAheadState.active playAheadState;
             (* Increment turn counter *)
             PlayAheadState.simulatedTurns :=
               PlayAheadState.simulatedTurns playAheadState + 1;
             (* Clear move selections for next turn *)
             PlayAheadState.playerMove := None;
             PlayAheadState.opponentMove := None;
             PlayAheadState.simulatedBattleState :=
               PlayAheadState.simulatedBattleState playAheadState;
             PlayAheadState.turnResults := Some [];
             PlayAheadState.pendingDecisions :=
               PlayAheadState.pendingDecisions playAheadState;
             PlayAheadState.turnHistory := turnHistory;
             PlayAheadState.errors := PlayAheadState.errors playAheadState |}]>
        state
  | None => state
  end.

Definition resetSimulation (state : PlayAheadSliceState) (battleId : string)
  : PlayAheadSliceState :=
  if truthyString battleId then
    match state !! battleId with
    | Some _ => delete battleId state
    | None => state
    end
  else state.

(** [destroy] takes one id or a list of ids. *)
Definition destroy (state : PlayAheadSliceState) (battleIds : list string)
  : PlayAheadSliceState :=
  foldl (λ state battleId,
           match state !! battleId with
           | Some _ => delete battleId state
           | None => state
           end) state battleIds.

(** *** The actions of the slice *)

(** The payload of [destroy] is one battle id or an array of them:
    [Array.isArray(action.payload) ? action.payload : [action.payload]]. *)
Inductive DestroyPayload : Set :=
| OneBattle (battleId : string)
| ManyBattles (battleIds : list string).

Definition destroyIds (payload : DestroyPayload) : list string :=
  match payload with
  | OneBattle battleId => [battleId]
  | ManyBattles battleIds => battleIds
  end.

(** [playAheadActions]: one action per reducer, with the properties of the
    payload the reducer reads.  ([scope] only labels log lines, and the
    [resolution] of a decision is not read.) *)
Inductive PlayAheadAction : Set :=
| InitSimulationAction (battleId : string)
    (battleState : option CalcdexBattleState.t)
| SetPlayerMoveAction (battleId : string) (move : MoveName)
| SetOpponentMoveAction (battleId : string) (move : MoveName)
| UpdateSimulatedStateAction (battleId : string)
    (simulatedBattleState : CalcdexBattleState.t)
    (turnResults : list PlayAheadMoveResult.t)
| AddPendingDecisionAction (battleId : string)
    (decision : PlayAheadPendingDecision.t)
| ResolvePendingDecisionAction (battleId : string) (decisionIndex : Z)
| AdvanceTurnAction (battleId : string)
| ResetSimulationAction (battleId : string)
| DestroyAction (payload : DestroyPayload).

(** [initialState: {}] *)
Definition initialState : PlayAheadSliceState := ∅.

(** [playAheadSlice.reducer], which [createSlice] builds from the case
    reducers: the action's type selects the reducer that runs. *)
Definition playAheadReducer (state : PlayAheadSliceState)
    (action : PlayAheadAction) : PlayAheadSliceState :=
  match action with
  | InitSimulationAction battleId battleState =>
      initSimulation state battleId battleState
  | SetPlayerMoveAction battleId move => setPlayerMove state battleId move
  | SetOpponentMoveAction battleId move => setOpponentMove state battleId move
  | UpdateSimulatedStateAction battleId simulatedBattleState turnResults =>
      updateSimulatedState state battleId simulatedBattleState turnResults
  | AddPendingDecisionAction battleId decision =>
      addPendingDecision state battleId decision
  | ResolvePendingDecisionAction battleId decisionIndex =>
      resolvePendingDecision state battleId decisionIndex
  | AdvanceTurnAction battleId => advanceTurn state battleId
  | ResetSimulationAction battleId => resetSimulation state battleId
  | DestroyAction payload => destroy state (destroyIds payload)
  end.

(** [dispatch(action)] on a store holding [state]; a callback that returns
    before it dispatches leaves the store as it is. *)
Definition dispatch (state : PlayAheadSliceState)
    (action : option PlayAheadAction) : PlayAheadSliceState :=
  match action with
  | Some action => playAheadReducer state action
  | None => state
  end.

(** ** PlayAheadContext.ts and PlayAheadProvider *)

Module PlayAheadContextValue.
Record t : Set := mk {
  state : option PlayAheadState.t;
  battleId : string;
}.
End PlayAheadContextValue.

(** [React.createContext<PlayAheadContextValue>({ state: null, battleId: '' })] *)
Definition PlayAheadContext : PlayAheadContextValue.t :=
  PlayAheadContextValue.mk None "".

(** [PlayAheadProvider]: the context value for [battleId] over the store,
    [state.playAhead?.[battleId] || null]. *)
Definition PlayAheadProvider (playAhead : PlayAheadSliceState)
    (battleId : string) : PlayAheadContextValue.t :=
  PlayAheadContextValue.mk (playAhead !! battleId) battleId.

(** ** usePlayAheadContext.ts

    What the hook returns for a context value [ctx].  A callback is the
    action it dispatches. *)

Module usePlayAheadContext.

Definition initSimulation (ctx : PlayAheadContextValue.t)
    (battleState : option CalcdexBattleState.t) : PlayAheadAction :=
  InitSimulationAction (PlayAheadContextValue.battleId ctx) battleState.

Definition setPlayerMove (ctx : PlayAheadContextValue.t) (move : MoveName)
  : PlayAheadAction :=
  SetPlayerMoveAction (PlayAheadContextValue.battleId ctx) move.

Definition setOpponentMove (ctx : PlayAheadContextValue.t) (move : MoveName)
  : PlayAheadAction :=
  SetOpponentMoveAction (PlayAheadContextValue.battleId ctx) move.

Section Execute.

Variable dexMoves : option FormatArg → MoveName → option DexMove.t.
Variable calcPokemonFinalStats :
  FormatArg → CalcdexPokemon.t → CalcdexPokemon.t →
  option CalcdexPlayer.t → option CalcdexPlayer.t →
  option CalcdexBattleField.t → option (list CalcdexPlayer.t) → option Z.
Variable Math_random : Q.
Variable calcSmogonMatchup :
  FormatArg → string →
  option CalcdexPokemon.t → option CalcdexPokemon.t → MoveName →
  CalcdexPlayer.t → CalcdexPlayer.t → list CalcdexPlayer.t →
  CalcdexBattleField.t → option CalcdexMatchupResult.t.

(** [executeSimulation]: the action the callback dispatches, if it gets
    that far.  The callback reads the session of the render it was made in
    ([ctx.state]); it returns without a dispatch when a move is not
    selected, and [simulateTurn] may throw. *)
Definition executeSimulation (ctx : PlayAheadContextValue.t)
    (currentBattleState : CalcdexBattleState.t)
    (playerKey opponentKey : CalcdexPlayerKey)
  : completion (option PlayAheadAction) :=
  match PlayAheadContextValue.state ctx with
  | Some state =>
      match truthyMove (PlayAheadState.playerMove state),
            truthyMove (PlayAheadState.opponentMove state) with
      | Some playerMove, Some opponentMove =>
          (* Use the simulated battle state if it exists, otherwise use current *)
          let battleStateToUse :=
            default currentBattleState
              (PlayAheadState.simulatedBattleState state) in
          match simulateTurn dexMoves calcPokemonFinalStats Math_random
                  calcSmogonMatchup battleStateToUse playerKey opponentKey
                  playerMove opponentMove
                  (Some (FormatString
                           (CalcdexBattleState.format currentBattleState))) with
          | Returns result =>
              Returns
                (Some (UpdateSimulatedStateAction
                         (PlayAheadContextValue.battleId ctx)
                         (TurnSimulationResult.battleState result)
                         (TurnSimulationResult.moveResults result)))
          | Throws => Throws
          end
      | _, _ => Returns None
      end
  | None => Returns None
  end.

End Execute.

Definition addPendingDecision (ctx : PlayAheadContextValue.t)
    (decision : PlayAheadPendingDecision.t) : PlayAheadAction :=
  AddPendingDecisionAction (PlayAheadContextValue.battleId ctx) decision.

Definition resolvePendingDecision (ctx : PlayAheadContextValue.t)
    (decisionIndex : Z) : PlayAheadAction :=
  ResolvePendingDecisionAction (PlayAheadContextValue.battleId ctx) decisionIndex.

Definition advanceTurn (ctx : PlayAheadContextValue.t) : PlayAheadAction :=
  AdvanceTurnAction (PlayAheadContextValue.battleId ctx).

Definition resetSimulation (ctx : PlayAheadContextValue.t) : PlayAheadAction :=
  ResetSimulationAction (PlayAheadContextValue.battleId ctx).

(** [state?.active ?? false] *)
Definition isActive (ctx : PlayAheadContextValue.t) : bool :=
  default false (PlayAheadState.active <$> PlayAheadContextValue.state ctx).

(** [!!(state?.playerMove && state?.opponentMove)] *)
Definition canExecute (ctx : PlayAheadContextValue.t) : bool :=
  match PlayAheadContextValue.state ctx
          ≫= (λ s, truthyMove (PlayAheadState.playerMove s)),
        PlayAheadContextValue.state ctx
          ≫= (λ s, truthyMove (PlayAheadState.opponentMove s)) with
  | Some _, Some _ => true
  | _, _ => false
  end.

(** [state?.pendingDecisions?.length ?? 0] *)
Definition pendingDecisionCount (ctx : PlayAheadContextValue.t) : nat :=
  default 0%nat
    (length <$> (PlayAheadState.pendingDecisions <$> PlayAheadContextValue.state ctx)).

End usePlayAheadContext.

(** ** PlayAheadControls.tsx: the handlers and what they read *)

Module PlayAheadControls.


Section Execute.

Variable dexMoves : option FormatArg → MoveName → option DexMove.t.
Variable calcPokemonFinalStats :
  FormatArg → CalcdexPokemon.t → CalcdexPokemon.t →
  option CalcdexPlayer.t → option CalcdexPlayer.t →
  option CalcdexBattleField.t → option (list CalcdexPlayer.t) → option Z.
Variable Math_random : Q.
Variable calcSmogonMatchup :
  FormatArg → string →
  option CalcdexPokemon.t → option CalcdexPokemon.t → MoveName →
  CalcdexPlayer.t → CalcdexPlayer.t → list CalcdexPlayer.t →
  CalcdexBattleField.t → option CalcdexMatchupResult.t.

(** [handleExecute].  The component reads [playerKey] and [opponentKey]
    off the Calcdex state; they are arguments here. *)
Definition handleExecute (ctx : PlayAheadContextValue.t)
    (calcdexState : CalcdexBattleState.t)
    (playerKey opponentKey : CalcdexPlayerKey)
  : completion (option PlayAheadAction) :=
  if usePlayAheadContext.canExecute ctx then
    usePlayAheadContext.executeSimulation dexMoves calcPokemonFinalStats
      Math_random calcSmogonMatchup ctx calcdexState playerKey opponentKey
  else Returns None.

End Execute.

Definition handleAdvance (ctx : PlayAheadContextValue.t) : PlayAheadAction :=
  usePlayAheadContext.advanceTurn ctx.

Definition handleReset (ctx : PlayAheadContextValue.t) : PlayAheadAction :=
  usePlayAheadContext.resetSimulation ctx.

(** [playAheadState?.simulatedTurns ?? 0] *)
Definition turnsAhead (ctx : PlayAheadContextValue.t) : Z :=
  default 0 (PlayAheadState.simulatedTurns <$> PlayAheadContextValue.state ctx).

(** [!!playAheadState?.turnResults?.length] *)
Definition hasExecuted (ctx : PlayAheadContextValue.t) : bool :=
  match PlayAheadContextValue.state ctx ≫= PlayAheadState.turnResults with
  | Some (_ :: _) => true
  | _ => false
  end.

End PlayAheadControls.

(** ** Objects and references

    The development so far reads snapshots as values.  The code works on
    JavaScript objects: a battle state refers to its players, a player to
    its array of Pokemon, the array to its Pokemon, and
    [player.pokemon[i] = ...] overwrites a slot of an array that every
    holder of the same player object sees.  This part models the objects in
    a store, so that "the input is not mutated" can be stated.  The last
    part of the file shows that a run over the objects of a snapshot and a
    run over the snapshot itself come to the same turn.

    A reference that is dangling or leads to an object of the wrong kind
    has no counterpart in JavaScript; a read through it yields [undefined]
    here. *)

Module Store.

Definition loc : Set := positive.

Record StateObject : Set := mkState {
  state_format : string;
  state_gameType : string;
  state_field : CalcdexBattleField.t;
  state_p1 : option loc;
  state_p2 : option loc;
  state_p3 : option loc;
  state_p4 : option loc;
}.

Record PlayerObject : Set := mkPlayer {
  player_activeIndices : option (list Z);
  player_selectionIndex : option Z;
  player_pokemon : option loc;
}.

(** A Pokemon object has properties of primitive type only, so its
    contents are a [CalcdexPokemon.t]. *)
Inductive object : Set :=
| OState (s : StateObject)
| OPlayer (p : PlayerObject)
| OArray (items : list loc)
| OPokemon (pokemon : CalcdexPokemon.t).

Abbreviation store := (gmap loc object).

(** A new object gets a reference that is not in use. *)
Definition alloc (h : store) (o : object) : loc * store :=
  let l := fresh (dom h) in (l, <[l := o]> h).

Definition readState (h : store) (l : loc) : option StateObject :=
  match h !! l with Some (OState s) => Some s | _ => None end.

Definition readPlayer (h : store) (l : loc) : option PlayerObject :=
  match h !! l with Some (OPlayer p) => Some p | _ => None end.

Definition readArray (h : store) (l : loc) : option (list loc) :=
  match h !! l with Some (OArray items) => Some items | _ => None end.

Definition readPokemon (h : store) (l : loc) : option CalcdexPokemon.t :=
  match h !! l with Some (OPokemon pokemon) => Some pokemon | _ => None end.

Definition playerRef (s : StateObject) (k : CalcdexPlayerKey) : option loc :=
  match k with
  | p1 => state_p1 s
  | p2 => state_p2 s
  | p3 => state_p3 s
  | p4 => state_p4 s
  end.

(** [battleState[key]] *)
Definition playerOf (h : store) (battleState : loc) (k : CalcdexPlayerKey)
  : option loc :=
  readState h battleState ≫= (λ s, playerRef s k).

(** [player.activeIndices?.[0] ?? player.selectionIndex ?? 0] *)
Definition activeIndexAt (h : store) (player : loc) : Z :=
  match readPlayer h player with
  | Some p =>
      default (default 0 (player_selectionIndex p))
              (player_activeIndices p ≫= (λ xs, xs !! 0%nat))
  | None => 0
  end.

(** [player.pokemon?.[index]]: the reference found in the slot, with the
    contents of the object it leads to.  Pokemon objects are never written
    in place by this code, so the contents read here are the contents at
    every later use of the reference. *)
Definition pokemonAt (h : store) (player : loc) (index : Z)
  : option (loc * CalcdexPokemon.t) :=
  p ← readPlayer h player;
  a ← player_pokemon p;
  items ← readArray h a;
  l ← at_index items index;
  pokemon ← readPokemon h l;
  Some (l, pokemon).

(** [player.pokemon[index] = l] *)
Definition writeItem (h : store) (player : loc) (index : Z) (l : loc) : store :=
  match readPlayer h player ≫= player_pokemon with
  | Some a =>
      match readArray h a with
      | Some items => <[a := OArray (set_index items index l)]> h
      | None => h
      end
  | None => h
  end.

(** [player.pokemon[index] = { ...pokemon, hp: newHp, dirtyHp: newHp }]:
    the spread makes a new object, the assignment stores its reference. *)
Definition assignPokemon (h : store) (player : loc) (index : Z)
    (pokemon : CalcdexPokemon.t) : store :=
  let '(l, h) := alloc h (OPokemon pokemon) in
  writeItem h player index l.

(** *** cloneBattleState *)

(** Where a reference does not lead to an object of the expected kind
    there is nothing to copy; the copy is then this empty object. *)
Definition nothing : object := OArray [].

(** Modelled from the spec: the copy [cloneBattleState] makes of one
    Pokemon object.  [cloneBattleState] and its helpers live in
    [@showdex/utils/battle], which is not among the files verified here. *)
Definition clonePokemon (h : store) (l : loc) : loc * store :=
  match h !! l with
  | Some (OPokemon pokemon) => alloc h (OPokemon pokemon)
  | _ => alloc h nothing
  end.

(** Modelled from the spec: the copies of the Pokemon of one array, in
    order. *)
Fixpoint cloneItems (h : store) (items : list loc) : list loc * store :=
  match items with
  | [] => ([], h)
  | l :: items =>
      let '(l', h) := clonePokemon h l in
      let '(items', h) := cloneItems h items in
      (l' :: items', h)
  end.

(** Modelled from the spec: a new array holding the copies. *)
Definition cloneArray (h : store) (a : loc) : loc * store :=
  match h !! a with
  | Some (OArray items) =>
      let '(items', h) := cloneItems h items in
      alloc h (OArray items')
  | _ => alloc h nothing
  end.

(** Modelled from the spec: a new player object with a copy of the
    player's array. *)
Definition clonePlayer (h : store) (player : loc) : loc * store :=
  match h !! player with
  | Some (OPlayer p) =>
      let '(pokemon', h) :=
        match player_pokemon p with
        | Some a => let '(a', h) := cloneArray h a in (Some a', h)
        | None => (None, h)
        end in
      alloc h (OPlayer (mkPlayer (player_activeIndices p)
                          (player_selectionIndex p) pokemon'))
  | _ => alloc h nothing
  end.

(** Modelled from the spec: the copy of a player property that may be
    absent. *)
Definition cloneOptionalPlayer (h : store) (player : option loc)
  : option loc * store :=
  match player with
  | Some player => let '(player', h) := clonePlayer h player in (Some player', h)
  | None => (None, h)
  end.

(** Modelled from the spec: [cloneBattleState], which the specification
    has return a deep copy: a new state object that refers to copies of the
    players, which refer to copies of their arrays, which hold copies of
    the Pokemon. *)
Definition cloneBattleState (h : store) (battleState : loc) : loc * store :=
  match h !! battleState with
  | Some (OState s) =>
      let '(a, h) := cloneOptionalPlayer h (state_p1 s) in
      let '(b, h) := cloneOptionalPlayer h (state_p2 s) in
      let '(c, h) := cloneOptionalPlayer h (state_p3 s) in
      let '(d, h) := cloneOptionalPlayer h (state_p4 s) in
      alloc h (OState (mkState (state_format s) (state_gameType s)
                         (state_field s) a b c d))
  | _ => alloc h nothing
  end.

(** *** Reading a snapshot out of the store *)

Definition snapshotItems (h : store) (items : list loc)
  : option (list CalcdexPokemon.t) :=
  mapM (readPokemon h) items.

Definition snapshotPlayer (h : store) (player : loc) : option CalcdexPlayer.t :=
  p ← readPlayer h player;
  pokemon ← match player_pokemon p with
            | Some a => items ← readArray h a; Some <$> snapshotItems h items
            | None => Some None
            end;
  Some (CalcdexPlayer.mk (player_activeIndices p) (player_selectionIndex p)
          pokemon).

Definition snapshotOptionalPlayer (h : store) (player : option loc)
  : option (option CalcdexPlayer.t) :=
  match player with
  | Some player => Some <$> snapshotPlayer h player
  | None => Some None
  end.

Definition snapshot (h : store) (battleState : loc)
  : option CalcdexBattleState.t :=
  s ← readState h battleState;
  a ← snapshotOptionalPlayer h (state_p1 s);
  b ← snapshotOptionalPlayer h (state_p2 s);
  c ← snapshotOptionalPlayer h (state_p3 s);
  d ← snapshotOptionalPlayer h (state_p4 s);
  Some (CalcdexBattleState.mk (state_format s) (state_gameType s)
          (state_field s) a b c d).

(** Building the objects of a snapshot, for examples. *)
Definition loadItems (h : store) (pokemon : list CalcdexPokemon.t)
  : list loc * store :=
  foldr (λ p '(items, h), let '(l, h) := alloc h (OPokemon p) in (l :: items, h))
        ([], h) pokemon.

Definition loadPlayer (h : store) (player : CalcdexPlayer.t) : loc * store :=
  let '(pokemon, h) :=
    match CalcdexPlayer.pokemon player with
    | Some xs =>
        let '(items, h) := loadItems h xs in
        let '(a, h) := alloc h (OArray items) in (Some a, h)
    | None => (None, h)
    end in
  alloc h (OPlayer (mkPlayer (CalcdexPlayer.activeIndices player)
                      (CalcdexPlayer.selectionIndex player) pokemon)).

Definition loadOptionalPlayer (h : store) (player : option CalcdexPlayer.t)
  : option loc * store :=
  match player with
  | Some player => let '(l, h) := loadPlayer h player in (Some l, h)
  | None => (None, h)
  end.

Definition load (h : store) (bs : CalcdexBattleState.t) : loc * store :=
  let '(a, h) := loadOptionalPlayer h (CalcdexBattleState.p1 bs) in
  let '(b, h) := loadOptionalPlayer h (CalcdexBattleState.p2 bs) in
  let '(c, h) := loadOptionalPlayer h (CalcdexBattleState.p3 bs) in
  let '(d, h) := loadOptionalPlayer h (CalcdexBattleState.p4 bs) in
  alloc h (OState (mkState (CalcdexBattleState.format bs)
                     (CalcdexBattleState.gameType bs)
                     (CalcdexBattleState.field bs) a b c d)).

(** *** applyMoveEffects.ts and simulateTurn.ts over the store *)

Record EffectResult : Set := mkEffectResult {
  effect_battleState : loc;
  effect_targetFainted : bool;
  effect_userFainted : bool;
  effect_description : option string;
  effect_errors : option (list string);
}.

(** [PlayAheadMoveResult], whose [pokemon] property is a reference. *)
Record MoveResult : Set := mkMoveResult {
  move_pokemon : option loc;
  move_move : MoveName;
  move_playerKey : CalcdexPlayerKey;
  move_damageRange : option DamageRange;
  move_damagePercent : option string;
  move_koChance : option string;
  move_movesFirst : bool;
  move_priority : Z;
  move_effectiveSpeed : Z;
}.

Record TurnResult : Set := mkTurnResult {
  turn_battleState : loc;
  turn_moveResults : list MoveResult;
  turn_errors : option (list string);
}.

Section Engine.

Variable dexMoves : option FormatArg → MoveName → option DexMove.t.
Variable calcPokemonFinalStats :
  FormatArg → CalcdexPokemon.t → CalcdexPokemon.t →
  option CalcdexPlayer.t → option CalcdexPlayer.t →
  option CalcdexBattleField.t → option (list CalcdexPlayer.t) → option Z.
Variable Math_random : Q.
Variable calcSmogonMatchup :
  FormatArg → string →
  option CalcdexPokemon.t → option CalcdexPokemon.t → MoveName →
  CalcdexPlayer.t → CalcdexPlayer.t → list CalcdexPlayer.t →
  CalcdexBattleField.t → option CalcdexMatchupResult.t.

(** The working state of [applyMoveEffects]: the store and the list of
    description clauses.  [newBattleState] itself is a constant reference. *)
Definition Working : Type := store * list string.

Inductive flow : Type :=
| Return (r : EffectResult) (h : store)
| Continue (w : Working).

Definition damageBlock (newBattleState : loc) (dexMove : DexMove.t)
    (matchupResult : option CalcdexMatchupResult.t)
    (targetPlayer : loc) (targetIndex : Z)
    (targetPokemon : CalcdexPokemon.t) (w : Working) : flow :=
  let '(h, descriptionParts) := w in
  match (if bool_decide (DexMove.category dexMove ≠ Status)
         then presentDamageRange matchupResult else None) with
  | Some damageArray =>
      let damage := damageOf damageArray in
      if 0 <? damage then
        let currentHp := default 100 (CalcdexPokemon.hp targetPokemon) in
        let newHp := Z.max 0 (currentHp - damage) in
        let h := assignPokemon h targetPlayer targetIndex
                   (withHp targetPokemon newHp) in
        let descriptionParts :=
          descriptionParts ++ ["It dealt " +:+ pretty damage +:+ " damage."] in
        if newHp =? 0 then
          let descriptionParts :=
            descriptionParts ++
            [CalcdexPokemon.speciesForme targetPokemon +:+ " fainted!"] in
          Return {| effect_battleState := newBattleState;
                    effect_targetFainted := true;
                    effect_userFainted := false;
                    effect_description :=
                      Some (String.concat " " descriptionParts);
                    effect_errors := None |} h
        else Continue (h, descriptionParts)
      else Continue w
  | None => Continue w
  end.

Definition recoilBlock (newBattleState : loc) (dexMove : DexMove.t)
    (matchupResult : option CalcdexMatchupResult.t)
    (userPlayer : loc) (userIndex : Z)
    (userPokemon : CalcdexPokemon.t) (w : Working) : flow :=
  let '(h, descriptionParts) := w in
  match DexMove.recoil dexMove, presentDamageRange matchupResult with
  | Some (num, den), Some damageRange =>
      if 0 <? num then
        let damageDealt := damageOf damageRange in
        let recoilDamage := Z.max 1 (damageDealt * num / Z.pos den) in
        let currentHp := default 100 (CalcdexPokemon.hp userPokemon) in
        let newHp := Z.max 0 (currentHp - recoilDamage) in
        let h := assignPokemon h userPlayer userIndex
                   (withHp userPokemon newHp) in
        let descriptionParts :=
          descriptionParts ++
          [CalcdexPokemon.speciesForme userPokemon +:+ " took " +:+
           pretty recoilDamage +:+ " recoil damage."] in
        if newHp =? 0 then
          let descriptionParts :=
            descriptionParts ++
            [CalcdexPokemon.speciesForme userPokemon +:+ " fainted from recoil!"] in
          Return {| effect_battleState := newBattleState;
                    effect_targetFainted := false;
                    effect_userFainted := true;
                    effect_description :=
                      Some (String.concat " " descriptionParts);
                    effect_errors := None |} h
        else Continue (h, descriptionParts)
      else Continue w
  | _, _ => Continue w
  end.

Definition drainBlock (dexMove : DexMove.t)
    (matchupResult : option CalcdexMatchupResult.t)
    (userPlayer : loc) (userIndex : Z)
    (userPokemon : CalcdexPokemon.t) (w : Working) : Working :=
  let '(h, descriptionParts) := w in
  match DexMove.drain dexMove, presentDamageRange matchupResult with
  | Some (num, den), Some damageRange =>
      if 0 <? num then
        let damageDealt := damageOf damageRange in
        let healAmount := Z.max 1 (damageDealt * num / Z.pos den) in
        let currentHp := default 100 (CalcdexPokemon.hp userPokemon) in
        let maxHp := default 100 (CalcdexPokemon.maxhp userPokemon) in
        let newHp := Z.min maxHp (currentHp + healAmount) in
        (assignPokemon h userPlayer userIndex (withHp userPokemon newHp),
         descriptionParts ++
         [CalcdexPokemon.speciesForme userPokemon +:+ " restored " +:+
          pretty healAmount +:+ " HP."])
      else w
  | _, _ => w
  end.

Definition failed (newBattleState : loc) (error : string) : EffectResult :=
  {| effect_battleState := newBattleState;
     effect_targetFainted := false;
     effect_userFainted := false;
     effect_description := None;
     effect_errors := Some [error] |}.

Definition applyMoveEffects (h : store)
    (battleState : loc)
    (userPlayerKey targetPlayerKey : CalcdexPlayerKey)
    (move : MoveName)
    (matchupResult : option CalcdexMatchupResult.t)
    (format : option FormatArg) : EffectResult * store :=
  let '(newBattleState, h) := cloneBattleState h battleState in
  match playerOf h newBattleState userPlayerKey,
        playerOf h newBattleState targetPlayerKey with
  | Some userPlayer, Some targetPlayer =>
      let userIndex := activeIndexAt h userPlayer in
      let targetIndex := activeIndexAt h targetPlayer in
      match pokemonAt h userPlayer userIndex,
            pokemonAt h targetPlayer targetIndex with
      | Some (_, userPokemon), Some (_, targetPokemon) =>
          match dexMoves format move with
          | Some dexMove =>
              let descriptionParts :=
                [CalcdexPokemon.speciesForme userPokemon +:+ " used " +:+
                 move +:+ "!"] in
              match damageBlock newBattleState dexMove matchupResult
                      targetPlayer targetIndex targetPokemon
                      (h, descriptionParts) with
              | Return r h => (r, h)
              | Continue w =>
                  match recoilBlock newBattleState dexMove matchupResult
                          userPlayer userIndex userPokemon w with
                  | Return r h => (r, h)
                  | Continue w =>
                      let '(h, descriptionParts) :=
                        drainBlock dexMove matchupResult userPlayer
                          userIndex userPokemon w in
                      ({| effect_battleState := newBattleState;
                          effect_targetFainted := false;
                          effect_userFainted := false;
                          effect_description :=
                            Some (String.concat " " descriptionParts);
                          effect_errors := None |}, h)
                  end
              end
          | None =>
              (failed newBattleState ("Move " +:+ move +:+ " not found in dex"), h)
          end
      | _, _ => (failed newBattleState "Invalid Pokemon", h)
      end
  | _, _ => (failed newBattleState "Invalid player keys", h)
  end.

(** [format || currentBattleState.format] *)
Definition formatOrAt (h : store) (format : option FormatArg)
    (battleState : loc) : FormatArg :=
  let stored :=
    FormatString (default "" (state_format <$> readState h battleState)) in
  match format with
  | Some f => if truthyFormat f then f else stored
  | None => stored
  end.

(** The arguments the two calculators receive are the objects themselves;
    the calculators read them and write nothing, so they are handed the
    contents.  A player whose contents cannot be read has no counterpart in
    JavaScript and makes the call throw. *)
Definition simulateTurn (h : store)
    (battleState : loc)
    (playerKey opponentKey : CalcdexPlayerKey)
    (playerMove opponentMove : MoveName)
    (format : option FormatArg) : completion TurnResult * store :=
  let '(currentBattleState, h) := cloneBattleState h battleState in
  match playerOf h currentBattleState playerKey,
        playerOf h currentBattleState opponentKey with
  | Some player, Some opponent =>
      let playerIndex := activeIndexAt h player in
      let opponentIndex := activeIndexAt h opponent in
      match pokemonAt h player playerIndex, pokemonAt h opponent opponentIndex with
      | Some (_, playerPokemon), Some (_, opponentPokemon) =>
          match snapshotPlayer h player, snapshotPlayer h opponent,
                readState h currentBattleState with
          | Some playerContents, Some opponentContents, Some stateContents =>
              let moveOrder :=
                determineMoveOrder dexMoves calcPokemonFinalStats Math_random
                  (formatOrAt h format currentBattleState)
                  playerPokemon opponentPokemon playerMove opponentMove
                  (Some playerContents) (Some opponentContents)
                  (Some (state_field stateContents))
                  (Some [playerContents; opponentContents]) in
              (* Execute first move *)
              match playerOf h currentBattleState (MoveOrderInfo.firstPlayerKey moveOrder),
                    playerOf h currentBattleState (MoveOrderInfo.secondPlayerKey moveOrder) with
              | Some firstMoveUser, Some firstMoveTarget =>
                  match snapshotPlayer h firstMoveUser,
                        snapshotPlayer h firstMoveTarget with
                  | Some firstMoveUserContents, Some firstMoveTargetContents =>
                      let firstMoveUserPokemon :=
                        pokemonAt h firstMoveUser (activeIndexAt h firstMoveUser) in
                      let firstMoveTargetPokemon :=
                        pokemonAt h firstMoveTarget (activeIndexAt h firstMoveTarget) in
                      let firstMatchup :=
                        calcSmogonMatchup (formatOrAt h format currentBattleState)
                          (state_gameType stateContents)
                          (snd <$> firstMoveUserPokemon)
                          (snd <$> firstMoveTargetPokemon)
                          (MoveOrderInfo.firstMove moveOrder)
                          firstMoveUserContents firstMoveTargetContents
                          [firstMoveUserContents; firstMoveTargetContents]
                          (state_field stateContents) in
                      let '(firstMoveResult, h) :=
                        applyMoveEffects h currentBattleState
                          (MoveOrderInfo.firstPlayerKey moveOrder)
                          (MoveOrderInfo.secondPlayerKey moveOrder)
                          (MoveOrderInfo.firstMove moveOrder)
                          firstMatchup
                          (Some (formatOrAt h format currentBattleState)) in
                      let currentBattleState := effect_battleState firstMoveResult in
                      let moveResults :=
                        [ {| move_pokemon := fst <$> firstMoveUserPokemon;
                             move_move := MoveOrderInfo.firstMove moveOrder;
                             move_playerKey := MoveOrderInfo.firstPlayerKey moveOrder;
                             move_damageRange :=
                               firstMatchup ≫= CalcdexMatchupResult.damageRange;
                             move_damagePercent :=
                               firstMatchup ≫= CalcdexMatchupResult.description;
                             move_koChance :=
                               firstMatchup ≫= CalcdexMatchupResult.koChance;
                             move_movesFirst := true;
                             move_priority := MoveOrderInfo.firstPriority moveOrder;
                             move_effectiveSpeed := MoveOrderInfo.firstSpeed moveOrder |} ] in
                      let errors := pushErrors [] (effect_errors firstMoveResult) in
                      if effect_targetFainted firstMoveResult then
                        (Returns {| turn_battleState := currentBattleState;
                                    turn_moveResults := moveResults;
                                    turn_errors := reportErrors errors |}, h)
                      else if effect_userFainted firstMoveResult then
                        (Returns {| turn_battleState := currentBattleState;
                                    turn_moveResults := moveResults;
                                    turn_errors := reportErrors errors |}, h)
                      else
                        (* Execute second move *)
                        match playerOf h currentBattleState (MoveOrderInfo.secondPlayerKey moveOrder),
                              playerOf h currentBattleState (MoveOrderInfo.firstPlayerKey moveOrder),
                              readState h currentBattleState with
                        | Some secondMoveUser, Some secondMoveTarget,
                          Some stateContents =>
                            match snapshotPlayer h secondMoveUser,
                                  snapshotPlayer h secondMoveTarget with
                            | Some secondMoveUserContents,
                              Some secondMoveTargetContents =>
                                let secondMoveUserPokemon :=
                                  pokemonAt h secondMoveUser
                                    (activeIndexAt h secondMoveUser) in
                                let secondMoveTargetPokemon :=
                                  pokemonAt h secondMoveTarget
                                    (activeIndexAt h secondMoveTarget) in
                                let secondMatchup :=
                                  calcSmogonMatchup
                                    (formatOrAt h format currentBattleState)
                                    (state_gameType stateContents)
                                    (snd <$> secondMoveUserPokemon)
                                    (snd <$> secondMoveTargetPokemon)
                                    (MoveOrderInfo.secondMove moveOrder)
                                    secondMoveUserContents secondMoveTargetContents
                                    [secondMoveUserContents; secondMoveTargetContents]
                                    (state_field stateContents) in
                                let format2 :=
                                  Some (formatOrAt h format currentBattleState) in
                                let '(secondMoveResult, h) :=
                                  applyMoveEffects h currentBattleState
                                    (MoveOrderInfo.secondPlayerKey moveOrder)
                                    (MoveOrderInfo.firstPlayerKey moveOrder)
                                    (MoveOrderInfo.secondMove moveOrder)
                                    secondMatchup format2 in
                                let currentBattleState :=
                                  effect_battleState secondMoveResult in
                                let moveResults :=
                                  moveResults ++
                                  [ {| move_pokemon := fst <$> secondMoveUserPokemon;
                                       move_move := MoveOrderInfo.secondMove moveOrder;
                                       move_playerKey :=
                                         MoveOrderInfo.secondPlayerKey moveOrder;
                                       move_damageRange :=
                                         secondMatchup ≫= CalcdexMatchupResult.damageRange;
                                       move_damagePercent :=
                                         secondMatchup ≫= CalcdexMatchupResult.description;
                                       move_koChance :=
                                         secondMatchup ≫= CalcdexMatchupResult.koChance;
                                       move_movesFirst := false;
                                       move_priority :=
                                         MoveOrderInfo.secondPriority moveOrder;
                                       move_effectiveSpeed :=
                                         MoveOrderInfo.secondSpeed moveOrder |} ] in
                                let errors :=
                                  pushErrors errors (effect_errors secondMoveResult) in
                                (Returns {| turn_battleState := currentBattleState;
                                            turn_moveResults := moveResults;
                                            turn_errors := reportErrors errors |}, h)
                            | _, _ => (Throws, h)
                            end
                        | _, _, _ => (Throws, h)
                        end
                  | _, _ => (Throws, h)
                  end
              | _, _ => (Throws, h)
              end
          | _, _, _ => (Throws, h)
          end
      | _, _ =>
          (Returns {| turn_battleState := currentBattleState;
                      turn_moveResults := [];
                      turn_errors := Some ["No active Pokemon"] |}, h)
      end
  | _, _ =>
      (Returns {| turn_battleState := currentBattleState;
                  turn_moveResults := [];
                  turn_errors := Some ["Invalid player keys"] |}, h)
  end.

End Engine.

End Store.


(** * Observers and predicates *)

(** ** Observing a snapshot *)

(** The combatant a side has in play: [player.pokemon?.[activeIndex]]. *)
Definition activePokemon (bs : CalcdexBattleState.t) (k : CalcdexPlayerKey)
  : option CalcdexPokemon.t :=
  getPlayer bs k ≫= (λ player, pokemonAt player (activeIndex player)).

(** [pokemon.hp ?? 100] and [pokemon.maxhp ?? 100], the health values the
    effect code works with. *)
Definition healthOf (pokemon : CalcdexPokemon.t) : Z :=
  default 100 (CalcdexPokemon.hp pokemon).

Definition maxHealthOf (pokemon : CalcdexPokemon.t) : Z :=
  default 100 (CalcdexPokemon.maxhp pokemon).

(** ** Reading an order decision *)

(** The order decision [o] has the side with key [key] act first: its key,
    move, priority and speed fill the [first*] properties, those of the
    other side the [second*] properties. *)
Definition acts_first (o : MoveOrderInfo.t)
    (key other : CalcdexPlayerKey) (move otherMove : MoveName)
    (priority otherPriority speed otherSpeed : Z) : Prop :=
  MoveOrderInfo.firstPlayerKey o = key ∧ MoveOrderInfo.secondPlayerKey o = other ∧
  MoveOrderInfo.firstMove o = move ∧ MoveOrderInfo.secondMove o = otherMove ∧
  MoveOrderInfo.firstPriority o = priority ∧
  MoveOrderInfo.secondPriority o = otherPriority ∧
  MoveOrderInfo.firstSpeed o = speed ∧ MoveOrderInfo.secondSpeed o = otherSpeed.


(** ** Sides survive an application *)

(** Every side present in [bs] is still present in [bs']. *)
Definition sides_kept (bs bs' : CalcdexBattleState.t) : Prop :=
  ∀ k, is_Some (getPlayer bs k) → is_Some (getPlayer bs' k).

(** ** Advancing a session *)

(** A selection that [advanceTurn] counts as made. *)
Definition selected (m : option MoveName) (name : MoveName) : Prop :=
  m = Some name ∧ name ≠ "".

(** ** Apart from the caller's objects *)

Section Apart.

(** The references in use before a call: the caller's objects. *)
Variable D : gset Store.loc.

(** An array, a player, a state that shares no object with the caller:
    neither the object itself nor anything it refers to is in [D]. *)
Definition array_apart (h : Store.store) (a : Store.loc) : Prop :=
  (a ∉ D) ∧
  (∀ items, h !! a = Some (Store.OArray items) → ∀ l, l ∈ items → l ∉ D).

Definition player_apart (h : Store.store) (player : Store.loc) : Prop :=
  (player ∉ D) ∧
  (∀ p a, h !! player = Some (Store.OPlayer p) →
          Store.player_pokemon p = Some a → array_apart h a).

Definition state_apart (h : Store.store) (battleState : Store.loc) : Prop :=
  (battleState ∉ D) ∧
  (∀ s k player, h !! battleState = Some (Store.OState s) →
                 Store.playerRef s k = Some player → player_apart h player).

(** An object whose references all lead apart from the caller's objects. *)
Definition object_apart (h : Store.store) (o : Store.object) : Prop :=
  match o with
  | Store.OPokemon _ => True
  | Store.OArray items => ∀ l, l ∈ items → l ∉ D
  | Store.OPlayer p =>
      ∀ a, Store.player_pokemon p = Some a → array_apart h a
  | Store.OState s =>
      ∀ k player, Store.playerRef s k = Some player → player_apart h player
  end.

(** One step of the engine from store [h] to store [h']: nothing of the
    caller's is touched, and what was apart stays apart. *)
Record keeps (h h' : Store.store) : Prop := {
  keeps_dom : dom h ⊆ dom h';
  keeps_caller : ∀ l, l ∈ D → h' !! l = h !! l;
  keeps_array : ∀ a, array_apart h a → array_apart h' a;
  keeps_player : ∀ player, player_apart h player → player_apart h' player;
  keeps_state : ∀ battleState, state_apart h battleState → state_apart h' battleState;
}.

(** What a block of [applyMoveEffects] leaves behind is a step away from
    the store [h] it started in; a block that returns hands back
    [newBattleState]. *)
Definition flow_keeps (newBattleState : Store.loc) (h : Store.store)
    (f : Store.flow) : Prop :=
  match f with
  | Store.Return r h' =>
      keeps h h' ∧ Store.effect_battleState r = newBattleState
  | Store.Continue w => keeps h w.1
  end.

(** What a completed turn hands back: a snapshot apart from the caller's
    objects, and move results that refer to no object of the caller. *)
Definition turn_apart (h : Store.store) (c : completion Store.TurnResult)
  : Prop :=
  match c with
  | Returns t =>
      state_apart h (Store.turn_battleState t) ∧
      Forall (λ m, ∀ l, Store.move_pokemon m = Some l → l ∉ D)
             (Store.turn_moveResults t)
  | Throws => True
  end.

End Apart.

(** ** The store and the snapshot it holds *)

(** The players of two different keys are different objects with different
    arrays: a write through one is not seen through the other. *)
Definition separated (h : Store.store) (battleState : Store.loc) : Prop :=
  ∀ s k1 k2 player1 player2,
    Store.readState h battleState = Some s → k1 ≠ k2 →
    Store.playerRef s k1 = Some player1 →
    Store.playerRef s k2 = Some player2 →
    player1 ≠ player2 ∧
    ∀ o1 o2 a, Store.readPlayer h player1 = Some o1 →
               Store.readPlayer h player2 = Some o2 →
               Store.player_pokemon o1 = Some a →
               Store.player_pokemon o2 ≠ Some a.

(** The player object made by [clonePlayer], and its array, are born
    between [h] and [h']. *)
Definition born (h h' : Store.store) (player : Store.loc) : Prop :=
  (player ∉ dom h) ∧ (player ∈ dom h') ∧
  ∀ o a, Store.readPlayer h' player = Some o →
         Store.player_pokemon o = Some a → (a ∉ dom h) ∧ (a ∈ dom h').

(** From [h] to [h'] no state, player or Pokemon object was written; only
    arrays were. *)
Definition settled (h h' : Store.store) : Prop :=
  (∀ x s, Store.readState h x = Some s → Store.readState h' x = Some s) ∧
  (∀ x o, Store.readPlayer h x = Some o → Store.readPlayer h' x = Some o) ∧
  (∀ x v, Store.readPokemon h x = Some v → Store.readPokemon h' x = Some v).

(** The store holds the snapshot [bs] at [battleState], one player object
    per key. *)
Definition reads (h : Store.store) (battleState : Store.loc)
    (bs : CalcdexBattleState.t) : Prop :=
  Store.snapshot h battleState = Some bs ∧ separated h battleState.

(** A result over the store and a result over snapshots say the same. *)
Definition effect_refines (h : Store.store) (r : Store.EffectResult)
    (r0 : MoveEffectApplicationResult.t) : Prop :=
  reads h (Store.effect_battleState r)
    (MoveEffectApplicationResult.battleState r0) ∧
  Store.effect_targetFainted r = MoveEffectApplicationResult.targetFainted r0 ∧
  Store.effect_userFainted r = MoveEffectApplicationResult.userFainted r0 ∧
  Store.effect_description r = MoveEffectApplicationResult.description r0 ∧
  Store.effect_errors r = MoveEffectApplicationResult.errors r0.

(** A block over the store and the same block over snapshots take the
    same exit and leave the same snapshot behind. *)
Definition flow_refines (newBattleState : Store.loc) (h : Store.store)
    (f : Store.flow) (f0 : flow) : Prop :=
  match f, f0 with
  | Store.Return r h', Return r0 =>
      effect_refines h' r r0 ∧
      Store.effect_battleState r = newBattleState ∧ settled h h'
  | Store.Continue (h', parts), Continue (bs, parts0) =>
      reads h' newBattleState bs ∧ parts = parts0 ∧ settled h h'
  | _, _ => False
  end.

(** A move result over the store names the Pokemon object whose contents
    the move result over snapshots holds. *)
Definition move_refines (h : Store.store) (m : Store.MoveResult)
    (m0 : PlayAheadMoveResult.t) : Prop :=
  Store.move_pokemon m ≫= Store.readPokemon h = PlayAheadMoveResult.pokemon m0 ∧
  Store.move_move m = PlayAheadMoveResult.move m0 ∧
  Store.move_playerKey m = PlayAheadMoveResult.playerKey m0 ∧
  Store.move_damageRange m = PlayAheadMoveResult.damageRange m0 ∧
  Store.move_damagePercent m = PlayAheadMoveResult.damagePercent m0 ∧
  Store.move_koChance m = PlayAheadMoveResult.koChance m0 ∧
  Store.move_movesFirst m = PlayAheadMoveResult.movesFirst m0 ∧
  Store.move_priority m = PlayAheadMoveResult.priority m0 ∧
  Store.move_effectiveSpeed m = PlayAheadMoveResult.effectiveSpeed m0.

(** Two turns end alike: both throw, or both return, with the same
    snapshot, move results and errors. *)
Definition turn_refines (h : Store.store) (c : completion Store.TurnResult)
    (c0 : completion TurnSimulationResult.t) : Prop :=
  match c, c0 with
  | Returns t, Returns t0 =>
      reads h (Store.turn_battleState t) (TurnSimulationResult.battleState t0) ∧
      Forall2 (move_refines h) (Store.turn_moveResults t)
        (TurnSimulationResult.moveResults t0) ∧
      Store.turn_errors t = TurnSimulationResult.errors t0
  | Throws, Throws => True
  | _, _ => False
  end.

(** ** Reading the reason of an order decision *)

(** What the numbers recorded in an order decision must show for its
    [reason] to be the right one, [isTrickRoom] being the field's flag. *)
Definition reason_shown (o : MoveOrderInfo.t) (isTrickRoom : bool) : Prop :=
  match MoveOrderInfo.reason o with
  | reason_priority =>
      MoveOrderInfo.secondPriority o < MoveOrderInfo.firstPriority o
  | reason_speed =>
      MoveOrderInfo.firstPriority o = MoveOrderInfo.secondPriority o ∧
      MoveOrderInfo.secondSpeed o < MoveOrderInfo.firstSpeed o ∧
      isTrickRoom = false
  | reason_trick_room =>
      MoveOrderInfo.firstPriority o = MoveOrderInfo.secondPriority o ∧
      MoveOrderInfo.firstSpeed o < MoveOrderInfo.secondSpeed o ∧
      isTrickRoom = true
  | reason_random =>
      MoveOrderInfo.firstPriority o = MoveOrderInfo.secondPriority o ∧
      MoveOrderInfo.firstSpeed o = MoveOrderInfo.secondSpeed o
  end.
(** ** What an application may change *)

(** The health values [applyMoveEffects] writes for a combatant read as
    [old]: a loss [Math.max(0, hp - d)] for an amount [d > 0], or a gain
    [Math.min(maxhp, hp + a)] for an amount [a > 0]. *)
Inductive written (old : CalcdexPokemon.t) : Z → Prop :=
| written_loss d : 0 < d → written old (Z.max 0 (healthOf old - d))
| written_gain a :
    0 < a → written old (Z.min (maxHealthOf old) (healthOf old + a)).

(** [new] is [old], or [old] with a new health: the object the code
    builds with [{ ...old, hp: n, dirtyHp: n }]. *)
Definition same_but_health (old new : CalcdexPokemon.t) : Prop :=
  new = old ∨ ∃ n, new = withHp old n.

(** The side [player'] is the side [player] up to the health of its
    combatant in play: same indices, a team of the same size, every slot
    the same Pokemon up to health, and every slot but the active one
    untouched. *)
Definition player_health_only (player player' : CalcdexPlayer.t) : Prop :=
  CalcdexPlayer.activeIndices player' = CalcdexPlayer.activeIndices player ∧
  CalcdexPlayer.selectionIndex player' = CalcdexPlayer.selectionIndex player ∧
  match CalcdexPlayer.pokemon player, CalcdexPlayer.pokemon player' with
  | None, None => True
  | Some xs, Some xs' =>
      length xs' = length xs ∧
      ∀ (i : nat) old, xs !! i = Some old →
        ∃ new, xs' !! i = Some new ∧ same_but_health old new ∧
               (Z.of_nat i ≠ activeIndex player → new = old)
  | _, _ => False
  end.

(** The snapshot [bs'] is the snapshot [bs] up to the health of the
    combatants in play. *)
Definition health_only (bs bs' : CalcdexBattleState.t) : Prop :=
  CalcdexBattleState.format bs' = CalcdexBattleState.format bs ∧
  CalcdexBattleState.gameType bs' = CalcdexBattleState.gameType bs ∧
  CalcdexBattleState.field bs' = CalcdexBattleState.field bs ∧
  ∀ k, match getPlayer bs k, getPlayer bs' k with
       | None, None => True
       | Some player, Some player' => player_health_only player player'
       | _, _ => False
       end.

(** Health between zero and the maximum, as the effect code reads them. *)
Definition healthy (pokemon : CalcdexPokemon.t) : Prop :=
  0 ≤ healthOf pokemon ≤ maxHealthOf pokemon.

Definition all_healthy (bs : CalcdexBattleState.t) : Prop :=
  ∀ k player xs,
    getPlayer bs k = Some player → CalcdexPlayer.pokemon player = Some xs →
    Forall healthy xs.

(** ** Sessions of the store *)

(** The battle ids an action names. *)
Definition targets (action : PlayAheadAction) : list string :=
  match action with
  | InitSimulationAction battleId _ | SetPlayerMoveAction battleId _
  | SetOpponentMoveAction battleId _ | UpdateSimulatedStateAction battleId _ _
  | AddPendingDecisionAction battleId _ | ResolvePendingDecisionAction battleId _
  | AdvanceTurnAction battleId | ResetSimulationAction battleId => [battleId]
  | DestroyAction payload => destroyIds payload
  end.

(** The actions that work on a session that must be there and active. *)
Definition on_session (action : PlayAheadAction) : bool :=
  match action with
  | InitSimulationAction _ _ | ResetSimulationAction _ | DestroyAction _ => false
  | _ => true
  end.

(** The state of the store after the actions of a list, dispatched in
    order from the initial state. *)
Definition reached (actions : list PlayAheadAction) : PlayAheadSliceState :=
  foldl playAheadReducer initialState actions.

(** The history [entries] of a session that has advanced [turns] times:
    turn numbers from 1 to [turns], strictly rising. *)
Definition history_in_order (turns : Z) (entries : list TurnHistoryEntry.t)
  : Prop :=
  (∀ i entry, entries !! i = Some entry →
     1 ≤ TurnHistoryEntry.turn entry ≤ turns) ∧
  (∀ i j older newer,
     entries !! i = Some older → entries !! j = Some newer → (i < j)%nat →
     TurnHistoryEntry.turn older < TurnHistoryEntry.turn newer).

(** There is no session for [battleId] that an action could work on: the
    id is empty, the store has no session under it, or the session is not
    active. *)
Definition no_active_session (state : PlayAheadSliceState) (battleId : string)
  : Prop :=
  battleId = "" ∨ state !! battleId = None ∨
  PlayAheadState.active <$> state !! battleId = Some false.

(** What every session of a reachable store satisfies. *)
Definition session_invariant (battleId : string) (s : PlayAheadState.t) : Prop :=
  battleId ≠ "" ∧
  PlayAheadState.battleId s = Some battleId ∧
  PlayAheadState.active s = true ∧
  PlayAheadState.errors s = Some [] ∧
  is_Some (PlayAheadState.simulatedBattleState s) ∧
  is_Some (PlayAheadState.turnResults s) ∧
  0 ≤ PlayAheadState.simulatedTurns s ∧
  ∃ entries,
    PlayAheadState.turnHistory s = Some entries ∧
    history_in_order (PlayAheadState.simulatedTurns s) entries.

(** ** Worked scenarios *)

Module Samples.

(** A small dex: a priority move, two plain attacks, a recoil move and a
    drain move. *)
Definition dex (format : option FormatArg) (move : MoveName) : option DexMove.t :=
  if String.eqb move "Quick Attack" then
    Some (DexMove.mk (Some 1) Physical None None)
  else if String.eqb move "Earthquake" then
    Some (DexMove.mk (Some 0) Physical None None)
  else if String.eqb move "Ice Beam" then
    Some (DexMove.mk None Special None None)
  else if String.eqb move "Brave Bird" then
    Some (DexMove.mk (Some 0) Physical (Some (1, 3%positive)) None)
  else if String.eqb move "Giga Drain" then
    Some (DexMove.mk (Some 0) Special None (Some (1, 2%positive)))
  else None.

(** Effective speeds by species. *)
Definition speeds
    (format : FormatArg) (pokemon opponent : CalcdexPokemon.t)
    (player opponentPlayer : option CalcdexPlayer.t)
    (field : option CalcdexBattleField.t)
    (allPlayers : option (list CalcdexPlayer.t)) : option Z :=
  let species := CalcdexPokemon.speciesForme pokemon in
  if String.eqb species "Garchomp" then Some 328
  else if String.eqb species "Landorus-Therian" then Some 299
  else if String.eqb species "Talonflame" then Some 250
  else if String.eqb species "Regieleki" then Some 400
  else None.

Definition gen9ou : FormatArg := FormatString "gen9ou".

Definition pokemon (species : string) (key : CalcdexPlayerKey) (hp maxhp : Z)
  : CalcdexPokemon.t :=
  CalcdexPokemon.mk species (Some key) (Some hp) (Some maxhp) None.

Definition side (active : CalcdexPokemon.t) : CalcdexPlayer.t :=
  CalcdexPlayer.mk (Some [0]) None (Some [active]).

Definition battle (user target : CalcdexPokemon.t) (trickRoom : bool)
  : CalcdexBattleState.t :=
  CalcdexBattleState.mk "gen9ou" "Singles"
    (CalcdexBattleField.mk (Some trickRoom))
    (Some (side user)) (Some (side target)) None None.

Definition dealing (low high : Z) : option CalcdexMatchupResult.t :=
  Some (CalcdexMatchupResult.mk (Some (DamagePair low high)) None None).

Definition trickRoom : option CalcdexBattleField.t :=
  Some (CalcdexBattleField.mk (Some true)).

Definition plainField : option CalcdexBattleField.t :=
  Some (CalcdexBattleField.mk None).

(** The calculator's answer, by move. *)
Definition matchup
    (format : FormatArg) (gameType : string)
    (attacker defender : option CalcdexPokemon.t) (move : MoveName)
    (attackerSide defenderSide : CalcdexPlayer.t)
    (allPlayers : list CalcdexPlayer.t) (field : CalcdexBattleField.t)
  : option CalcdexMatchupResult.t :=
  if String.eqb move "Earthquake" then dealing 85 90
  else if String.eqb move "Ice Beam" then dealing 40 44
  else if String.eqb move "Brave Bird" then dealing 100 110
  else None.

Definition battleId : string := "battle-gen9ou-123".

Definition moveResult (move : MoveName) (key : CalcdexPlayerKey) (first : bool)
  : PlayAheadMoveResult.t :=
  PlayAheadMoveResult.mk None move key (Some (DamagePair 85 90)) None None
    first 0 328.

End Samples.

(** *** Sessions *)

(** A session right after [initSimulation]: no move selected, no turn
    result, no pending decision. *)
Definition session_started : PlayAheadSliceState :=
  initSimulation ∅ Samples.battleId
    (Some (Samples.battle (Samples.pokemon "Garchomp" p1 100 100)
                          (Samples.pokemon "Landorus-Therian" p2 100 100) false)).

(** The same session with both moves selected and a turn simulated. *)
Definition session_resolved : PlayAheadSliceState :=
  updateSimulatedState
    (setOpponentMove (setPlayerMove session_started Samples.battleId "Earthquake")
       Samples.battleId "Ice Beam")
    Samples.battleId
    (Samples.battle (Samples.pokemon "Garchomp" p1 58 100)
                    (Samples.pokemon "Landorus-Therian" p2 13 100) false)
    [Samples.moveResult "Earthquake" p1 true; Samples.moveResult "Ice Beam" p2 false].

Definition sample_decision : PlayAheadPendingDecision.t :=
  PlayAheadPendingDecision.mk random_effect p2 (Some "Ice Beam")
    "Does Ice Beam freeze the opponent? (10% chance)" None.

(** The session with both moves selected and no turn simulated yet. *)
Definition session_selected : PlayAheadSliceState :=
  setOpponentMove (setPlayerMove session_started Samples.battleId "Earthquake")
    Samples.battleId "Ice Beam".

(** One simulated turn, action by action. *)
Definition sample_actions : list PlayAheadAction :=
  [ InitSimulationAction Samples.battleId
      (Some (Samples.battle (Samples.pokemon "Garchomp" p1 100 100)
                            (Samples.pokemon "Landorus-Therian" p2 100 100) false));
    SetPlayerMoveAction Samples.battleId "Earthquake";
    SetOpponentMoveAction Samples.battleId "Ice Beam";
    UpdateSimulatedStateAction Samples.battleId
      (Samples.battle (Samples.pokemon "Garchomp" p1 58 100)
                      (Samples.pokemon "Landorus-Therian" p2 13 100) false)
      [Samples.moveResult "Earthquake" p1 true;
       Samples.moveResult "Ice Beam" p2 false];
    AdvanceTurnAction Samples.battleId ].

(** * Properties *)

(** ** Order resolution: priority, speed, Trick Room, speed ties *)

Section OrderResolver.

Variable dexMoves : option FormatArg → MoveName → option DexMove.t.
Variable calcPokemonFinalStats :
  FormatArg → CalcdexPokemon.t → CalcdexPokemon.t →
  option CalcdexPlayer.t → option CalcdexPlayer.t →
  option CalcdexBattleField.t → option (list CalcdexPlayer.t) → option Z.
Variable Math_random : Q.

Variable format : FormatArg.
Variables p1Pokemon p2Pokemon : CalcdexPokemon.t.
Variables p1Move p2Move : MoveName.
Variables p1Player p2Player : option CalcdexPlayer.t.
Variable field : option CalcdexBattleField.t.
Variable allPlayers : option (list CalcdexPlayer.t).

(** The quantities the resolver compares, named as in the source. *)
Let p1Priority := default 0 (dexMoves (Some format) p1Move ≫= DexMove.priority).
Let p2Priority := default 0 (dexMoves (Some format) p2Move ≫= DexMove.priority).
Let p1Speed :=
  default 0 (calcPokemonFinalStats format p1Pokemon p2Pokemon
               p1Player p2Player field allPlayers).
Let p2Speed :=
  default 0 (calcPokemonFinalStats format p2Pokemon p1Pokemon
               p2Player p1Player field allPlayers).
Let p1Key := default p1 (CalcdexPokemon.playerKey p1Pokemon).
Let p2Key := default p2 (CalcdexPokemon.playerKey p2Pokemon).
Let isTrickRoom := default false (field ≫= CalcdexBattleField.isTrickRoom).
Let order :=
  determineMoveOrder dexMoves calcPokemonFinalStats Math_random format
    p1Pokemon p2Pokemon p1Move p2Move p1Player p2Player field allPlayers.

(** Side 1, resp. side 2, is recorded as acting first. *)
Let p1_first (o : MoveOrderInfo.t) : Prop :=
  acts_first o p1Key p2Key p1Move p2Move p1Priority p2Priority p1Speed p2Speed.
Let p2_first (o : MoveOrderInfo.t) : Prop :=
  acts_first o p2Key p1Key p2Move p1Move p2Priority p1Priority p2Speed p1Speed.

(** C3.  When the two priority brackets differ (a move without priority
    metadata counting as priority 0), the side with the higher priority is
    ordered first whatever the two effective speeds are, the reason is
    'priority', and both priorities and both speeds are recorded. *)
Theorem determineMoveOrder_priority :
  p1Priority ≠ p2Priority →
  MoveOrderInfo.reason order = reason_priority ∧
  MoveOrderInfo.secondPriority order < MoveOrderInfo.firstPriority order ∧
  (p2Priority < p1Priority → p1_first order) ∧
  (p1Priority < p2Priority → p2_first order).
Proof.
  intros Hne.
  unfold order, determineMoveOrder, p1_first, p2_first, acts_first.
  fold p1Priority p2Priority p1Speed p2Speed p1Key p2Key.
  destruct (Z.eqb_spec p1Priority p2Priority) as [|_]; [done|]. cbn.
  destruct (Z.ltb_spec p2Priority p1Priority).
  - repeat split; try lia.
  - repeat split; try lia.
Qed.

(** C4.  With equal priorities and unequal effective speeds, the faster
    side is ordered first with reason 'speed' when Trick Room is not
    active, and the slower side is ordered first with reason 'trick-room'
    (the tag this code uses for the reversed field) when it is. *)
Theorem determineMoveOrder_speed :
  p1Priority = p2Priority →
  p1Speed ≠ p2Speed →
  if isTrickRoom then
    MoveOrderInfo.reason order = reason_trick_room ∧
    (p1Speed < p2Speed → p1_first order) ∧
    (p2Speed < p1Speed → p2_first order)
  else
    MoveOrderInfo.reason order = reason_speed ∧
    (p2Speed < p1Speed → p1_first order) ∧
    (p1Speed < p2Speed → p2_first order).
Proof.
  intros Hprio Hspeed.
  unfold order, determineMoveOrder, p1_first, p2_first, acts_first.
  fold p1Priority p2Priority p1Speed p2Speed p1Key p2Key isTrickRoom.
  rewrite <- Hprio, Z.eqb_refl. cbn.
  destruct (Z.eqb_spec p1Speed p2Speed) as [|_]; [done|].
  destruct isTrickRoom.
  - destruct (Z.ltb_spec p1Speed p2Speed); repeat split; (done || lia).
  - destruct (Z.ltb_spec p2Speed p1Speed); repeat split; (done || lia).
Qed.

(** C10.  With equal priorities and exactly equal effective speeds the
    order is the 50/50 draw, reason 'random': side 1 goes first exactly
    when [Math.random()] is below one half.  Nothing is assumed about the
    field, so this also holds while Trick Room is active. *)
Theorem determineMoveOrder_speed_tie :
  p1Priority = p2Priority →
  p1Speed = p2Speed →
  MoveOrderInfo.reason order = reason_random ∧
  ((Math_random < 1 # 2)%Q → p1_first order) ∧
  (¬ (Math_random < 1 # 2)%Q → p2_first order).
Proof.
  intros Hprio Hspeed.
  unfold order, determineMoveOrder, p1_first, p2_first, acts_first.
  fold p1Priority p2Priority p1Speed p2Speed p1Key p2Key isTrickRoom.
  rewrite <- Hprio, <- Hspeed, !Z.eqb_refl. cbn.
  destruct (Qlt_le_dec Math_random (1 # 2)) as [Hlt|Hle];
    (split; [reflexivity|split]); intros H.
  - by repeat split.
  - contradiction.
  - exfalso. eapply Qle_not_lt; eauto.
  - by repeat split.
Qed.

End OrderResolver.

Lemma healthOf_withHp pokemon newHp : healthOf (withHp pokemon newHp) = newHp.
Proof. reflexivity. Qed.

Lemma getPlayer_setPlayer bs k k' player :
  getPlayer (setPlayer bs k player) k' =
  if decide (k = k') then Some player else getPlayer bs k'.
Proof. destruct bs, k, k'; reflexivity. Qed.

Lemma at_index_Some {A} (xs : list A) i x :
  at_index xs i = Some x → 0 ≤ i ∧ xs !! Z.to_nat i = Some x.
Proof.
  unfold at_index. destruct (Z.ltb_spec i 0); [done|]. auto.
Qed.

Lemma at_index_set_index {A} (xs : list A) i x y :
  at_index xs i = Some x → at_index (set_index xs i y) i = Some y.
Proof.
  intros [Hi Hx]%at_index_Some. unfold at_index, set_index.
  destruct (Z.ltb_spec i 0); [lia|].
  apply list_lookup_insert_eq. by eapply lookup_lt_Some.
Qed.

Lemma pokemonAt_inv player i pokemon :
  pokemonAt player i = Some pokemon →
  ∃ xs, CalcdexPlayer.pokemon player = Some xs ∧ at_index xs i = Some pokemon.
Proof.
  unfold pokemonAt. destruct (CalcdexPlayer.pokemon player) as [xs|]; [|done].
  cbn. eauto.
Qed.

(** Writing the combatant in play and reading it back. *)
Lemma activePokemon_setPokemon_same bs k player old new :
  getPlayer bs k = Some player →
  pokemonAt player (activeIndex player) = Some old →
  activePokemon (setPokemon bs k (activeIndex player) new) k = Some new.
Proof.
  intros Hp Hold. destruct (pokemonAt_inv _ _ _ Hold) as (xs & Hxs & Hat).
  unfold activePokemon, setPokemon. rewrite Hp, Hxs, getPlayer_setPlayer.
  rewrite decide_True by done. cbn.
  unfold pokemonAt, activeIndex in *. cbn. by eapply at_index_set_index.
Qed.

(** A write on one side leaves the other sides as they were. *)
Lemma getPlayer_setPokemon_other bs k k' i new :
  k ≠ k' → getPlayer (setPokemon bs k i new) k' = getPlayer bs k'.
Proof.
  intros Hne. unfold setPokemon.
  destruct (getPlayer bs k) as [player|]; [|done].
  destruct (CalcdexPlayer.pokemon player); [|done].
  rewrite getPlayer_setPlayer. by rewrite decide_False.
Qed.

Lemma activePokemon_setPokemon_other bs k k' i new :
  k ≠ k' → activePokemon (setPokemon bs k i new) k' = activePokemon bs k'.
Proof.
  intros Hne. unfold activePokemon. by rewrite getPlayer_setPokemon_other.
Qed.

(** A write keeps every side present, with the same active index. *)
Lemma getPlayer_setPokemon bs k k' i new player :
  getPlayer bs k' = Some player →
  ∃ player', getPlayer (setPokemon bs k i new) k' = Some player' ∧
             activeIndex player' = activeIndex player ∧
             (k ≠ k' → player' = player).
Proof.
  intros Hp. destruct (decide (k = k')) as [->|Hne].
  - unfold setPokemon. rewrite Hp.
    destruct (CalcdexPlayer.pokemon player) eqn:Hxs.
    + rewrite getPlayer_setPlayer, decide_True by done.
      eexists. split; [reflexivity|]. split; [reflexivity|]. done.
    + eexists. split; [eassumption|]. done.
  - rewrite getPlayer_setPokemon_other by done.
    eexists. split; [eassumption|]. done.
Qed.


(** ** The effect pipeline: damage, recoil, drain *)

Section EffectPipeline.

Variable dexMoves : option FormatArg → MoveName → option DexMove.t.

Variable battleState : CalcdexBattleState.t.
Variables userPlayerKey targetPlayerKey : CalcdexPlayerKey.
Variable move : MoveName.
Variable matchupResult : option CalcdexMatchupResult.t.
Variable format : option FormatArg.

Variables userPlayer targetPlayer : CalcdexPlayer.t.
Variables userPokemon targetPokemon : CalcdexPokemon.t.
Variable dexMove : DexMove.t.

(** The call gets past its three error exits: both sides and both active
    combatants resolve, and the move is known to the dex. *)
Hypothesis user_side : getPlayer battleState userPlayerKey = Some userPlayer.
Hypothesis target_side : getPlayer battleState targetPlayerKey = Some targetPlayer.
Hypothesis user_active :
  pokemonAt userPlayer (activeIndex userPlayer) = Some userPokemon.
Hypothesis target_active :
  pokemonAt targetPlayer (activeIndex targetPlayer) = Some targetPokemon.
Hypothesis move_known : dexMoves format move = Some dexMove.

Let result :=
  applyMoveEffects dexMoves battleState userPlayerKey targetPlayerKey
    move matchupResult format.
Let userIndex := activeIndex userPlayer.
Let targetIndex := activeIndex targetPlayer.
Let used := [CalcdexPokemon.speciesForme userPokemon +:+ " used " +:+ move +:+ "!"].

Lemma applyMoveEffects_blocks :
  result =
  match damageBlock dexMove matchupResult targetPlayerKey targetIndex
          targetPokemon (battleState, used) with
  | Return r => r
  | Continue w =>
      match recoilBlock dexMove matchupResult userPlayerKey userIndex
              userPokemon w with
      | Return r => r
      | Continue w =>
          let '(newBattleState, descriptionParts) :=
            drainBlock dexMove matchupResult userPlayerKey userIndex
              userPokemon w in
          {| MoveEffectApplicationResult.battleState := newBattleState;
             MoveEffectApplicationResult.targetFainted := false;
             MoveEffectApplicationResult.userFainted := false;
             MoveEffectApplicationResult.description :=
               Some (String.concat " " descriptionParts);
             MoveEffectApplicationResult.errors := None |}
      end
  end.
Proof.
  unfold result, applyMoveEffects, cloneBattleState.
  by rewrite user_side, target_side, user_active, target_active, move_known.
Qed.

(** *** The damage block *)

Variable damageRange : DamageRange.
Hypothesis range_present :
  matchupResult ≫= CalcdexMatchupResult.damageRange = Some damageRange.
Hypothesis range_truthy : truthyDamageRange damageRange = true.

Let damage := damageOf damageRange.

Lemma presentDamageRange_eq : presentDamageRange matchupResult = Some damageRange.
Proof. unfold presentDamageRange. by rewrite range_present, range_truthy. Qed.

Lemma damageBlock_hit w :
  DexMove.category dexMove ≠ Status →
  0 < damage →
  damageBlock dexMove matchupResult targetPlayerKey targetIndex targetPokemon w =
  let newHp := Z.max 0 (healthOf targetPokemon - damage) in
  let newBattleState :=
    setPokemon w.1 targetPlayerKey targetIndex (withHp targetPokemon newHp) in
  let descriptionParts := w.2 ++ ["It dealt " +:+ pretty damage +:+ " damage."] in
  if newHp =? 0 then
    Return {|
      MoveEffectApplicationResult.battleState := newBattleState;
      MoveEffectApplicationResult.targetFainted := true;
      MoveEffectApplicationResult.userFainted := false;
      MoveEffectApplicationResult.description :=
        Some (String.concat " "
                (descriptionParts ++
                 [CalcdexPokemon.speciesForme targetPokemon +:+ " fainted!"]));
      MoveEffectApplicationResult.errors := None |}
  else Continue (newBattleState, descriptionParts).
Proof.
  intros Hcat Hpos. destruct w as [bs parts]. unfold damageBlock.
  rewrite bool_decide_true by done. rewrite presentDamageRange_eq.
  fold damage. destruct (Z.ltb_spec 0 damage); [|lia]. reflexivity.
Qed.

Lemma damageBlock_miss w :
  damage ≤ 0 →
  damageBlock dexMove matchupResult targetPlayerKey targetIndex targetPokemon w =
  Continue w.
Proof.
  intros Hle. destruct w as [bs parts]. unfold damageBlock.
  case_bool_decide; [|done]. rewrite presentDamageRange_eq.
  fold damage. destruct (Z.ltb_spec 0 damage); [lia|]. reflexivity.
Qed.

(** *** The recoil block *)


(** *** The drain block *)



(** *** What the recoil and drain blocks leave alone *)

(** Past the damage block nothing reports the target as fainted, and the
    only writes go to the user's side. *)
Lemma recoil_drain_target w :
  let r :=
    match recoilBlock dexMove matchupResult userPlayerKey userIndex
            userPokemon w with
    | Return r => r
    | Continue w =>
        let '(newBattleState, descriptionParts) :=
          drainBlock dexMove matchupResult userPlayerKey userIndex
            userPokemon w in
        {| MoveEffectApplicationResult.battleState := newBattleState;
           MoveEffectApplicationResult.targetFainted := false;
           MoveEffectApplicationResult.userFainted := false;
           MoveEffectApplicationResult.description :=
             Some (String.concat " " descriptionParts);
           MoveEffectApplicationResult.errors := None |}
    end in
  MoveEffectApplicationResult.targetFainted r = false ∧
  (userPlayerKey ≠ targetPlayerKey →
   activePokemon (MoveEffectApplicationResult.battleState r) targetPlayerKey =
   activePokemon w.1 targetPlayerKey).
Proof.
  destruct w as [bs parts]. unfold recoilBlock, drainBlock. cbn.
  repeat (case_match; simplify_eq/=); split; try done; intros Hne;
    by rewrite ?activePokemon_setPokemon_other.
Qed.

(** *** C5: the damage stage *)

(** C5.  For a damaging move with a damage range or scalar present, the
    applied damage is [floor((low + high) / 2)] (or the scalar), the
    target's health afterwards is [max(0, current health - damage)], and
    [targetFainted] is reported exactly when that health is 0.  The target
    starts in play (positive health), the range is not negative, and user
    and target are two different sides. *)
Theorem applyMoveEffects_damage :
  userPlayerKey ≠ targetPlayerKey →
  DexMove.category dexMove ≠ Status →
  0 < healthOf targetPokemon →
  let applied :=
    match damageRange with
    | DamagePair low high => (low + high) / 2
    | DamageScalar value => value
    end in
  0 ≤ applied →
  ∃ targetPokemon',
    activePokemon (MoveEffectApplicationResult.battleState result)
      targetPlayerKey = Some targetPokemon' ∧
    healthOf targetPokemon' = Z.max 0 (healthOf targetPokemon - applied) ∧
    (MoveEffectApplicationResult.targetFainted result = true ↔
     healthOf targetPokemon' = 0).
Proof.
  intros Hsides Hcat Hhealth applied Happlied.
  change applied with damage in *.
  rewrite applyMoveEffects_blocks.
  destruct (decide (damage = 0)) as [Hzero|Hpos].
  - rewrite damageBlock_miss by lia.
    destruct (recoil_drain_target (battleState, used)) as [-> Hframe].
    exists targetPokemon. rewrite Hframe by done. cbn.
    unfold activePokemon. rewrite target_side. cbn. split; [done|].
    split; lia.
  - rewrite damageBlock_hit by (done || lia). cbn zeta.
    destruct (Z.eqb_spec (Z.max 0 (healthOf targetPokemon - damage)) 0) as [Heq|Hne].
    + cbn. exists (withHp targetPokemon (Z.max 0 (healthOf targetPokemon - damage))).
      split; [by eapply activePokemon_setPokemon_same|].
      rewrite healthOf_withHp. done.
    + match goal with |- context [recoilBlock _ _ _ _ _ ?w] =>
        destruct (recoil_drain_target w) as [-> Hframe] end.
      exists (withHp targetPokemon (Z.max 0 (healthOf targetPokemon - damage))).
      rewrite Hframe by done. cbn.
      split; [by eapply activePokemon_setPokemon_same|].
      split; [done|]. split; [done|lia].
Qed.

(** *** Reading the user back after writes *)





(** *** C6: a knock-out by the damage stage ends the call *)

(** C6, as the code has it.  When the damage stage brings the target to
    zero health the call returns at once: [targetFainted] is true,
    [userFainted] is false, and the returned snapshot differs from the
    input only in the target's health.  No recoil is taken and no drain
    is received, whatever the move declares; on a two-sided call the user
    is exactly as before. *)
Theorem applyMoveEffects_knockout_skips_recoil_and_drain :
  DexMove.category dexMove ≠ Status →
  0 < damage →
  healthOf targetPokemon - damage ≤ 0 →
  MoveEffectApplicationResult.targetFainted result = true ∧
  MoveEffectApplicationResult.userFainted result = false ∧
  MoveEffectApplicationResult.battleState result =
    setPokemon battleState targetPlayerKey targetIndex (withHp targetPokemon 0) ∧
  (userPlayerKey ≠ targetPlayerKey →
   activePokemon (MoveEffectApplicationResult.battleState result)
     userPlayerKey = Some userPokemon).
Proof.
  intros Hcat Hpos Hko.
  rewrite applyMoveEffects_blocks, damageBlock_hit by done. cbn zeta.
  replace (Z.max 0 (healthOf targetPokemon - damage)) with 0 by lia.
  cbn. repeat split.
  intros Hsides. rewrite activePokemon_setPokemon_other by done.
  unfold activePokemon. by rewrite user_side.
Qed.

(** *** C7: recoil *)


(** *** C8: drain *)


End EffectPipeline.

Lemma sides_kept_refl bs : sides_kept bs bs.
Proof. by intros k. Qed.

Lemma sides_kept_trans bs1 bs2 bs3 :
  sides_kept bs1 bs2 → sides_kept bs2 bs3 → sides_kept bs1 bs3.
Proof. intros H12 H23 k Hk. by apply H23, H12. Qed.

Lemma sides_kept_setPokemon bs k i new : sides_kept bs (setPokemon bs k i new).
Proof.
  intros k' [player Hp].
  destruct (getPlayer_setPokemon bs k k' i new player Hp) as (player' & -> & _).
  by eexists.
Qed.

Create HintDb sides.
#[local] Hint Resolve sides_kept_refl sides_kept_setPokemon : sides.

Lemma sides_kept_step bs1 bs2 k i new :
  sides_kept bs1 bs2 → sides_kept bs1 (setPokemon bs2 k i new).
Proof. intros H. eapply sides_kept_trans; eauto with sides. Qed.

#[local] Hint Resolve sides_kept_step : sides.

Section SidesKept.

Variable dexMoves : option FormatArg → MoveName → option DexMove.t.

(** The snapshot [applyMoveEffects] returns has every side its input had. *)
Lemma applyMoveEffects_sides bs userKey targetKey move matchupResult format :
  sides_kept bs
    (MoveEffectApplicationResult.battleState
       (applyMoveEffects dexMoves bs userKey targetKey move matchupResult format)).
Proof.
  unfold applyMoveEffects, cloneBattleState, failed.
  repeat (case_match; simplify_eq/=); eauto with sides.
Qed.

End SidesKept.

(** ** Turn orchestration *)

Section TurnOrchestrator.

Variable dexMoves : option FormatArg → MoveName → option DexMove.t.
Variable calcPokemonFinalStats :
  FormatArg → CalcdexPokemon.t → CalcdexPokemon.t →
  option CalcdexPlayer.t → option CalcdexPlayer.t →
  option CalcdexBattleField.t → option (list CalcdexPlayer.t) → option Z.
Variable Math_random : Q.
Variable calcSmogonMatchup :
  FormatArg → string →
  option CalcdexPokemon.t → option CalcdexPokemon.t → MoveName →
  CalcdexPlayer.t → CalcdexPlayer.t → list CalcdexPlayer.t →
  CalcdexBattleField.t → option CalcdexMatchupResult.t.

Variable battleState : CalcdexBattleState.t.
Variables playerKey opponentKey : CalcdexPlayerKey.
Variables playerMove opponentMove : MoveName.
Variable format : option FormatArg.

Variables player opponent : CalcdexPlayer.t.
Variables playerPokemon opponentPokemon : CalcdexPokemon.t.

(** Both sides and their combatants in play resolve, so the turn gets to
    the order resolution. *)
Hypothesis player_side : getPlayer battleState playerKey = Some player.
Hypothesis opponent_side : getPlayer battleState opponentKey = Some opponent.
Hypothesis player_active :
  pokemonAt player (activeIndex player) = Some playerPokemon.
Hypothesis opponent_active :
  pokemonAt opponent (activeIndex opponent) = Some opponentPokemon.

Let moveOrder :=
  determineMoveOrder dexMoves calcPokemonFinalStats Math_random
    (formatOr format battleState)
    playerPokemon opponentPokemon playerMove opponentMove
    (Some player) (Some opponent)
    (Some (CalcdexBattleState.field battleState))
    (Some [player; opponent]).
Let firstKey := MoveOrderInfo.firstPlayerKey moveOrder.
Let secondKey := MoveOrderInfo.secondPlayerKey moveOrder.

Variables firstMoveUser firstMoveTarget : CalcdexPlayer.t.

(** The keys the order names are sides of the snapshot (they are the
    [playerKey] properties of the two combatants). *)
Hypothesis first_side : getPlayer battleState firstKey = Some firstMoveUser.
Hypothesis second_side : getPlayer battleState secondKey = Some firstMoveTarget.

(** The first application, as [simulateTurn] performs it. *)
Let firstMatchup :=
  calcSmogonMatchup (formatOr format battleState)
    (CalcdexBattleState.gameType battleState)
    (pokemonAt firstMoveUser (activeIndex firstMoveUser))
    (pokemonAt firstMoveTarget (activeIndex firstMoveTarget))
    (MoveOrderInfo.firstMove moveOrder)
    firstMoveUser firstMoveTarget [firstMoveUser; firstMoveTarget]
    (CalcdexBattleState.field battleState).
Let firstMoveResult :=
  applyMoveEffects dexMoves battleState firstKey secondKey
    (MoveOrderInfo.firstMove moveOrder) firstMatchup
    (Some (formatOr format battleState)).

(** C2.  If the first application reports the target or the user as
    fainted, the turn returns exactly one move result and the snapshot of
    the first application as it is: no second application takes place.
    Otherwise the turn holds exactly two move results and its snapshot is
    that of a second application, by the second side against the first,
    on the snapshot the first one returned. *)
Theorem simulateTurn_stops_after_faint :
  ∃ turn,
    simulateTurn dexMoves calcPokemonFinalStats Math_random calcSmogonMatchup
      battleState playerKey opponentKey playerMove opponentMove format
    = Returns turn ∧
    if MoveEffectApplicationResult.targetFainted firstMoveResult
       || MoveEffectApplicationResult.userFainted firstMoveResult
    then
      (∃ first,
         TurnSimulationResult.moveResults turn = [first] ∧
         PlayAheadMoveResult.movesFirst first = true ∧
         PlayAheadMoveResult.move first = MoveOrderInfo.firstMove moveOrder) ∧
      TurnSimulationResult.battleState turn =
        MoveEffectApplicationResult.battleState firstMoveResult
    else
      (∃ first second,
         TurnSimulationResult.moveResults turn = [first; second] ∧
         PlayAheadMoveResult.movesFirst first = true ∧
         PlayAheadMoveResult.move first = MoveOrderInfo.firstMove moveOrder ∧
         PlayAheadMoveResult.movesFirst second = false ∧
         PlayAheadMoveResult.move second = MoveOrderInfo.secondMove moveOrder) ∧
      ∃ secondMatchup,
        TurnSimulationResult.battleState turn =
          MoveEffectApplicationResult.battleState
            (applyMoveEffects dexMoves
               (MoveEffectApplicationResult.battleState firstMoveResult)
               secondKey firstKey (MoveOrderInfo.secondMove moveOrder)
               secondMatchup
               (Some (formatOr format
                        (MoveEffectApplicationResult.battleState firstMoveResult)))).
Proof.
  unfold simulateTurn, cloneBattleState.
  rewrite player_side, opponent_side, player_active, opponent_active.
  cbn zeta. fold moveOrder. fold firstKey secondKey.
  rewrite first_side, second_side. cbn zeta.
  fold firstMatchup. fold firstMoveResult.
  destruct (MoveEffectApplicationResult.targetFainted firstMoveResult).
  { eexists. split; [reflexivity|]. cbn. split; [|done]. eauto. }
  destruct (MoveEffectApplicationResult.userFainted firstMoveResult).
  { eexists. split; [reflexivity|]. cbn. split; [|done]. eauto. }
  destruct (applyMoveEffects_sides dexMoves battleState firstKey secondKey
              (MoveOrderInfo.firstMove moveOrder) firstMatchup
              (Some (formatOr format battleState)) secondKey)
    as [secondMoveUser Hsecond]; [by eexists|].
  destruct (applyMoveEffects_sides dexMoves battleState firstKey secondKey
              (MoveOrderInfo.firstMove moveOrder) firstMatchup
              (Some (formatOr format battleState)) firstKey)
    as [secondMoveTarget Hfirst]; [by eexists|].
  fold firstMoveResult in Hsecond, Hfirst.
  rewrite Hsecond, Hfirst.
  eexists. split; [reflexivity|]. cbn. split.
  - do 2 eexists. by repeat split.
  - by eexists.
Qed.

End TurnOrchestrator.

Lemma truthyString_true s : truthyString s = true ↔ s ≠ "".
Proof. destruct s; cbn; split; congruence. Qed.

Lemma truthyMove_selected m name : selected m name → truthyMove m = Some name.
Proof.
  intros [-> Hne]. cbn. by apply truthyString_true in Hne as ->.
Qed.

Lemma activeSession_Some state battleId s :
  battleId ≠ "" → state !! battleId = Some s → PlayAheadState.active s = true →
  activeSession state battleId = Some s.
Proof.
  intros Hid%truthyString_true Hs Hactive. unfold activeSession.
  by rewrite Hid, Hs, Hactive.
Qed.

Lemma activeSession_None state battleId :
  battleId = "" ∨ state !! battleId = None ∨
  PlayAheadState.active <$> state !! battleId = Some false →
  activeSession state battleId = None.
Proof.
  unfold activeSession. intros [-> | [-> | Hinactive]].
  - done.
  - by destruct (truthyString battleId).
  - destruct (truthyString battleId); [|done].
    destruct (state !! battleId) as [s|]; [|done].
    cbn in Hinactive. destruct (PlayAheadState.active s); [done|done].
Qed.

(** C1, as the code has it.  [advanceTurn] is rejected, leaving the store
    as it was, for an empty battle id, an unknown battle or an inactive
    session.  On an active session with no pending decision it is accepted,
    whether or not a turn result has been computed: the turn counter grows
    by exactly 1, both selections and the latest results are cleared, and
    the history gains exactly one entry (turn number, both moves, results)
    when both moves are selected, and stays as it was otherwise. *)
Theorem advanceTurn_accepted_when_active
    (state : PlayAheadSliceState) (battleId : string) :
  (battleId = "" ∨ state !! battleId = None ∨
   PlayAheadState.active <$> state !! battleId = Some false →
   advanceTurn state battleId = state) ∧
  (∀ s,
     battleId ≠ "" →
     state !! battleId = Some s →
     PlayAheadState.active s = true →
     PlayAheadState.pendingDecisions s = [] →
     ∃ s',
       advanceTurn state battleId = <[battleId := s']> state ∧
       PlayAheadState.simulatedTurns s' = PlayAheadState.simulatedTurns s + 1 ∧
       PlayAheadState.playerMove s' = None ∧
       PlayAheadState.opponentMove s' = None ∧
       PlayAheadState.turnResults s' = Some [] ∧
       PlayAheadState.pendingDecisions s' = [] ∧
       PlayAheadState.active s' = true ∧
       PlayAheadState.simulatedBattleState s' =
         PlayAheadState.simulatedBattleState s ∧
       (∀ playerMove opponentMove results,
          selected (PlayAheadState.playerMove s) playerMove →
          selected (PlayAheadState.opponentMove s) opponentMove →
          PlayAheadState.turnResults s = Some results →
          PlayAheadState.turnHistory s' =
            Some (default [] (PlayAheadState.turnHistory s) ++
                  [ {| TurnHistoryEntry.turn := PlayAheadState.simulatedTurns s + 1;
                       TurnHistoryEntry.playerMove := playerMove;
                       TurnHistoryEntry.opponentMove := opponentMove;
                       TurnHistoryEntry.results := results |} ])) ∧
       (truthyMove (PlayAheadState.playerMove s) = None ∨
        truthyMove (PlayAheadState.opponentMove s) = None ∨
        PlayAheadState.turnResults s = None →
        PlayAheadState.turnHistory s' = PlayAheadState.turnHistory s)).
Proof.
  split.
  - intros Hrejected. unfold advanceTurn.
    by rewrite activeSession_None.
  - intros s Hid Hs Hactive Hqueue. unfold advanceTurn.
    rewrite (activeSession_Some _ _ s) by done.
    eexists. split; [reflexivity|]. cbn.
    repeat split; try done.
    + intros playerMove opponentMove results Hp Ho Hr.
      by rewrite (truthyMove_selected _ _ Hp), (truthyMove_selected _ _ Ho), Hr.
    + intros [-> | [-> | ->]]; [done| |].
      * by destruct (truthyMove (PlayAheadState.playerMove s)).
      * by destruct (truthyMove (PlayAheadState.playerMove s)),
                    (truthyMove (PlayAheadState.opponentMove s)).
Qed.

(** The specification's priority scenario: a +1 move at speed 250 against
    a move at speed 400 whose metadata has no priority, which counts as 0. *)
Lemma determineMoveOrder_priority_witness :
  let order :=
    determineMoveOrder Samples.dex Samples.speeds (1 # 4) Samples.gen9ou
      (Samples.pokemon "Talonflame" p1 150 150)
      (Samples.pokemon "Regieleki" p2 100 100)
      "Quick Attack" "Ice Beam" None None Samples.plainField None in
  MoveOrderInfo.reason order = reason_priority ∧
  MoveOrderInfo.firstPlayerKey order = p1 ∧
  MoveOrderInfo.firstMove order = "Quick Attack" ∧
  MoveOrderInfo.firstPriority order = 1 ∧
  MoveOrderInfo.secondPriority order = 0 ∧
  MoveOrderInfo.firstSpeed order = 250 ∧
  MoveOrderInfo.secondSpeed order = 400.
Proof.
  intros order.
  destruct (determineMoveOrder_priority Samples.dex Samples.speeds (1 # 4)
              Samples.gen9ou
              (Samples.pokemon "Talonflame" p1 150 150)
              (Samples.pokemon "Regieleki" p2 100 100)
              "Quick Attack" "Ice Beam" None None Samples.plainField None)
    as (Hreason & _ & Hfirst & _); [vm_compute; discriminate|].
  destruct Hfirst as (Hkey & _ & Hmove & _ & Hprio & Hprio' & Hspeed & Hspeed');
    [vm_compute; reflexivity|].
  repeat split; assumption.
Defined.

(** The specification's speed scenario, 328 against 299 at equal priority,
    without and with Trick Room. *)
Lemma determineMoveOrder_speed_witness :
  let order field :=
    determineMoveOrder Samples.dex Samples.speeds (1 # 4) Samples.gen9ou
      (Samples.pokemon "Garchomp" p1 100 100)
      (Samples.pokemon "Landorus-Therian" p2 100 100)
      "Earthquake" "Ice Beam" None None field None in
  (MoveOrderInfo.reason (order Samples.plainField) = reason_speed ∧
   MoveOrderInfo.firstMove (order Samples.plainField) = "Earthquake") ∧
  (MoveOrderInfo.reason (order Samples.trickRoom) = reason_trick_room ∧
   MoveOrderInfo.firstMove (order Samples.trickRoom) = "Ice Beam").
Proof.
  intros order. split.
  - pose proof (determineMoveOrder_speed Samples.dex Samples.speeds (1 # 4)
                  Samples.gen9ou
                  (Samples.pokemon "Garchomp" p1 100 100)
                  (Samples.pokemon "Landorus-Therian" p2 100 100)
                  "Earthquake" "Ice Beam" None None Samples.plainField None
                  eq_refl ltac:(vm_compute; discriminate)) as H.
    cbn [Samples.plainField mbind option_bind default
         CalcdexBattleField.isTrickRoom] in H.
    destruct H as (Hreason & Hfirst & _). split; [exact Hreason|].
    apply Hfirst. vm_compute. reflexivity.
  - pose proof (determineMoveOrder_speed Samples.dex Samples.speeds (1 # 4)
                  Samples.gen9ou
                  (Samples.pokemon "Garchomp" p1 100 100)
                  (Samples.pokemon "Landorus-Therian" p2 100 100)
                  "Earthquake" "Ice Beam" None None Samples.trickRoom None
                  eq_refl ltac:(vm_compute; discriminate)) as H.
    cbn [Samples.trickRoom mbind option_bind default
         CalcdexBattleField.isTrickRoom] in H.
    destruct H as (Hreason & _ & Hfirst). split; [exact Hreason|].
    apply Hfirst. vm_compute. reflexivity.
Defined.

(** A speed tie under Trick Room, with a draw of one quarter. *)
Lemma determineMoveOrder_speed_tie_witness :
  let order :=
    determineMoveOrder Samples.dex Samples.speeds (1 # 4) Samples.gen9ou
      (Samples.pokemon "Garchomp" p1 100 100)
      (Samples.pokemon "Garchomp" p2 100 100)
      "Earthquake" "Ice Beam" None None Samples.trickRoom None in
  MoveOrderInfo.reason order = reason_random ∧
  MoveOrderInfo.firstPlayerKey order = p1 ∧
  MoveOrderInfo.firstMove order = "Earthquake".
Proof.
  intros order.
  destruct (determineMoveOrder_speed_tie Samples.dex Samples.speeds (1 # 4)
              Samples.gen9ou
              (Samples.pokemon "Garchomp" p1 100 100)
              (Samples.pokemon "Garchomp" p2 100 100)
              "Earthquake" "Ice Beam" None None Samples.trickRoom None
              eq_refl eq_refl)
    as (Hreason & Hfirst & _).
  destruct Hfirst as (Hkey & _ & Hmove & _); [reflexivity|].
  repeat split; assumption.
Defined.

(** Discharges, in order, the side conditions of an application to sample
    data: equations by computation, then disequalities and bounds. *)
Ltac sample_conditions :=
  first [ reflexivity
        | discriminate
        | (vm_compute; first [reflexivity | discriminate | lia]) ].

(** The specification's damage scenario: a target at 100/100 taking a
    midpoint of 87 ends at 13 and stays in play; taking 105 it ends at 0
    and is reported as fainted. *)
Lemma applyMoveEffects_damage_witness :
  let after low high :=
    applyMoveEffects Samples.dex
      (Samples.battle (Samples.pokemon "Garchomp" p1 100 100)
                      (Samples.pokemon "Landorus-Therian" p2 100 100) false)
      p1 p2 "Earthquake" (Samples.dealing low high) None in
  (healthOf <$> activePokemon
     (MoveEffectApplicationResult.battleState (after 85 90)) p2 = Some 13 ∧
   MoveEffectApplicationResult.targetFainted (after 85 90) = false) ∧
  (healthOf <$> activePokemon
     (MoveEffectApplicationResult.battleState (after 100 110)) p2 = Some 0 ∧
   MoveEffectApplicationResult.targetFainted (after 100 110) = true).
Proof.
  intros after. split.
  - edestruct (applyMoveEffects_damage Samples.dex
                 (Samples.battle (Samples.pokemon "Garchomp" p1 100 100)
                    (Samples.pokemon "Landorus-Therian" p2 100 100) false)
                 p1 p2 "Earthquake" (Samples.dealing 85 90) None)
      as (target' & Hactive & Hhealth & Hfainted); [sample_conditions..|].
    unfold after. rewrite Hactive. cbn [fmap option_fmap option_map].
    rewrite Hhealth. split; [reflexivity|].
    apply not_true_is_false. intros Htrue%Hfainted.
    rewrite Hhealth in Htrue. vm_compute in Htrue. discriminate.
  - edestruct (applyMoveEffects_damage Samples.dex
                 (Samples.battle (Samples.pokemon "Garchomp" p1 100 100)
                    (Samples.pokemon "Landorus-Therian" p2 100 100) false)
                 p1 p2 "Earthquake" (Samples.dealing 100 110) None)
      as (target' & Hactive & Hhealth & Hfainted); [sample_conditions..|].
    unfold after. rewrite Hactive. cbn [fmap option_fmap option_map].
    rewrite Hhealth. split; [reflexivity|].
    apply Hfainted. rewrite Hhealth. reflexivity.
Defined.

(** C6 as stated fails: a user at 150/150 knocks out a target at 100/100
    with a recoil-1/3 move dealing 105.  Recoil would cost
    [max(1, floor(105 / 3)) = 35] and leave 115; the returned snapshot has
    the user at 150 still. *)
Lemma applyMoveEffects_knockout_no_recoil :
  let result :=
    applyMoveEffects Samples.dex
      (Samples.battle (Samples.pokemon "Talonflame" p1 150 150)
                      (Samples.pokemon "Garchomp" p2 100 100) false)
      p1 p2 "Brave Bird" (Samples.dealing 100 110) None in
  Samples.dex None "Brave Bird" ≫= DexMove.recoil = Some (1, 3%positive) ∧
  MoveEffectApplicationResult.targetFainted result = true ∧
  healthOf <$> activePokemon
    (MoveEffectApplicationResult.battleState result) p1 = Some 150 ∧
  healthOf <$> activePokemon
    (MoveEffectApplicationResult.battleState result) p1
    ≠ Some (Z.max 0 (150 - Z.max 1 (105 * 1 / 3))).
Proof. vm_compute. repeat split; discriminate. Qed.

(** The same knock-out through the amended statement; a drain move that
    knocks out its target heals nothing either. *)
Lemma applyMoveEffects_knockout_witness :
  let recoiling :=
    applyMoveEffects Samples.dex
      (Samples.battle (Samples.pokemon "Talonflame" p1 150 150)
                      (Samples.pokemon "Garchomp" p2 100 100) false)
      p1 p2 "Brave Bird" (Samples.dealing 100 110) None in
  MoveEffectApplicationResult.targetFainted recoiling = true ∧
  MoveEffectApplicationResult.userFainted recoiling = false ∧
  activePokemon (MoveEffectApplicationResult.battleState recoiling) p1 =
    Some (Samples.pokemon "Talonflame" p1 150 150).
Proof.
  intros recoiling.
  edestruct (applyMoveEffects_knockout_skips_recoil_and_drain Samples.dex
               (Samples.battle (Samples.pokemon "Talonflame" p1 150 150)
                  (Samples.pokemon "Garchomp" p2 100 100) false)
               p1 p2 "Brave Bird" (Samples.dealing 100 110) None)
    as (Htarget & Huser & _ & Hsame); [sample_conditions..|].
  split; [exact Htarget|]. split; [exact Huser|]. apply Hsame. discriminate.
Defined.



(** A first move that knocks out its target ends the turn with one move
    result, the first actor's health untouched; a first move that leaves
    both sides in play is followed by the second. *)
Lemma simulateTurn_stops_after_faint_witness :
  let turn playerMove :=
    simulateTurn Samples.dex Samples.speeds (1 # 4) Samples.matchup
      (Samples.battle (Samples.pokemon "Garchomp" p1 100 100)
                      (Samples.pokemon "Landorus-Therian" p2 100 100) false)
      p1 p2 playerMove "Ice Beam" None in
  (∃ result,
     turn "Brave Bird" = Returns result ∧
     length (TurnSimulationResult.moveResults result) = 1%nat ∧
     healthOf <$> activePokemon (TurnSimulationResult.battleState result) p1
       = Some 100) ∧
  (∃ result,
     turn "Earthquake" = Returns result ∧
     length (TurnSimulationResult.moveResults result) = 2%nat).
Proof.
  intros turn. split.
  - edestruct (simulateTurn_stops_after_faint Samples.dex Samples.speeds (1 # 4)
                 Samples.matchup
                 (Samples.battle (Samples.pokemon "Garchomp" p1 100 100)
                    (Samples.pokemon "Landorus-Therian" p2 100 100) false)
                 p1 p2 "Brave Bird" "Ice Beam" None)
      as (result & Hreturns & Hshape); [sample_conditions..|].
    exists result. split; [exact Hreturns|].
    match type of Hshape with if ?faint then _ else _ =>
      replace faint with true in Hshape by (vm_compute; reflexivity) end.
    destruct Hshape as [(first & -> & _) ->].
    split; [reflexivity|]. vm_compute. reflexivity.
  - edestruct (simulateTurn_stops_after_faint Samples.dex Samples.speeds (1 # 4)
                 Samples.matchup
                 (Samples.battle (Samples.pokemon "Garchomp" p1 100 100)
                    (Samples.pokemon "Landorus-Therian" p2 100 100) false)
                 p1 p2 "Earthquake" "Ice Beam" None)
      as (result & Hreturns & Hshape); [sample_conditions..|].
    exists result. split; [exact Hreturns|].
    match type of Hshape with if ?faint then _ else _ =>
      replace faint with false in Hshape by (vm_compute; reflexivity) end.
    destruct Hshape as [(first & second & -> & _) _].
    reflexivity.
Defined.

(** C1 as stated fails: on a session that has not simulated a turn yet (no
    turn result, empty decision queue) [advanceTurn] is not rejected; the
    store changes and the turn counter goes from 0 to 1. *)
Lemma advanceTurn_without_turn_result :
  (PlayAheadState.turnResults <$> session_started !! Samples.battleId
     = Some (Some []) ∧
   PlayAheadState.pendingDecisions <$> session_started !! Samples.battleId
     = Some [] ∧
   PlayAheadState.simulatedTurns <$> session_started !! Samples.battleId
     = Some 0) ∧
  advanceTurn session_started Samples.battleId ≠ session_started ∧
  PlayAheadState.simulatedTurns <$>
    advanceTurn session_started Samples.battleId !! Samples.battleId = Some 1.
Proof.
  assert (PlayAheadState.simulatedTurns <$>
            advanceTurn session_started Samples.battleId !! Samples.battleId
          = Some 1) as Hafter by (vm_compute; reflexivity).
  assert (PlayAheadState.simulatedTurns <$>
            session_started !! Samples.battleId = Some 0) as Hbefore
    by (vm_compute; reflexivity).
  split; [|split; [|exact Hafter]].
  - split; [vm_compute; reflexivity|]. split; [vm_compute; reflexivity|].
    exact Hbefore.
  - intros Heq. rewrite Heq, Hbefore in Hafter. discriminate.
Qed.

(** With a decision pending, the reducer advances just the same: it never
    reads [pendingDecisions]. *)
Lemma advanceTurn_with_pending_decision :
  let paused :=
    addPendingDecision session_resolved Samples.battleId sample_decision in
  length <$> (PlayAheadState.pendingDecisions <$> paused !! Samples.battleId)
    = Some 1%nat ∧
  PlayAheadState.simulatedTurns <$>
    advanceTurn paused Samples.battleId !! Samples.battleId = Some 1.
Proof. vm_compute. split; reflexivity. Qed.

(** Advancing the resolved session: turn counter 1, selections cleared,
    one history entry for turn 1. *)
Lemma advanceTurn_accepted_when_active_witness :
  ∃ s',
    advanceTurn session_resolved Samples.battleId !! Samples.battleId = Some s' ∧
    PlayAheadState.simulatedTurns s' = 1 ∧
    PlayAheadState.playerMove s' = None ∧
    PlayAheadState.opponentMove s' = None ∧
    TurnHistoryEntry.turn <$> default [] (PlayAheadState.turnHistory s') = [1].
Proof.
  destruct (advanceTurn_accepted_when_active session_resolved Samples.battleId)
    as [_ Haccepted].
  edestruct Haccepted
    as (s' & Heq & Hturns & Hplayer & Hopponent & _ & _ & _ & _ & Hhistory & _);
    [sample_conditions..|].
  exists s'. rewrite Heq, lookup_insert_eq. split; [reflexivity|].
  split; [exact Hturns|]. split; [exact Hplayer|]. split; [exact Hopponent|].
  erewrite Hhistory; [reflexivity| | |reflexivity]; split;
    first [reflexivity | discriminate].
Defined.

(** ** The input snapshot is never written *)

Section Frame.

Variable D : gset Store.loc.

Lemma keeps_refl h : keeps D h h.
Proof. by split. Qed.

Lemma keeps_trans h1 h2 h3 : keeps D h1 h2 → keeps D h2 h3 → keeps D h1 h3.
Proof.
  intros [Hd1 Hc1 Ha1 Hp1 Hs1] [Hd2 Hc2 Ha2 Hp2 Hs2]. split.
  - by etrans.
  - intros l Hl. rewrite Hc2 by done. by apply Hc1.
  - auto.
  - auto.
  - auto.
Qed.

(** Storing an object that is apart, at a reference that is not the
    caller's, is a step. *)
Lemma array_apart_insert h l o a :
  object_apart D h o → array_apart D h a → array_apart D (<[l := o]> h) a.
Proof.
  intros Ho [Ha Hitems]. split; [done|]. intros items Hlook.
  destruct (decide (l = a)) as [->|Hne].
  - rewrite lookup_insert_eq in Hlook. simplify_eq. exact Ho.
  - rewrite lookup_insert_ne in Hlook by done. eauto.
Qed.

Lemma player_apart_insert h l o player :
  object_apart D h o → player_apart D h player → player_apart D (<[l := o]> h) player.
Proof.
  intros Ho [Hp Harray]. split; [done|]. intros p a Hlook Ha.
  apply array_apart_insert; [done|].
  destruct (decide (l = player)) as [->|Hne].
  - rewrite lookup_insert_eq in Hlook. simplify_eq. by apply Ho.
  - rewrite lookup_insert_ne in Hlook by done. eauto.
Qed.

Lemma state_apart_insert h l o battleState :
  object_apart D h o → state_apart D h battleState →
  state_apart D (<[l := o]> h) battleState.
Proof.
  intros Ho [Hs Hplayers]. split; [done|]. intros s k player Hlook Hk.
  apply player_apart_insert; [done|].
  destruct (decide (l = battleState)) as [->|Hne].
  - rewrite lookup_insert_eq in Hlook. simplify_eq. by eapply Ho.
  - rewrite lookup_insert_ne in Hlook by done. eauto.
Qed.

Lemma keeps_insert h l o :
  l ∉ D → object_apart D h o → keeps D h (<[l := o]> h).
Proof.
  intros Hl Ho. split.
  - rewrite dom_insert_L. set_solver.
  - intros l' Hl'. apply lookup_insert_ne. by intros ->.
  - intros a. by apply array_apart_insert.
  - intros player. by apply player_apart_insert.
  - intros battleState. by apply state_apart_insert.
Qed.

(** A new object: its reference is fresh, hence not the caller's. *)
Lemma alloc_keeps h o l h' :
  D ⊆ dom h → object_apart D h o → Store.alloc h o = (l, h') →
  keeps D h h' ∧ (l ∉ D) ∧ h' !! l = Some o.
Proof.
  intros Hcover Ho [= <- <-].
  assert (fresh (dom h) ∉ D) as Hfresh.
  { intros Hin. apply (is_fresh (dom h)). by apply Hcover. }
  split; [by apply keeps_insert|]. split; [done|]. apply lookup_insert_eq.
Qed.

Lemma keeps_cover h h' : keeps D h h' → D ⊆ dom h → D ⊆ dom h'.
Proof. intros [] ?. set_solver. Qed.

Lemma object_apart_nothing h : object_apart D h Store.nothing.
Proof. by intros l ?%elem_of_nil. Qed.

Lemma alloc_nothing_keeps h l h' :
  D ⊆ dom h → Store.alloc h Store.nothing = (l, h') →
  keeps D h h' ∧ (l ∉ D) ∧ h' !! l = Some Store.nothing.
Proof. intros Hcover. apply alloc_keeps; [done|apply object_apart_nothing]. Qed.


(** *** cloneBattleState makes a copy apart from the caller's objects *)

Lemma clonePokemon_keeps h l l' h' :
  D ⊆ dom h → Store.clonePokemon h l = (l', h') → keeps D h h' ∧ l' ∉ D.
Proof.
  intros Hcover. unfold Store.clonePokemon.
  destruct (h !! l) as [[| | |pokemon]|];
    try (intros (? & ? & _)%alloc_nothing_keeps; done).
  intros Halloc. by apply alloc_keeps in Halloc as (? & ? & _).
Qed.

Lemma cloneItems_keeps items : ∀ h items' h',
  D ⊆ dom h → Store.cloneItems h items = (items', h') →
  keeps D h h' ∧ ∀ l, l ∈ items' → l ∉ D.
Proof.
  induction items as [|l items IH]; intros h items' h' Hcover; cbn.
  - intros [= <- <-]. split; [apply keeps_refl|]. by intros l ?%elem_of_nil.
  - destruct (Store.clonePokemon h l) as [l1 h1] eqn:Hl.
    destruct (Store.cloneItems h1 items) as [items1 h2] eqn:Hitems.
    intros [= <- <-].
    apply clonePokemon_keeps in Hl as [Hk1 Hl1]; [|done].
    apply IH in Hitems as [Hk2 Hitems1]; [|by eapply keeps_cover].
    split; [by eapply keeps_trans|].
    intros x [->|Hx]%elem_of_cons; auto.
Qed.

Lemma cloneArray_keeps h a a' h' :
  D ⊆ dom h → Store.cloneArray h a = (a', h') →
  keeps D h h' ∧ array_apart D h' a'.
Proof.
  intros Hcover. unfold Store.cloneArray.
  destruct (h !! a) as [[| |items|]|];
    try (intros (Hk & Ha' & Hlook)%alloc_nothing_keeps; [|done];
         split; [done|]; split; [done|];
         intros items; rewrite Hlook; intros [= <-] l ?%elem_of_nil; done).
  destruct (Store.cloneItems h items) as [items1 h1] eqn:Hitems.
  apply cloneItems_keeps in Hitems as [Hk1 Hitems1]; [|done].
  intros Halloc. apply alloc_keeps in Halloc as (Hk2 & Ha' & Hlook);
    [|by eapply keeps_cover|done].
  split; [by eapply keeps_trans|]. split; [done|].
  intros items'. rewrite Hlook. by intros [= <-].
Qed.

Lemma clonePlayer_keeps h player player' h' :
  D ⊆ dom h → Store.clonePlayer h player = (player', h') →
  keeps D h h' ∧ player_apart D h' player'.
Proof.
  intros Hcover. unfold Store.clonePlayer.
  destruct (h !! player) as [[|p| |]|];
    try (intros (Hk & Hp' & Hlook)%alloc_nothing_keeps; [|done];
         split; [done|]; split; [done|];
         intros p' a; rewrite Hlook; intros [=]; done).
  destruct (Store.player_pokemon p) as [a|].
  - destruct (Store.cloneArray h a) as [a1 h1] eqn:Harray.
    apply cloneArray_keeps in Harray as [Hk1 Ha1]; [|done].
    intros Halloc. apply alloc_keeps in Halloc as (Hk2 & Hp' & Hlook);
      [|by eapply keeps_cover|by intros ? [= <-]].
    split; [by eapply keeps_trans|]. split; [done|].
    intros p' a'. rewrite Hlook. intros [= <-] [= <-].
    by apply (keeps_array _ _ _ Hk2).
  - intros Halloc. apply alloc_keeps in Halloc as (Hk & Hp' & Hlook);
      [|done|done].
    split; [done|]. split; [done|].
    intros p' a'. rewrite Hlook. by intros [= <-].
Qed.

Lemma cloneOptionalPlayer_keeps h player player' h' :
  D ⊆ dom h → Store.cloneOptionalPlayer h player = (player', h') →
  keeps D h h' ∧ ∀ l, player' = Some l → player_apart D h' l.
Proof.
  intros Hcover. unfold Store.cloneOptionalPlayer.
  destruct player as [player|].
  - destruct (Store.clonePlayer h player) as [l1 h1] eqn:Hplayer.
    apply clonePlayer_keeps in Hplayer as [Hk Hl1]; [|done].
    intros [= <- <-]. split; [done|]. by intros l [= <-].
  - intros [= <- <-]. split; [apply keeps_refl|done].
Qed.

Lemma cloneBattleState_keeps h battleState battleState' h' :
  D ⊆ dom h → Store.cloneBattleState h battleState = (battleState', h') →
  keeps D h h' ∧ state_apart D h' battleState'.
Proof.
  intros Hcover. unfold Store.cloneBattleState.
  destruct (h !! battleState) as [[s| | |]|];
    try (intros (Hk & Hs' & Hlook)%alloc_nothing_keeps; [|done];
         split; [done|]; split; [done|];
         intros s' k player; rewrite Hlook; intros [=]; done).
  destruct (Store.cloneOptionalPlayer h (Store.state_p1 s)) as [a h1] eqn:H1.
  destruct (Store.cloneOptionalPlayer h1 (Store.state_p2 s)) as [b h2] eqn:H2.
  destruct (Store.cloneOptionalPlayer h2 (Store.state_p3 s)) as [c h3] eqn:H3.
  destruct (Store.cloneOptionalPlayer h3 (Store.state_p4 s)) as [d h4] eqn:H4.
  apply cloneOptionalPlayer_keeps in H1 as [Hk1 Ha]; [|done].
  pose proof (keeps_cover _ _ Hk1 Hcover) as Hcover1.
  apply cloneOptionalPlayer_keeps in H2 as [Hk2 Hb]; [|done].
  pose proof (keeps_cover _ _ Hk2 Hcover1) as Hcover2.
  apply cloneOptionalPlayer_keeps in H3 as [Hk3 Hc]; [|done].
  pose proof (keeps_cover _ _ Hk3 Hcover2) as Hcover3.
  apply cloneOptionalPlayer_keeps in H4 as [Hk4 Hd]; [|done].
  pose proof (keeps_cover _ _ Hk4 Hcover3) as Hcover4.
  assert (∀ k player,
            Store.playerRef (Store.mkState (Store.state_format s)
                               (Store.state_gameType s) (Store.state_field s)
                               a b c d) k = Some player →
            player_apart D h4 player) as Hplayers.
  { intros [] player Hk; cbn in Hk.
    - apply (keeps_player _ _ _ Hk4), (keeps_player _ _ _ Hk3),
        (keeps_player _ _ _ Hk2). auto.
    - apply (keeps_player _ _ _ Hk4), (keeps_player _ _ _ Hk3). auto.
    - apply (keeps_player _ _ _ Hk4). auto.
    - auto. }
  intros Halloc. apply alloc_keeps in Halloc as (Hk5 & Hs' & Hlook);
    [|done|done].
  split.
  - eapply keeps_trans; [exact Hk1|]. eapply keeps_trans; [exact Hk2|].
    eapply keeps_trans; [exact Hk3|]. by eapply keeps_trans.
  - split; [done|]. intros s' k player. rewrite Hlook. intros [= <-] Hk.
    apply (keeps_player _ _ _ Hk5). by eapply Hplayers.
Qed.

End Frame.

(** *** The writes of applyMoveEffects land in its own copy *)

Section FrameEngine.

Variable D : gset Store.loc.

Variable dexMoves : option FormatArg → MoveName → option DexMove.t.
Variable calcPokemonFinalStats :
  FormatArg → CalcdexPokemon.t → CalcdexPokemon.t →
  option CalcdexPlayer.t → option CalcdexPlayer.t →
  option CalcdexBattleField.t → option (list CalcdexPlayer.t) → option Z.
Variable Math_random : Q.
Variable calcSmogonMatchup :
  FormatArg → string →
  option CalcdexPokemon.t → option CalcdexPokemon.t → MoveName →
  CalcdexPlayer.t → CalcdexPlayer.t → list CalcdexPlayer.t →
  CalcdexBattleField.t → option CalcdexMatchupResult.t.

Lemma writeItem_keeps h player index l :
  player_apart D h player → l ∉ D →
  keeps D h (Store.writeItem h player index l).
Proof.
  intros [Hplayer Harray] Hl. unfold Store.writeItem, Store.readPlayer, Store.readArray.
  destruct (h !! player) as [[|p| |]|] eqn:Hp; try apply keeps_refl. cbn.
  destruct (Store.player_pokemon p) as [a|] eqn:Ha; [|apply keeps_refl].
  destruct (Harray p a eq_refl Ha) as [Ha' Hitems].
  destruct (h !! a) as [[| |items|]|] eqn:Hlook; try apply keeps_refl.
  apply keeps_insert; [done|]. cbn. intros x Hx.
  unfold set_index in Hx. apply list_elem_of_lookup in Hx as [i Hi].
  destruct (decide (i = Z.to_nat index)) as [->|Hne].
  - destruct (decide (Z.to_nat index < length items)%nat).
    + rewrite list_lookup_insert_eq in Hi by done. by simplify_eq.
    + rewrite list_insert_ge in Hi by lia.
      eapply Hitems; [done|]. by eapply list_elem_of_lookup_2.
  - rewrite list_lookup_insert_ne in Hi by done.
    eapply Hitems; [done|]. by eapply list_elem_of_lookup_2.
Qed.

Lemma assignPokemon_keeps h player index pokemon :
  D ⊆ dom h → player_apart D h player →
  keeps D h (Store.assignPokemon h player index pokemon).
Proof.
  intros Hcover Hplayer. unfold Store.assignPokemon.
  destruct (Store.alloc h (Store.OPokemon pokemon)) as [l h1] eqn:Halloc.
  apply alloc_keeps with (D := D) in Halloc as (Hk & Hl & _); [|done|done].
  eapply keeps_trans; [exact Hk|].
  apply writeItem_keeps; [|done]. by apply (keeps_player _ _ _ Hk).
Qed.

Lemma damageBlock_keeps newBattleState dexMove matchupResult player index
    pokemon w :
  D ⊆ dom w.1 → player_apart D w.1 player →
  flow_keeps D newBattleState w.1
    (Store.damageBlock newBattleState dexMove matchupResult player index
       pokemon w).
Proof.
  destruct w as [h parts]. cbn [fst]. intros Hcover Hplayer.
  unfold Store.damageBlock.
  repeat case_match; cbn;
    lazymatch goal with |- _ ∧ _ => split | _ => idtac end;
    first [apply keeps_refl | by apply assignPokemon_keeps | done].
Qed.

Lemma recoilBlock_keeps newBattleState dexMove matchupResult player index
    pokemon w :
  D ⊆ dom w.1 → player_apart D w.1 player →
  flow_keeps D newBattleState w.1
    (Store.recoilBlock newBattleState dexMove matchupResult player index
       pokemon w).
Proof.
  destruct w as [h parts]. cbn [fst]. intros Hcover Hplayer.
  unfold Store.recoilBlock.
  repeat case_match; cbn;
    lazymatch goal with |- _ ∧ _ => split | _ => idtac end;
    first [apply keeps_refl | by apply assignPokemon_keeps | done].
Qed.

Lemma drainBlock_keeps dexMove matchupResult player index pokemon w :
  D ⊆ dom w.1 → player_apart D w.1 player →
  keeps D w.1
    (Store.drainBlock dexMove matchupResult player index pokemon w).1.
Proof.
  destruct w as [h parts]. cbn [fst]. intros Hcover Hplayer.
  unfold Store.drainBlock.
  repeat case_match; cbn; first [apply keeps_refl | by apply assignPokemon_keeps].
Qed.

Lemma playerOf_apart h battleState k player :
  state_apart D h battleState →
  Store.playerOf h battleState k = Some player →
  player_apart D h player.
Proof.
  intros [_ Hplayers]. unfold Store.playerOf, Store.readState.
  destruct (h !! battleState) as [[s| | |]|] eqn:Hs; try done. cbn. eauto.
Qed.

(** The whole call: a step, and the snapshot it returns is apart from the
    caller's objects. *)
Lemma applyMoveEffects_keeps h battleState userPlayerKey targetPlayerKey move
    matchupResult format r h' :
  D ⊆ dom h →
  Store.applyMoveEffects dexMoves h battleState userPlayerKey targetPlayerKey
    move matchupResult format = (r, h') →
  keeps D h h' ∧ state_apart D h' (Store.effect_battleState r).
Proof.
  intros Hcover. unfold Store.applyMoveEffects.
  destruct (Store.cloneBattleState h battleState) as [new h1] eqn:Hclone.
  apply cloneBattleState_keeps with (D := D) in Hclone as [Hk1 Hnew]; [|done].
  pose proof (keeps_cover _ _ _ Hk1 Hcover) as Hcover1.
  destruct (Store.playerOf h1 new userPlayerKey) as [userPlayer|] eqn:Huser;
    [|by intros [= <- <-]].
  destruct (Store.playerOf h1 new targetPlayerKey) as [targetPlayer|] eqn:Htarget;
    [|by intros [= <- <-]].
  pose proof (playerOf_apart _ _ _ _ Hnew Huser) as Huser1.
  pose proof (playerOf_apart _ _ _ _ Hnew Htarget) as Htarget1.
  destruct (Store.pokemonAt h1 userPlayer _) as [[? userPokemon]|];
    [|by intros [= <- <-]].
  destruct (Store.pokemonAt h1 targetPlayer _) as [[? targetPokemon]|];
    [|by intros [= <- <-]].
  destruct (dexMoves format move) as [dexMove|]; [|by intros [= <- <-]].
  match goal with |- context [Store.damageBlock ?a ?b ?c ?d ?e ?f ?w] =>
    pose proof (damageBlock_keeps a b c d e f w Hcover1 Htarget1) as Hdamage;
    destruct (Store.damageBlock a b c d e f w) as [r2 h2|[h2 parts2]]
  end; cbn in Hdamage.
  { destruct Hdamage as [Hdamage Hroot]. intros [= <- <-].
    split; [by eapply keeps_trans|]. rewrite Hroot.
    by apply (keeps_state _ _ _ Hdamage). }
  pose proof (keeps_cover _ _ _ Hdamage Hcover1) as Hcover2.
  pose proof (keeps_player _ _ _ Hdamage _ Huser1) as Huser2.
  match goal with |- context [Store.recoilBlock ?a ?b ?c ?d ?e ?f ?w] =>
    pose proof (recoilBlock_keeps a b c d e f w Hcover2 Huser2) as Hrecoil;
    destruct (Store.recoilBlock a b c d e f w) as [r3 h3|[h3 parts3]]
  end; cbn in Hrecoil.
  { destruct Hrecoil as [Hrecoil Hroot]. intros [= <- <-].
    split; [eapply keeps_trans; [exact Hk1|by eapply keeps_trans]|].
    rewrite Hroot.
    by apply (keeps_state _ _ _ Hrecoil), (keeps_state _ _ _ Hdamage). }
  pose proof (keeps_cover _ _ _ Hrecoil Hcover2) as Hcover3.
  pose proof (keeps_player _ _ _ Hrecoil _ Huser2) as Huser3.
  match goal with |- context [Store.drainBlock ?a ?b ?c ?d ?e ?w] =>
    pose proof (drainBlock_keeps a b c d e w Hcover3 Huser3) as Hdrain;
    destruct (Store.drainBlock a b c d e w) as [h4 parts4]
  end; cbn in Hdrain.
  intros [= <- <-].
  split.
  - eapply keeps_trans; [exact Hk1|]. eapply keeps_trans; [exact Hdamage|].
    by eapply keeps_trans.
  - by apply (keeps_state _ _ _ Hdrain), (keeps_state _ _ _ Hrecoil),
      (keeps_state _ _ _ Hdamage).
Qed.

(** A Pokemon found through a player that is apart from the caller's
    objects is not one of the caller's objects. *)
Lemma pokemonAt_apart h player index l pokemon :
  player_apart D h player →
  Store.pokemonAt h player index = Some (l, pokemon) →
  l ∉ D.
Proof.
  intros [_ Harray]. unfold Store.pokemonAt, Store.readPlayer, Store.readArray.
  destruct (h !! player) as [[|p| |]|] eqn:Hp; try done. cbn.
  destruct (Store.player_pokemon p) as [a|] eqn:Ha; [|done]. cbn.
  destruct (Harray p a eq_refl Ha) as [_ Hitems].
  destruct (h !! a) as [[| |items|]|] eqn:Hlook; try done. cbn.
  destruct (at_index items index) as [l'|] eqn:Hat; [|done]. cbn.
  destruct (Store.readPokemon h l'); [|done]. cbn. intros [= <- <-].
  apply at_index_Some in Hat as [_ Hat].
  eapply Hitems; [done|]. by eapply list_elem_of_lookup_2.
Qed.

(** An exit of [simulateTurn] that takes place with the store as the
    hypotheses in context describe it. *)
Ltac early_exit :=
  intros [= <- <-]; split; [done|];
  first [ done | split; [done|constructor] ].

Lemma simulateTurn_keeps h battleState playerKey opponentKey playerMove
    opponentMove format c h' :
  D ⊆ dom h →
  Store.simulateTurn dexMoves calcPokemonFinalStats Math_random
    calcSmogonMatchup h battleState playerKey opponentKey playerMove
    opponentMove format = (c, h') →
  keeps D h h' ∧ turn_apart D h' c.
Proof.
  intros Hcover. unfold Store.simulateTurn.
  destruct (Store.cloneBattleState h battleState) as [cur h1] eqn:Hclone.
  apply cloneBattleState_keeps with (D := D) in Hclone as [Hk1 Hcur]; [|done].
  pose proof (keeps_cover _ _ _ Hk1 Hcover) as Hcover1.
  destruct (Store.playerOf h1 cur playerKey) as [player|];
    [|early_exit].
  destruct (Store.playerOf h1 cur opponentKey) as [opponent|];
    [|early_exit].
  destruct (Store.pokemonAt h1 player _) as [[? playerPokemon]|];
    [|early_exit].
  destruct (Store.pokemonAt h1 opponent _) as [[? opponentPokemon]|];
    [|early_exit].
  destruct (Store.snapshotPlayer h1 player); [|early_exit].
  destruct (Store.snapshotPlayer h1 opponent); [|early_exit].
  destruct (Store.readState h1 cur); [|early_exit].
  set (moveOrder := determineMoveOrder _ _ _ _ _ _ _ _ _ _ _ _).
  destruct (Store.playerOf h1 cur (MoveOrderInfo.firstPlayerKey moveOrder))
    as [firstMoveUser|] eqn:Hfirst; [|early_exit].
  destruct (Store.playerOf h1 cur (MoveOrderInfo.secondPlayerKey moveOrder))
    as [firstMoveTarget|]; [|early_exit].
  destruct (Store.snapshotPlayer h1 firstMoveUser); [|early_exit].
  destruct (Store.snapshotPlayer h1 firstMoveTarget); [|early_exit].
  pose proof (playerOf_apart _ _ _ _ Hcur Hfirst) as Hfirst1.
  assert (∀ ref, fst <$> Store.pokemonAt h1 firstMoveUser
                         (Store.activeIndexAt h1 firstMoveUser) = Some ref →
               ref ∉ D) as Hrefs1.
  { intros ref. destruct (Store.pokemonAt h1 firstMoveUser _) as [[l1 ?]|] eqn:Hat;
      [|done]. intros [= <-]. by eapply pokemonAt_apart. }
  destruct (Store.applyMoveEffects dexMoves h1 cur _ _ _ _ _)
    as [firstMoveResult h2] eqn:Happly1.
  apply applyMoveEffects_keeps in Happly1 as [Hk2 Hafter1];
    [|done].
  pose proof (keeps_cover _ _ _ Hk2 Hcover1) as Hcover2.
  assert (keeps D h h2) as Hk12 by by eapply keeps_trans.
  destruct (Store.effect_targetFainted firstMoveResult).
  { intros [= <- <-]. split; [done|]. split; [done|].
    by apply Forall_singleton. }
  destruct (Store.effect_userFainted firstMoveResult).
  { intros [= <- <-]. split; [done|]. split; [done|].
    by apply Forall_singleton. }
  destruct (Store.playerOf h2 _ (MoveOrderInfo.secondPlayerKey moveOrder))
    as [secondMoveUser|] eqn:Hsecond; [|early_exit].
  destruct (Store.playerOf h2 _ (MoveOrderInfo.firstPlayerKey moveOrder))
    as [secondMoveTarget|]; [|early_exit].
  destruct (Store.readState h2 _); [|early_exit].
  destruct (Store.snapshotPlayer h2 secondMoveUser); [|early_exit].
  destruct (Store.snapshotPlayer h2 secondMoveTarget); [|early_exit].
  pose proof (playerOf_apart _ _ _ _ Hafter1 Hsecond) as Hsecond2.
  assert (∀ ref, fst <$> Store.pokemonAt h2 secondMoveUser
                         (Store.activeIndexAt h2 secondMoveUser) = Some ref →
               ref ∉ D) as Hrefs2.
  { intros ref. destruct (Store.pokemonAt h2 secondMoveUser _) as [[l2 ?]|] eqn:Hat;
      [|done]. intros [= <-]. by eapply pokemonAt_apart. }
  destruct (Store.applyMoveEffects dexMoves h2 _ _ _ _ _ _)
    as [secondMoveResult h3] eqn:Happly2.
  apply applyMoveEffects_keeps in Happly2 as [Hk3 Hafter2];
    [|done].
  intros [= <- <-]. split; [by eapply keeps_trans|]. split; [done|].
  cbn. apply Forall_cons. split; [done|]. by apply Forall_singleton.
Qed.

End FrameEngine.

(** *** Reading the input back after the call *)

Section SnapshotStable.

Variables h h' : Store.store.
Hypothesis grown : h ⊆ h'.

Lemma readState_weaken l s : Store.readState h l = Some s → Store.readState h' l = Some s.
Proof.
  unfold Store.readState. destruct (h !! l) as [o|] eqn:Hl; [|done].
  by rewrite (lookup_weaken _ _ _ _ Hl grown).
Qed.

Lemma readPlayer_weaken l p : Store.readPlayer h l = Some p → Store.readPlayer h' l = Some p.
Proof.
  unfold Store.readPlayer. destruct (h !! l) as [o|] eqn:Hl; [|done].
  by rewrite (lookup_weaken _ _ _ _ Hl grown).
Qed.

Lemma readArray_weaken l items : Store.readArray h l = Some items → Store.readArray h' l = Some items.
Proof.
  unfold Store.readArray. destruct (h !! l) as [o|] eqn:Hl; [|done].
  by rewrite (lookup_weaken _ _ _ _ Hl grown).
Qed.

Lemma readPokemon_weaken l pokemon :
  Store.readPokemon h l = Some pokemon → Store.readPokemon h' l = Some pokemon.
Proof.
  unfold Store.readPokemon. destruct (h !! l) as [o|] eqn:Hl; [|done].
  by rewrite (lookup_weaken _ _ _ _ Hl grown).
Qed.

Lemma snapshotItems_weaken items contents :
  Store.snapshotItems h items = Some contents →
  Store.snapshotItems h' items = Some contents.
Proof.
  unfold Store.snapshotItems. rewrite !mapM_Some.
  induction 1; constructor; auto using readPokemon_weaken.
Qed.

Lemma snapshotPlayer_weaken l player :
  Store.snapshotPlayer h l = Some player → Store.snapshotPlayer h' l = Some player.
Proof.
  unfold Store.snapshotPlayer.
  destruct (Store.readPlayer h l) as [p|] eqn:Hp; [|done].
  rewrite (readPlayer_weaken _ _ Hp). cbn.
  destruct (Store.player_pokemon p) as [a|]; [|done].
  destruct (Store.readArray h a) as [items|] eqn:Ha; [|done].
  rewrite (readArray_weaken _ _ Ha). cbn.
  destruct (Store.snapshotItems h items) as [contents|] eqn:Hitems; [|done].
  by rewrite (snapshotItems_weaken _ _ Hitems).
Qed.

Lemma snapshotOptionalPlayer_weaken l player :
  Store.snapshotOptionalPlayer h l = Some player →
  Store.snapshotOptionalPlayer h' l = Some player.
Proof.
  destruct l as [l|]; [|done]. cbn.
  destruct (Store.snapshotPlayer h l) as [contents|] eqn:Hl; [|done].
  by rewrite (snapshotPlayer_weaken _ _ Hl).
Qed.

(** A snapshot that could be read before a step reads the same after it. *)
Lemma snapshot_weaken l bs :
  Store.snapshot h l = Some bs → Store.snapshot h' l = Some bs.
Proof.
  unfold Store.snapshot.
  destruct (Store.readState h l) as [s|] eqn:Hs; [|done].
  rewrite (readState_weaken _ _ Hs). cbn.
  destruct (Store.snapshotOptionalPlayer h (Store.state_p1 s)) as [a|] eqn:Ha;
    [|done].
  rewrite (snapshotOptionalPlayer_weaken _ _ Ha). cbn.
  destruct (Store.snapshotOptionalPlayer h (Store.state_p2 s)) as [b|] eqn:Hb;
    [|done].
  rewrite (snapshotOptionalPlayer_weaken _ _ Hb). cbn.
  destruct (Store.snapshotOptionalPlayer h (Store.state_p3 s)) as [c|] eqn:Hc;
    [|done].
  rewrite (snapshotOptionalPlayer_weaken _ _ Hc). cbn.
  destruct (Store.snapshotOptionalPlayer h (Store.state_p4 s)) as [d|] eqn:Hd;
    [|done].
  by rewrite (snapshotOptionalPlayer_weaken _ _ Hd).
Qed.

End SnapshotStable.

Lemma keeps_subseteq (h h' : Store.store) : keeps (dom h) h h' → h ⊆ h'.
Proof.
  intros Hk. apply map_subseteq_spec. intros l o Hl.
  rewrite (keeps_caller _ _ _ Hk); [done|]. by apply elem_of_dom.
Qed.

(** C9.  Neither [applyMoveEffects] nor [simulateTurn] writes to an object
    that existed before the call: the store after the call extends the
    store before it, so every object of the input snapshot has the contents
    it had, and the input snapshot reads back the same.  The snapshot that
    is returned is apart from all objects that existed before: its state
    object, its player objects, their arrays and the Pokemon in them are
    new, and so are the Pokemon the move results refer to. *)
Theorem input_snapshot_never_mutated
    (dexMoves : option FormatArg → MoveName → option DexMove.t)
    (calcPokemonFinalStats :
       FormatArg → CalcdexPokemon.t → CalcdexPokemon.t →
       option CalcdexPlayer.t → option CalcdexPlayer.t →
       option CalcdexBattleField.t → option (list CalcdexPlayer.t) → option Z)
    (Math_random : Q)
    (calcSmogonMatchup :
       FormatArg → string →
       option CalcdexPokemon.t → option CalcdexPokemon.t → MoveName →
       CalcdexPlayer.t → CalcdexPlayer.t → list CalcdexPlayer.t →
       CalcdexBattleField.t → option CalcdexMatchupResult.t)
    (h : Store.store) (battleState : Store.loc)
    (key1 key2 : CalcdexPlayerKey) (move1 move2 : MoveName)
    (matchupResult : option CalcdexMatchupResult.t)
    (format : option FormatArg) :
  let callers : gset Store.loc := dom h in
  let applied :=
    Store.applyMoveEffects dexMoves h battleState key1 key2 move1
      matchupResult format in
  let turn :=
    Store.simulateTurn dexMoves calcPokemonFinalStats Math_random
      calcSmogonMatchup h battleState key1 key2 move1 move2 format in
  (h ⊆ applied.2 ∧
   (∀ bs, Store.snapshot h battleState = Some bs →
          Store.snapshot applied.2 battleState = Some bs) ∧
   state_apart callers applied.2 (Store.effect_battleState applied.1)) ∧
  (h ⊆ turn.2 ∧
   (∀ bs, Store.snapshot h battleState = Some bs →
          Store.snapshot turn.2 battleState = Some bs) ∧
   turn_apart callers turn.2 turn.1).
Proof.
  intros callers applied turn. split.
  - destruct applied as [r h'] eqn:Happlied. subst applied.
    apply applyMoveEffects_keeps with (D := callers) in Happlied
      as [Hk Hapart]; [|done].
    pose proof (keeps_subseteq _ _ Hk) as Hsub. cbn.
    split; [done|]. split; [|done].
    intros bs. by apply snapshot_weaken.
  - destruct turn as [c h'] eqn:Hturn. subst turn.
    apply simulateTurn_keeps with (D := callers) in Hturn as [Hk Hapart];
      [|done].
    pose proof (keeps_subseteq _ _ Hk) as Hsub. cbn.
    split; [done|]. split; [|done].
    intros bs. by apply snapshot_weaken.
Qed.

(** A turn on a store that holds the sample battle: Garchomp's Earthquake
    and Landorus-Therian's Ice Beam both land.  The caller's store is
    extended, never overwritten; the caller's snapshot still reads 100/100
    on both sides while the returned one reads 58 and 13. *)
Lemma input_snapshot_never_mutated_witness :
  let battle :=
    Samples.battle (Samples.pokemon "Garchomp" p1 100 100)
                   (Samples.pokemon "Landorus-Therian" p2 100 100) false in
  let loaded := Store.load ∅ battle in
  let turn :=
    Store.simulateTurn Samples.dex Samples.speeds (1 # 4) Samples.matchup
      loaded.2 loaded.1 p1 p2 "Earthquake" "Ice Beam" None in
  loaded.2 ⊆ turn.2 ∧
  Store.snapshot turn.2 loaded.1 = Some battle ∧
  match turn.1 with
  | Returns t =>
      (Store.turn_battleState t ∉ dom loaded.2) ∧
      Store.snapshot turn.2 (Store.turn_battleState t) =
        Some (Samples.battle (withHp (Samples.pokemon "Garchomp" p1 100 100) 58)
                (withHp (Samples.pokemon "Landorus-Therian" p2 100 100) 13)
                false)
  | Throws => False
  end.
Proof.
  intros battle loaded turn.
  destruct (input_snapshot_never_mutated Samples.dex Samples.speeds (1 # 4)
              Samples.matchup loaded.2 loaded.1 p1 p2 "Earthquake" "Ice Beam"
              None None) as [_ (Hgrown & Hsame & Hapart)].
  split; [exact Hgrown|]. split; [apply Hsame; vm_compute; reflexivity|].
  fold turn in Hapart. destruct turn.1 as [t|] eqn:Hturn.
  - split; [apply Hapart|].
    assert (turn.1 = Returns t → Store.snapshot turn.2
              (Store.turn_battleState t) =
              Some (Samples.battle
                      (withHp (Samples.pokemon "Garchomp" p1 100 100) 58)
                      (withHp (Samples.pokemon "Landorus-Therian" p2 100 100) 13)
                      false)) as Hread.
    { vm_compute. by intros [= <-]. }
    by apply Hread.
  - vm_compute in Hturn. discriminate.
Defined.

(** ** The run over objects and the run over snapshots agree *)

Lemma snapshot_Some h root bs :
  Store.snapshot h root = Some bs ↔
  ∃ s, Store.readState h root = Some s ∧
       CalcdexBattleState.format bs = Store.state_format s ∧
       CalcdexBattleState.gameType bs = Store.state_gameType s ∧
       CalcdexBattleState.field bs = Store.state_field s ∧
       ∀ k, Store.snapshotOptionalPlayer h (Store.playerRef s k)
            = Some (getPlayer bs k).
Proof.
  unfold Store.snapshot. split.
  - destruct (Store.readState h root) as [s|]; [|done]. cbn.
    destruct (Store.snapshotOptionalPlayer h (Store.state_p1 s)) as [a|] eqn:Ha; [|done].
    destruct (Store.snapshotOptionalPlayer h (Store.state_p2 s)) as [b|] eqn:Hb; [|done].
    destruct (Store.snapshotOptionalPlayer h (Store.state_p3 s)) as [c|] eqn:Hc; [|done].
    destruct (Store.snapshotOptionalPlayer h (Store.state_p4 s)) as [d|] eqn:Hd; [|done].
    cbn. intros [= <-]. exists s. repeat split. by intros [].
  - intros (s & -> & Hf & Hg & Hfl & Hk). cbn.
    pose proof (Hk p1) as H1. pose proof (Hk p2) as H2.
    pose proof (Hk p3) as H3. pose proof (Hk p4) as H4.
    cbn in H1, H2, H3, H4. rewrite H1, H2, H3, H4. cbn.
    destruct bs; cbn in *. by subst.
Qed.

Lemma alloc_spec (h : Store.store) o l h' :
  Store.alloc h o = (l, h') →
  h ⊆ h' ∧ (l ∉ dom h) ∧ h' !! l = Some o ∧ dom h' = {[l]} ∪ dom h.
Proof.
  intros [= <- <-].
  pose proof (is_fresh (dom h)) as Hfresh.
  split; [apply insert_subseteq; by apply not_elem_of_dom|].
  split; [done|]. split; [apply lookup_insert_eq|]. apply dom_insert_L.
Qed.

(** *** The copy reads as the original *)

Lemma clonePokemon_reads h l v l' h' :
  Store.readPokemon h l = Some v → Store.clonePokemon h l = (l', h') →
  h ⊆ h' ∧ (l' ∉ dom h) ∧ Store.readPokemon h' l' = Some v.
Proof.
  unfold Store.readPokemon, Store.clonePokemon.
  destruct (h !! l) as [[| | |pokemon]|]; try done. intros [= ->].
  intros (Hsub & Hfresh & Hlook & _)%alloc_spec.
  by rewrite Hlook.
Qed.

Lemma cloneItems_reads items : ∀ h vs items' h',
  Store.snapshotItems h items = Some vs →
  Store.cloneItems h items = (items', h') →
  h ⊆ h' ∧ Store.snapshotItems h' items' = Some vs.
Proof.
  unfold Store.snapshotItems.
  induction items as [|l items IH]; intros h vs items' h'; cbn.
  - intros [= <-] [= <- <-]. done.
  - destruct (Store.readPokemon h l) as [v|] eqn:Hl; [|done]. cbn.
    destruct (mapM (Store.readPokemon h) items) as [vs'|] eqn:Hitems; [|done].
    cbn. intros [= <-].
    destruct (Store.clonePokemon h l) as [l1 h1] eqn:Hclone.
    destruct (Store.cloneItems h1 items) as [items1 h2] eqn:Hrest.
    intros [= <- <-].
    apply (clonePokemon_reads _ _ _ _ _ Hl) in Hclone as (Hsub1 & _ & Hl1).
    eapply IH in Hrest as [Hsub2 Hitems2];
      [|by apply (snapshotItems_weaken _ _ Hsub1)].
    split; [by etrans|]. cbn.
    rewrite (readPokemon_weaken _ _ Hsub2 _ _ Hl1). cbn.
    by rewrite Hitems2.
Qed.

Lemma cloneArray_reads h a items vs a' h' :
  Store.readArray h a = Some items →
  Store.snapshotItems h items = Some vs →
  Store.cloneArray h a = (a', h') →
  h ⊆ h' ∧ (a' ∉ dom h) ∧ (a' ∈ dom h') ∧
  ∃ items', Store.readArray h' a' = Some items' ∧
            Store.snapshotItems h' items' = Some vs.
Proof.
  unfold Store.readArray, Store.cloneArray.
  destruct (h !! a) as [[| |items0|]|]; try done. intros [= ->] Hitems.
  destruct (Store.cloneItems h items) as [items1 h1] eqn:Hclone.
  apply (cloneItems_reads _ _ _ _ _ Hitems) in Hclone as [Hsub1 Hitems1].
  intros (Hsub2 & Hfresh & Hlook & Hdom)%alloc_spec.
  split; [by etrans|].
  split; [intros Hin; apply Hfresh; by apply (subseteq_dom _ _ Hsub1)|].
  split; [rewrite Hdom; set_solver|].
  exists items1. rewrite Hlook. split; [done|].
  by apply (snapshotItems_weaken _ _ Hsub2).
Qed.

Lemma clonePlayer_reads h player contents player' h' :
  Store.snapshotPlayer h player = Some contents →
  Store.clonePlayer h player = (player', h') →
  h ⊆ h' ∧ Store.snapshotPlayer h' player' = Some contents ∧
  born h h' player'.
Proof.
  unfold Store.snapshotPlayer, Store.clonePlayer, Store.readPlayer at 1.
  destruct (h !! player) as [[|o| |]|]; try done. cbn.
  destruct (Store.player_pokemon o) as [a|] eqn:Ha.
  - destruct (Store.readArray h a) as [items|] eqn:Hitems; [|done]. cbn.
    destruct (Store.snapshotItems h items) as [vs|] eqn:Hvs; [|done]. cbn.
    intros [= <-].
    destruct (Store.cloneArray h a) as [a1 h1] eqn:Hclone.
    apply (cloneArray_reads _ _ _ _ _ _ Hitems Hvs) in Hclone
      as (Hsub1 & Ha1 & Ha1' & items1 & Hitems1 & Hvs1).
    intros (Hsub2 & Hfresh & Hlook & Hdom)%alloc_spec.
    split; [by etrans|]. unfold Store.readPlayer. rewrite Hlook. cbn.
    rewrite (readArray_weaken _ _ Hsub2 _ _ Hitems1). cbn.
    rewrite (snapshotItems_weaken _ _ Hsub2 _ _ Hvs1). cbn.
    split; [done|]. split; [|split].
    + intros Hin. apply Hfresh. by apply (subseteq_dom _ _ Hsub1).
    + rewrite Hdom. set_solver.
    + intros o' a' Ho' Ha'. unfold Store.readPlayer in Ho'.
      rewrite Hlook in Ho'. simplify_eq/=. split; [done|].
      rewrite Hdom. set_solver.
  - intros [= <-].
    intros (Hsub2 & Hfresh & Hlook & Hdom)%alloc_spec.
    split; [done|]. unfold Store.readPlayer. rewrite Hlook. cbn.
    split; [done|]. split; [done|]. split; [rewrite Hdom; set_solver|].
    intros o' a' Ho' Ha'. unfold Store.readPlayer in Ho'.
    rewrite Hlook in Ho'. by simplify_eq/=.
Qed.

Lemma cloneOptionalPlayer_reads h player contents player' h' :
  Store.snapshotOptionalPlayer h player = Some contents →
  Store.cloneOptionalPlayer h player = (player', h') →
  h ⊆ h' ∧ Store.snapshotOptionalPlayer h' player' = Some contents ∧
  ∀ l, player' = Some l → born h h' l.
Proof.
  unfold Store.snapshotOptionalPlayer, Store.cloneOptionalPlayer.
  destruct player as [player|].
  - destruct (Store.snapshotPlayer h player) as [c|] eqn:Hc; [|done].
    cbn. intros [= <-].
    destruct (Store.clonePlayer h player) as [l1 h1] eqn:Hclone.
    apply (clonePlayer_reads _ _ _ _ _ Hc) in Hclone as (Hsub & Hc1 & Hborn).
    intros [= <- <-]. split; [done|]. rewrite Hc1. split; [done|].
    by intros l [= <-].
  - intros [= <-] [= <- <-]. done.
Qed.

(** What is born in one stage stays as it is in every later store. *)
Lemma born_later h h' h'' player :
  born h h' player → h' ⊆ h'' →
  (player ∉ dom h) ∧ (player ∈ dom h') ∧
  ∀ o a, Store.readPlayer h'' player = Some o →
         Store.player_pokemon o = Some a → (a ∉ dom h) ∧ (a ∈ dom h').
Proof.
  intros (Hout & Hin & Harray) Hsub. split; [done|]. split; [done|].
  intros o a Ho Ha. apply (Harray o a); [|done].
  apply elem_of_dom in Hin as [x Hx].
  unfold Store.readPlayer in *.
  rewrite (lookup_weaken _ _ _ _ Hx Hsub) in Ho. by rewrite Hx.
Qed.

Lemma cloneBattleState_reads h root bs root' h' :
  Store.snapshot h root = Some bs →
  Store.cloneBattleState h root = (root', h') →
  h ⊆ h' ∧ Store.snapshot h' root' = Some bs ∧ separated h' root'.
Proof.
  intros (s & Hs & Hformat & HgameType & Hfield & Hplayers)%snapshot_Some.
  unfold Store.cloneBattleState. unfold Store.readState in Hs.
  destruct (h !! root) as [[s0| | |]|]; try done. simplify_eq.
  destruct (Store.cloneOptionalPlayer h (Store.state_p1 s)) as [a h1] eqn:H1.
  destruct (Store.cloneOptionalPlayer h1 (Store.state_p2 s)) as [b h2] eqn:H2.
  destruct (Store.cloneOptionalPlayer h2 (Store.state_p3 s)) as [c h3] eqn:H3.
  destruct (Store.cloneOptionalPlayer h3 (Store.state_p4 s)) as [d h4] eqn:H4.
  apply (cloneOptionalPlayer_reads _ _ _ _ _ (Hplayers p1)) in H1
    as (Hsub1 & Ha & Hborn1).
  apply (cloneOptionalPlayer_reads _ _ (getPlayer bs p2)) in H2
    as (Hsub2 & Hb & Hborn2);
    [|by apply (snapshotOptionalPlayer_weaken _ _ Hsub1), (Hplayers p2)].
  apply (cloneOptionalPlayer_reads _ _ (getPlayer bs p3)) in H3
    as (Hsub3 & Hc & Hborn3);
    [|apply (snapshotOptionalPlayer_weaken _ _ Hsub2),
        (snapshotOptionalPlayer_weaken _ _ Hsub1), (Hplayers p3)].
  apply (cloneOptionalPlayer_reads _ _ (getPlayer bs p4)) in H4
    as (Hsub4 & Hd & Hborn4);
    [|apply (snapshotOptionalPlayer_weaken _ _ Hsub3),
        (snapshotOptionalPlayer_weaken _ _ Hsub2),
        (snapshotOptionalPlayer_weaken _ _ Hsub1), (Hplayers p4)].
  intros (Hsub5 & Hfresh & Hlook & Hdom)%alloc_spec.
  assert (h1 ⊆ h') as Hsub1' by (do 3 (etrans; [eassumption|]); done).
  assert (h2 ⊆ h') as Hsub2' by (do 2 (etrans; [eassumption|]); done).
  assert (h3 ⊆ h') as Hsub3' by (etrans; [eassumption|]; done).
  split; [by etrans|]. split.
  - apply snapshot_Some. eexists. unfold Store.readState. rewrite Hlook.
    split; [done|]. cbn. repeat split; try done.
    intros []; cbn.
    + by apply (snapshotOptionalPlayer_weaken _ _ Hsub1').
    + by apply (snapshotOptionalPlayer_weaken _ _ Hsub2').
    + by apply (snapshotOptionalPlayer_weaken _ _ Hsub3').
    + by apply (snapshotOptionalPlayer_weaken _ _ Hsub5).
  - pose proof (subseteq_dom _ _ Hsub1) as Hd1.
    pose proof (subseteq_dom _ _ Hsub2) as Hd2.
    pose proof (subseteq_dom _ _ Hsub3) as Hd3.
    pose proof (subseteq_dom _ _ Hsub4) as Hd4.
    intros s' k1 k2 player1 player2. unfold Store.readState. rewrite Hlook.
    intros [= <-] Hne Hk1 Hk2.
    assert (∀ k l, Store.playerRef
                     (Store.mkState (Store.state_format s)
                        (Store.state_gameType s) (Store.state_field s) a b c d)
                     k = Some l →
                   ∃ hb ha, born hb ha l ∧ ha ⊆ h' ∧
                     match k with
                     | p1 => hb = h ∧ ha = h1
                     | p2 => hb = h1 ∧ ha = h2
                     | p3 => hb = h2 ∧ ha = h3
                     | p4 => hb = h3 ∧ ha = h4
                     end) as Hstage.
    { intros [] l Hl; cbn in Hl; do 2 eexists;
        (split; [eauto|]); (split; [|done]); done. }
    destruct (Hstage _ _ Hk1) as (hb1 & ha1 & Hb1 & Hs1 & Hw1).
    destruct (Hstage _ _ Hk2) as (hb2 & ha2 & Hb2 & Hs2 & Hw2).
    destruct (born_later _ _ _ _ Hb1 Hs1) as (Ho1 & Hi1 & Harr1).
    destruct (born_later _ _ _ _ Hb2 Hs2) as (Ho2 & Hi2 & Harr2).
    split.
    + intros ->. destruct k1, k2; try done;
        destruct Hw1 as [-> ->], Hw2 as [-> ->]; set_solver.
    + intros o1 o2 arr Hr1 Hr2 Ha1 Ha2.
      destruct (Harr1 _ _ Hr1 Ha1) as [Hx1 Hy1].
      destruct (Harr2 _ _ Hr2 Ha2) as [Hx2 Hy2].
      destruct k1, k2; try done;
        destruct Hw1 as [-> ->], Hw2 as [-> ->]; set_solver.
Qed.

(** *** One assignment *)

Section Assignment.

(** The store before, the new Pokemon object at [l], and the array [a]
    whose slot is overwritten. *)
Variable h : Store.store.
Variable l a : Store.loc.
Variable v : CalcdexPokemon.t.
Variable items : list Store.loc.
Variable n : nat.
Hypothesis l_new : h !! l = None.
Hypothesis a_array : h !! a = Some (Store.OArray items).

Let h2 : Store.store :=
  <[a := Store.OArray (<[n := l]> items)]> (<[l := Store.OPokemon v]> h).

Lemma l_not_a : l ≠ a.
Proof.
  intros Heq. assert (h !! a = None) as Hnone by (rewrite <- Heq; exact l_new).
  pose proof a_array as Harray. congruence.
Qed.

Lemma readState_assigned x s :
  Store.readState h x = Some s → Store.readState h2 x = Some s.
Proof.
  unfold Store.readState, h2. intros Hx.
  destruct (h !! x) as [o|] eqn:Hlook; [|done].
  rewrite lookup_insert_ne by (intros Heq; rewrite <- Heq, a_array in Hlook; by simplify_eq).
  rewrite lookup_insert_ne by (intros Heq; by rewrite <- Heq, l_new in Hlook).
  by rewrite Hlook.
Qed.

Lemma readPlayer_assigned x o :
  Store.readPlayer h x = Some o → Store.readPlayer h2 x = Some o.
Proof.
  unfold Store.readPlayer, h2. intros Hx.
  destruct (h !! x) as [o'|] eqn:Hlook; [|done].
  rewrite lookup_insert_ne by (intros Heq; rewrite <- Heq, a_array in Hlook; by simplify_eq).
  rewrite lookup_insert_ne by (intros Heq; by rewrite <- Heq, l_new in Hlook).
  by rewrite Hlook.
Qed.

Lemma readPokemon_assigned x p :
  Store.readPokemon h x = Some p → Store.readPokemon h2 x = Some p.
Proof.
  unfold Store.readPokemon, h2. intros Hx.
  destruct (h !! x) as [o'|] eqn:Hlook; [|done].
  rewrite lookup_insert_ne by (intros Heq; rewrite <- Heq, a_array in Hlook; by simplify_eq).
  rewrite lookup_insert_ne by (intros Heq; by rewrite <- Heq, l_new in Hlook).
  by rewrite Hlook.
Qed.

Lemma readPokemon_assigned_new : Store.readPokemon h2 l = Some v.
Proof.
  unfold Store.readPokemon, h2.
  rewrite lookup_insert_ne by (intros Heq; exact (l_not_a (eq_sym Heq))).
  by rewrite lookup_insert_eq.
Qed.

Lemma readArray_assigned_other x xs :
  x ≠ a → Store.readArray h x = Some xs → Store.readArray h2 x = Some xs.
Proof.
  unfold Store.readArray, h2. intros Hne Hx.
  destruct (h !! x) as [o'|] eqn:Hlook; [|done].
  rewrite lookup_insert_ne by done.
  rewrite lookup_insert_ne by (intros Heq; by rewrite <- Heq, l_new in Hlook).
  by rewrite Hlook.
Qed.

Lemma readArray_assigned : Store.readArray h2 a = Some (<[n := l]> items).
Proof. unfold Store.readArray, h2. by rewrite lookup_insert_eq. Qed.

Lemma snapshotItems_assigned xs ps :
  Store.snapshotItems h xs = Some ps → Store.snapshotItems h2 xs = Some ps.
Proof.
  unfold Store.snapshotItems. rewrite !mapM_Some.
  induction 1; constructor; auto using readPokemon_assigned.
Qed.

Lemma snapshotItems_assigned_slot ps :
  Store.snapshotItems h items = Some ps →
  Store.snapshotItems h2 (<[n := l]> items) = Some (<[n := v]> ps).
Proof.
  intros Hps%snapshotItems_assigned. revert Hps.
  unfold Store.snapshotItems. rewrite !mapM_Some. intros Hps.
  apply Forall2_insert; [done|]. apply readPokemon_assigned_new.
Qed.

(** A player whose array is not [a] reads as before. *)
Lemma snapshotPlayer_assigned_other player contents :
  (∀ o, Store.readPlayer h player = Some o → Store.player_pokemon o ≠ Some a) →
  Store.snapshotPlayer h player = Some contents →
  Store.snapshotPlayer h2 player = Some contents.
Proof.
  intros Hother. unfold Store.snapshotPlayer.
  destruct (Store.readPlayer h player) as [o|] eqn:Ho; [|done].
  rewrite (readPlayer_assigned _ _ Ho). cbn.
  destruct (Store.player_pokemon o) as [a'|] eqn:Ha'; [|done].
  destruct (Store.readArray h a') as [xs|] eqn:Hxs; [|done].
  rewrite (readArray_assigned_other a' xs);
    [|intros Heq; apply (Hother o); [done|by rewrite <- Heq]|done]. cbn.
  destruct (Store.snapshotItems h xs) as [ps|] eqn:Hps; [|done].
  by rewrite (snapshotItems_assigned _ _ Hps).
Qed.

(** The player whose array is [a] reads with the slot replaced. *)
Lemma snapshotPlayer_assigned player o ps :
  Store.readPlayer h player = Some o →
  Store.player_pokemon o = Some a →
  Store.snapshotItems h items = Some ps →
  Store.snapshotPlayer h2 player =
    Some (CalcdexPlayer.mk (Store.player_activeIndices o)
            (Store.player_selectionIndex o) (Some (<[n := v]> ps))).
Proof.
  intros Ho Ha Hps. unfold Store.snapshotPlayer.
  rewrite (readPlayer_assigned _ _ Ho). cbn. rewrite Ha.
  rewrite readArray_assigned. cbn.
  by rewrite (snapshotItems_assigned_slot _ Hps).
Qed.

End Assignment.

Lemma snapshotPlayer_readPlayer h player contents :
  Store.snapshotPlayer h player = Some contents →
  ∃ o, Store.readPlayer h player = Some o ∧
       CalcdexPlayer.activeIndices contents = Store.player_activeIndices o ∧
       CalcdexPlayer.selectionIndex contents = Store.player_selectionIndex o ∧
       match Store.player_pokemon o with
       | Some a =>
           ∃ items ps, Store.readArray h a = Some items ∧
                       Store.snapshotItems h items = Some ps ∧
                       CalcdexPlayer.pokemon contents = Some ps
       | None => CalcdexPlayer.pokemon contents = None
       end.
Proof.
  unfold Store.snapshotPlayer.
  destruct (Store.readPlayer h player) as [o|]; [|done]. cbn.
  destruct (Store.player_pokemon o) as [a|] eqn:Ha.
  - destruct (Store.readArray h a) as [items|] eqn:Hitems; [|done]. cbn.
    destruct (Store.snapshotItems h items) as [ps|] eqn:Hps; [|done]. cbn.
    intros [= <-]. exists o. do 3 (split; [done|]). rewrite Ha.
    by exists items, ps.
  - cbn. intros [= <-]. exists o. do 3 (split; [done|]). by rewrite Ha.
Qed.

Lemma snapshot_player h bs s k player :
  (∀ k, Store.snapshotOptionalPlayer h (Store.playerRef s k)
        = Some (getPlayer bs k)) →
  Store.playerRef s k = Some player →
  ∃ contents, Store.snapshotPlayer h player = Some contents ∧
              getPlayer bs k = Some contents.
Proof.
  intros Hplayers Hk. specialize (Hplayers k). rewrite Hk in Hplayers.
  cbn in Hplayers.
  destruct (Store.snapshotPlayer h player) as [contents|]; [|done].
  cbn in Hplayers. exists contents. split; [done|]. by simplify_eq.
Qed.

Lemma separated_stable h h' root bs :
  Store.snapshot h root = Some bs →
  (∀ x s, Store.readState h x = Some s → Store.readState h' x = Some s) →
  (∀ x o, Store.readPlayer h x = Some o → Store.readPlayer h' x = Some o) →
  separated h root → separated h' root.
Proof.
  intros (s & Hs & _ & _ & _ & Hplayers)%snapshot_Some Hstate Hplayer Hsep.
  intros s' k1 k2 player1 player2 Hs' Hne Hk1 Hk2.
  rewrite (Hstate _ _ Hs) in Hs'. simplify_eq.
  destruct (Hsep _ _ _ _ _ Hs Hne Hk1 Hk2) as [Hdiff Harrays].
  split; [done|]. intros o1 o2 a Ho1 Ho2 Ha.
  destruct (snapshot_player _ _ _ _ _ Hplayers Hk1) as (c1 & Hc1 & _).
  destruct (snapshot_player _ _ _ _ _ Hplayers Hk2) as (c2 & Hc2 & _).
  apply snapshotPlayer_readPlayer in Hc1 as (o1' & Ho1' & _).
  apply snapshotPlayer_readPlayer in Hc2 as (o2' & Ho2' & _).
  rewrite (Hplayer _ _ Ho1') in Ho1. rewrite (Hplayer _ _ Ho2') in Ho2.
  simplify_eq. by eapply Harrays.
Qed.

Lemma setPokemon_fields bs k i v :
  CalcdexBattleState.format (setPokemon bs k i v) = CalcdexBattleState.format bs ∧
  CalcdexBattleState.gameType (setPokemon bs k i v) = CalcdexBattleState.gameType bs ∧
  CalcdexBattleState.field (setPokemon bs k i v) = CalcdexBattleState.field bs.
Proof.
  unfold setPokemon. destruct (getPlayer bs k) as [player|]; [|done].
  destruct (CalcdexPlayer.pokemon player); [|done].
  by destruct bs, k.
Qed.

Lemma settled_refl h : settled h h.
Proof. by repeat split. Qed.

Lemma settled_trans h1 h2 h3 : settled h1 h2 → settled h2 h3 → settled h1 h3.
Proof.
  intros (Ha & Hb & Hc) (Ha' & Hb' & Hc'). split; [|split]; eauto.
Qed.

Lemma settled_subseteq (h h' : Store.store) : h ⊆ h' → settled h h'.
Proof.
  intros Hsub. split; [|split].
  - intros x s. by apply readState_weaken.
  - intros x o. by apply readPlayer_weaken.
  - intros x v. by apply readPokemon_weaken.
Qed.

Lemma assignPokemon_reads h root bs k player i v :
  reads h root bs →
  Store.playerOf h root k = Some player →
  reads (Store.assignPokemon h player i v) root (setPokemon bs k i v) ∧
  settled h (Store.assignPokemon h player i v).
Proof.
  intros [Hsnap Hsep] Hplayer.
  pose proof Hsnap as (s & Hs & Hformat & HgameType & Hfield & Hplayers)%snapshot_Some.
  unfold Store.playerOf in Hplayer. rewrite Hs in Hplayer. cbn in Hplayer.
  destruct (snapshot_player _ _ _ _ _ Hplayers Hplayer)
    as (contents & Hcontents & Hvalue).
  pose proof Hcontents as (o & Ho & Hai & Hsi & Harray)%snapshotPlayer_readPlayer.
  unfold Store.assignPokemon, Store.alloc.
  set (l := fresh (dom h)).
  assert (h !! l = None) as Hl by apply not_elem_of_dom, is_fresh.
  assert (h ⊆ <[l := Store.OPokemon v]> h) as Hsub by by apply insert_subseteq.
  unfold Store.writeItem.
  rewrite (readPlayer_weaken _ _ Hsub _ _ Ho). cbn.
  destruct (Store.player_pokemon o) as [a|] eqn:Ha.
  - destruct Harray as (items & ps & Hitems & Hps & Hpokemon).
    rewrite (readArray_weaken _ _ Hsub _ _ Hitems).
    assert (h !! a = Some (Store.OArray items)) as Hlook.
    { unfold Store.readArray in Hitems.
      destruct (h !! a) as [[| | |]|]; by simplify_eq. }
    unfold set_index.
    split; [split|].
    + apply snapshot_Some. exists s.
      split; [by apply readState_assigned|].
      destruct (setPokemon_fields bs k i v) as (-> & -> & ->).
      repeat split; try done.
      intros k'. destruct (decide (k = k')) as [<-|Hne].
      * rewrite Hplayer. cbn.
        rewrite (snapshotPlayer_assigned h l a v items (Z.to_nat i) Hl Hlook
                   player o ps Ho Ha Hps). cbn.
        unfold setPokemon. rewrite Hvalue, Hpokemon.
        rewrite getPlayer_setPlayer, decide_True by done.
        unfold set_index. by rewrite Hai, Hsi.
      * rewrite getPlayer_setPokemon_other by done.
        destruct (Store.playerRef s k') as [player'|] eqn:Hk'.
        -- destruct (snapshot_player _ _ _ _ _ Hplayers Hk')
             as (contents' & Hcontents' & Hvalue').
           cbn. rewrite (snapshotPlayer_assigned_other h l a v items
                           (Z.to_nat i) Hl Hlook player' contents');
             [by rewrite Hvalue'| |done].
           intros o' Ho'.
           destruct (Hsep _ _ _ _ _ Hs Hne Hplayer Hk') as [_ Harrays].
           by eapply Harrays.
        -- specialize (Hplayers k'). rewrite Hk' in Hplayers. done.
    + eapply separated_stable; [exact Hsnap| | |exact Hsep].
      * intros x s'. by apply readState_assigned.
      * intros x o'. by apply readPlayer_assigned.
    + split; [|split].
      * intros x s'. by apply readState_assigned.
      * intros x o'. by apply readPlayer_assigned.
      * intros x v'. by apply readPokemon_assigned.
  - assert (setPokemon bs k i v = bs) as ->.
    { unfold setPokemon. by rewrite Hvalue, Harray. }
    split; [split|].
    + by apply (snapshot_weaken _ _ Hsub).
    + eapply separated_stable; [exact Hsnap| | |exact Hsep].
      * intros x s'. by apply readState_weaken.
      * intros x o'. by apply readPlayer_weaken.
    + by apply settled_subseteq.
Qed.

(** *** What the engine reads *)

Lemma playerOf_reads h root bs k :
  reads h root bs →
  match Store.playerOf h root k, getPlayer bs k with
  | Some player, Some contents => Store.snapshotPlayer h player = Some contents
  | None, None => True
  | _, _ => False
  end.
Proof.
  intros [(s & Hs & _ & _ & _ & Hplayers)%snapshot_Some _].
  unfold Store.playerOf. rewrite Hs. cbn.
  specialize (Hplayers k).
  destruct (Store.playerRef s k) as [player|]; cbn in Hplayers.
  - destruct (Store.snapshotPlayer h player) as [contents|]; [|done].
    cbn in Hplayers. by injection Hplayers as <-.
  - by injection Hplayers as <-.
Qed.

Lemma activeIndexAt_reads h player contents :
  Store.snapshotPlayer h player = Some contents →
  Store.activeIndexAt h player = activeIndex contents.
Proof.
  intros (o & Ho & Hai & Hsi & _)%snapshotPlayer_readPlayer.
  unfold Store.activeIndexAt, activeIndex. by rewrite Ho, Hai, Hsi.
Qed.

Lemma pokemonAt_reads h player contents i :
  Store.snapshotPlayer h player = Some contents →
  match Store.pokemonAt h player i with
  | Some (l, pokemon) =>
      pokemonAt contents i = Some pokemon ∧ Store.readPokemon h l = Some pokemon
  | None => pokemonAt contents i = None
  end.
Proof.
  intros (o & Ho & _ & _ & Harray)%snapshotPlayer_readPlayer.
  unfold Store.pokemonAt, pokemonAt. rewrite Ho. cbn.
  destruct (Store.player_pokemon o) as [a|]; cbn.
  - destruct Harray as (items & ps & -> & Hps & ->). cbn.
    unfold at_index. destruct (i <? 0); [done|].
    unfold Store.snapshotItems in Hps. apply mapM_Some in Hps.
    destruct (items !! Z.to_nat i) as [l|] eqn:Hl; cbn.
    + destruct (Forall2_lookup_l _ _ _ _ _ Hps Hl) as (pokemon & Hpokemon & Hread).
      by rewrite Hread.
    + apply lookup_ge_None in Hl. apply lookup_ge_None.
      by rewrite <- (Forall2_length _ _ _ Hps).
  - by rewrite Harray.
Qed.

Lemma formatOrAt_reads h root bs format :
  reads h root bs → Store.formatOrAt h format root = formatOr format bs.
Proof.
  intros [(s & Hs & Hformat & _)%snapshot_Some _].
  unfold Store.formatOrAt, formatOr. by rewrite Hs, Hformat.
Qed.

(** *** The blocks of applyMoveEffects *)

Section BlocksRefine.

Variable newBattleState : Store.loc.
Variable dexMove : DexMove.t.
Variable matchupResult : option CalcdexMatchupResult.t.

Lemma damageBlock_refines h bs parts key player index pokemon :
  reads h newBattleState bs →
  Store.playerOf h newBattleState key = Some player →
  flow_refines newBattleState h
    (Store.damageBlock newBattleState dexMove matchupResult player index
       pokemon (h, parts))
    (damageBlock dexMove matchupResult key index pokemon (bs, parts)).
Proof.
  intros Hreads Hplayer. unfold Store.damageBlock, damageBlock.
  destruct (if bool_decide (DexMove.category dexMove ≠ Status)
            then presentDamageRange matchupResult else None) as [d|];
    [|by split; [|split; [|apply settled_refl]]].
  destruct (0 <? damageOf d);
    [|by split; [|split; [|apply settled_refl]]].
  match goal with |- context [Store.assignPokemon h player index ?v] =>
    destruct (assignPokemon_reads h newBattleState bs key player index v
                Hreads Hplayer) as [Hreads' Hsettled]
  end.
  cbn zeta. case_match; cbn; [|done]. unfold effect_refines; cbn. auto 10.
Qed.

Lemma recoilBlock_refines h bs parts key player index pokemon :
  reads h newBattleState bs →
  Store.playerOf h newBattleState key = Some player →
  flow_refines newBattleState h
    (Store.recoilBlock newBattleState dexMove matchupResult player index
       pokemon (h, parts))
    (recoilBlock dexMove matchupResult key index pokemon (bs, parts)).
Proof.
  intros Hreads Hplayer. unfold Store.recoilBlock, recoilBlock.
  destruct (DexMove.recoil dexMove) as [[num den]|];
    [|by split; [|split; [|apply settled_refl]]].
  destruct (presentDamageRange matchupResult) as [d|];
    [|by split; [|split; [|apply settled_refl]]].
  destruct (0 <? num);
    [|by split; [|split; [|apply settled_refl]]].
  match goal with |- context [Store.assignPokemon h player index ?v] =>
    destruct (assignPokemon_reads h newBattleState bs key player index v
                Hreads Hplayer) as [Hreads' Hsettled]
  end.
  cbn zeta. case_match; cbn; [|done]. unfold effect_refines; cbn. auto 10.
Qed.

Lemma drainBlock_refines h bs parts key player index pokemon :
  reads h newBattleState bs →
  Store.playerOf h newBattleState key = Some player →
  let w := Store.drainBlock dexMove matchupResult player index pokemon
             (h, parts) in
  let w0 := drainBlock dexMove matchupResult key index pokemon (bs, parts) in
  reads w.1 newBattleState w0.1 ∧ w.2 = w0.2 ∧ settled h w.1.
Proof.
  intros Hreads Hplayer. unfold Store.drainBlock, drainBlock.
  destruct (DexMove.drain dexMove) as [[num den]|];
    [|by split; [|split; [|apply settled_refl]]].
  destruct (presentDamageRange matchupResult) as [d|];
    [|by split; [|split; [|apply settled_refl]]].
  destruct (0 <? num);
    [|by split; [|split; [|apply settled_refl]]].
  match goal with |- context [Store.assignPokemon h player index ?v] =>
    destruct (assignPokemon_reads h newBattleState bs key player index v
                Hreads Hplayer) as [Hreads' Hsettled]
  end.
  by cbn.
Qed.

End BlocksRefine.

Lemma playerOf_settled h h' root k player :
  settled h h' → Store.playerOf h root k = Some player →
  Store.playerOf h' root k = Some player.
Proof.
  intros (Hstate & _) Hplayer. unfold Store.playerOf in *.
  destruct (Store.readState h root) as [s|] eqn:Hs; [|done].
  by rewrite (Hstate _ _ Hs).
Qed.

Section EngineRefine.

Variable dexMoves : option FormatArg → MoveName → option DexMove.t.

Lemma failed_refines h newBattleState bs error :
  reads h newBattleState bs →
  effect_refines h (Store.failed newBattleState error) (failed bs error).
Proof. intros Hreads. unfold effect_refines. cbn. auto 10. Qed.

Lemma applyMoveEffects_refines h battleState bs userPlayerKey targetPlayerKey
    move matchupResult format r h' :
  Store.snapshot h battleState = Some bs →
  Store.applyMoveEffects dexMoves h battleState userPlayerKey targetPlayerKey
    move matchupResult format = (r, h') →
  effect_refines h' r
    (applyMoveEffects dexMoves bs userPlayerKey targetPlayerKey move
       matchupResult format) ∧
  settled h h'.
Proof.
  intros Hsnap. unfold Store.applyMoveEffects, applyMoveEffects, cloneBattleState.
  destruct (Store.cloneBattleState h battleState) as [new h1] eqn:Hclone.
  destruct (cloneBattleState_reads _ _ _ _ _ Hsnap Hclone)
    as (Hsub%settled_subseteq & Hsnap1 & Hsep1).
  assert (reads h1 new bs) as Hreads by done.
  pose proof (playerOf_reads _ _ _ userPlayerKey Hreads) as Huser.
  pose proof (playerOf_reads _ _ _ targetPlayerKey Hreads) as Htarget.
  destruct (Store.playerOf h1 new userPlayerKey) as [userPlayer|] eqn:HuserAt,
           (getPlayer bs userPlayerKey) as [userContents|]; try done;
    [|intros [= <- <-]; split; [by apply failed_refines|done]].
  destruct (Store.playerOf h1 new targetPlayerKey) as [targetPlayer|] eqn:HtargetAt,
           (getPlayer bs targetPlayerKey) as [targetContents|]; try done;
    [|intros [= <- <-]; split; [by apply failed_refines|done]].
  rewrite (activeIndexAt_reads _ _ _ Huser), (activeIndexAt_reads _ _ _ Htarget).
  pose proof (pokemonAt_reads _ _ _ (activeIndex userContents) Huser) as HuserPokemon.
  pose proof (pokemonAt_reads _ _ _ (activeIndex targetContents) Htarget)
    as HtargetPokemon.
  destruct (Store.pokemonAt h1 userPlayer _) as [[? userPokemon]|];
    [destruct HuserPokemon as [-> _]
    |rewrite HuserPokemon; intros [= <- <-];
     split; [by apply failed_refines|done]].
  destruct (Store.pokemonAt h1 targetPlayer _) as [[? targetPokemon]|];
    [destruct HtargetPokemon as [-> _]
    |rewrite HtargetPokemon; intros [= <- <-];
     split; [by apply failed_refines|done]].
  destruct (dexMoves format move) as [dexMove|];
    [|intros [= <- <-]; split; [by apply failed_refines|done]].
  match goal with
  | |- context [Store.damageBlock ?a ?b ?c ?d ?e ?f (_, ?parts)] =>
      pose proof (damageBlock_refines a b c h1 bs parts targetPlayerKey d e f
                    Hreads HtargetAt) as Hdamage
  end.
  unfold flow_refines in Hdamage.
  destruct (Store.damageBlock _ _ _ _ _ _ _) as [r2 h2|[h2 parts2]],
           (damageBlock _ _ _ _ _ _) as [r2'|[bs2 parts2']]; try done.
  { destruct Hdamage as (Hr & _ & Hsettled). intros [= <- <-].
    split; [done|by eapply settled_trans]. }
  destruct Hdamage as (Hreads2 & <- & Hsettled2).
  pose proof (playerOf_settled _ _ _ _ _ Hsettled2 HuserAt) as HuserAt2.
  match goal with
  | |- context [Store.recoilBlock ?a ?b ?c ?d ?e ?f (_, ?parts)] =>
      pose proof (recoilBlock_refines a b c h2 bs2 parts userPlayerKey d e f
                    Hreads2 HuserAt2) as Hrecoil
  end.
  unfold flow_refines in Hrecoil.
  destruct (Store.recoilBlock _ _ _ _ _ _ _) as [r3 h3|[h3 parts3]],
           (recoilBlock _ _ _ _ _ _) as [r3'|[bs3 parts3']]; try done.
  { destruct Hrecoil as (Hr & _ & Hsettled). intros [= <- <-].
    split; [done|]. eapply settled_trans; [exact Hsub|].
    by eapply settled_trans. }
  destruct Hrecoil as (Hreads3 & <- & Hsettled3).
  pose proof (playerOf_settled _ _ _ _ _ Hsettled3 HuserAt2) as HuserAt3.
  match goal with
  | |- context [Store.drainBlock ?b ?c ?d ?e ?f (_, ?parts)] =>
      pose proof (drainBlock_refines new b c h3 bs3 parts userPlayerKey d e f
                    Hreads3 HuserAt3) as Hdrain
  end.
  cbn zeta in Hdrain.
  destruct (Store.drainBlock _ _ _ _ _ _) as [h4 parts4],
           (drainBlock _ _ _ _ _ _) as [bs4 parts4'].
  cbn in Hdrain. destruct Hdrain as (Hreads4 & <- & Hsettled4).
  intros [= <- <-]. split.
  - unfold effect_refines. cbn. auto 10.
  - eapply settled_trans; [exact Hsub|].
    eapply settled_trans; [exact Hsettled2|]. by eapply settled_trans.
Qed.

End EngineRefine.

(** *** simulateTurn *)

Lemma pokemonAt_snd h player contents i :
  Store.snapshotPlayer h player = Some contents →
  snd <$> Store.pokemonAt h player i = pokemonAt contents i.
Proof.
  intros Hplayer. pose proof (pokemonAt_reads _ _ _ i Hplayer) as Hat.
  destruct (Store.pokemonAt h player i) as [[l pokemon]|]; cbn.
  - by destruct Hat as [-> _].
  - done.
Qed.

Lemma pokemonAt_fst h h' player contents i :
  Store.snapshotPlayer h player = Some contents →
  settled h h' →
  (fst <$> Store.pokemonAt h player i) ≫= Store.readPokemon h'
  = pokemonAt contents i.
Proof.
  intros Hplayer (_ & _ & Hpokemon).
  pose proof (pokemonAt_reads _ _ _ i Hplayer) as Hat.
  destruct (Store.pokemonAt h player i) as [[l pokemon]|]; cbn.
  - destruct Hat as [-> Hread]. by apply Hpokemon.
  - done.
Qed.

Lemma readState_reads h root bs :
  reads h root bs →
  ∃ s, Store.readState h root = Some s ∧
       Store.state_gameType s = CalcdexBattleState.gameType bs ∧
       Store.state_field s = CalcdexBattleState.field bs.
Proof.
  intros [(s & Hs & _ & HgameType & Hfield & _)%snapshot_Some _].
  by exists s.
Qed.

Section TurnRefine.

Variable dexMoves : option FormatArg → MoveName → option DexMove.t.
Variable calcPokemonFinalStats :
  FormatArg → CalcdexPokemon.t → CalcdexPokemon.t →
  option CalcdexPlayer.t → option CalcdexPlayer.t →
  option CalcdexBattleField.t → option (list CalcdexPlayer.t) → option Z.
Variable Math_random : Q.
Variable calcSmogonMatchup :
  FormatArg → string →
  option CalcdexPokemon.t → option CalcdexPokemon.t → MoveName →
  CalcdexPlayer.t → CalcdexPlayer.t → list CalcdexPlayer.t →
  CalcdexBattleField.t → option CalcdexMatchupResult.t.

Lemma simulateTurn_refines h battleState bs playerKey opponentKey playerMove
    opponentMove format c h' :
  Store.snapshot h battleState = Some bs →
  Store.simulateTurn dexMoves calcPokemonFinalStats Math_random
    calcSmogonMatchup h battleState playerKey opponentKey playerMove
    opponentMove format = (c, h') →
  turn_refines h' c
    (simulateTurn dexMoves calcPokemonFinalStats Math_random calcSmogonMatchup
       bs playerKey opponentKey playerMove opponentMove format) ∧
  settled h h'.
Proof.
  intros Hsnap. unfold Store.simulateTurn, simulateTurn, cloneBattleState.
  destruct (Store.cloneBattleState h battleState) as [cur h1] eqn:Hclone.
  destruct (cloneBattleState_reads _ _ _ _ _ Hsnap Hclone)
    as (Hsub%settled_subseteq & Hsnap1 & Hsep1).
  assert (reads h1 cur bs) as Hreads by done.
  pose proof (playerOf_reads _ _ _ playerKey Hreads) as Hplayer.
  pose proof (playerOf_reads _ _ _ opponentKey Hreads) as Hopponent.
  destruct (Store.playerOf h1 cur playerKey) as [player|] eqn:HplayerAt,
           (getPlayer bs playerKey) as [playerContents|]; try done;
    [|by intros [= <- <-]].
  destruct (Store.playerOf h1 cur opponentKey) as [opponent|] eqn:HopponentAt,
           (getPlayer bs opponentKey) as [opponentContents|]; try done;
    [|by intros [= <- <-]].
  rewrite (activeIndexAt_reads _ _ _ Hplayer), (activeIndexAt_reads _ _ _ Hopponent).
  pose proof (pokemonAt_reads _ _ _ (activeIndex playerContents) Hplayer)
    as HplayerPokemon.
  pose proof (pokemonAt_reads _ _ _ (activeIndex opponentContents) Hopponent)
    as HopponentPokemon.
  destruct (Store.pokemonAt h1 player _) as [[? playerPokemon]|];
    [destruct HplayerPokemon as [-> _]
    |by rewrite HplayerPokemon; intros [= <- <-]].
  destruct (Store.pokemonAt h1 opponent _) as [[? opponentPokemon]|];
    [destruct HopponentPokemon as [-> _]
    |by rewrite HopponentPokemon; intros [= <- <-]].
  rewrite Hplayer, Hopponent.
  destruct (readState_reads _ _ _ Hreads) as (s & Hs & HgameType & Hfield).
  rewrite Hs, HgameType, Hfield, (formatOrAt_reads _ _ _ format Hreads).
  cbv zeta.
  set (moveOrder := determineMoveOrder _ _ _ _ _ _ _ _ _ _ _ _).
  pose proof (playerOf_reads _ _ _ (MoveOrderInfo.firstPlayerKey moveOrder) Hreads)
    as Hfirst.
  pose proof (playerOf_reads _ _ _ (MoveOrderInfo.secondPlayerKey moveOrder) Hreads)
    as Hsecond.
  destruct (Store.playerOf h1 cur (MoveOrderInfo.firstPlayerKey moveOrder))
             as [firstMoveUser|],
           (getPlayer bs (MoveOrderInfo.firstPlayerKey moveOrder))
             as [firstMoveUserContents|]; try done;
    [|by intros [= <- <-]].
  destruct (Store.playerOf h1 cur (MoveOrderInfo.secondPlayerKey moveOrder))
             as [firstMoveTarget|],
           (getPlayer bs (MoveOrderInfo.secondPlayerKey moveOrder))
             as [firstMoveTargetContents|]; try done;
    [|by intros [= <- <-]].
  rewrite Hfirst, Hsecond.
  rewrite !(pokemonAt_snd _ _ _ _ Hfirst), !(pokemonAt_snd _ _ _ _ Hsecond).
  rewrite !(activeIndexAt_reads _ _ _ Hfirst), !(activeIndexAt_reads _ _ _ Hsecond).
  set (firstMatchup := calcSmogonMatchup _ _ _ _ _ _ _ _ _).
  destruct (Store.applyMoveEffects _ _ _ _ _ _ _ _) as [r1 h2] eqn:Happly1.
  destruct (applyMoveEffects_refines _ _ _ _ _ _ _ _ _ _ _ Hsnap1 Happly1)
    as ((Hreads2 & HtargetFainted & HuserFainted & _ & Herrors) & Hsettled2).
  set (firstMoveResult := applyMoveEffects _ _ _ _ _ _ _) in *.
  rewrite HtargetFainted, HuserFainted, Herrors.
  pose proof (pokemonAt_fst _ _ _ _ (activeIndex firstMoveUserContents)
                Hfirst Hsettled2) as HfirstPokemon.
  assert (∀ h3, settled h2 h3 →
    move_refines h3
      {| Store.move_pokemon :=
           fst <$> Store.pokemonAt h1 firstMoveUser
                     (activeIndex firstMoveUserContents);
         Store.move_move := MoveOrderInfo.firstMove moveOrder;
         Store.move_playerKey := MoveOrderInfo.firstPlayerKey moveOrder;
         Store.move_damageRange := firstMatchup ≫= CalcdexMatchupResult.damageRange;
         Store.move_damagePercent := firstMatchup ≫= CalcdexMatchupResult.description;
         Store.move_koChance := firstMatchup ≫= CalcdexMatchupResult.koChance;
         Store.move_movesFirst := true;
         Store.move_priority := MoveOrderInfo.firstPriority moveOrder;
         Store.move_effectiveSpeed := MoveOrderInfo.firstSpeed moveOrder |}
      {| PlayAheadMoveResult.pokemon :=
           pokemonAt firstMoveUserContents (activeIndex firstMoveUserContents);
         PlayAheadMoveResult.move := MoveOrderInfo.firstMove moveOrder;
         PlayAheadMoveResult.playerKey := MoveOrderInfo.firstPlayerKey moveOrder;
         PlayAheadMoveResult.damageRange :=
           firstMatchup ≫= CalcdexMatchupResult.damageRange;
         PlayAheadMoveResult.damagePercent :=
           firstMatchup ≫= CalcdexMatchupResult.description;
         PlayAheadMoveResult.koChance :=
           firstMatchup ≫= CalcdexMatchupResult.koChance;
         PlayAheadMoveResult.movesFirst := true;
         PlayAheadMoveResult.priority := MoveOrderInfo.firstPriority moveOrder;
         PlayAheadMoveResult.effectiveSpeed :=
           MoveOrderInfo.firstSpeed moveOrder |}) as HfirstMove.
  { intros h3 Hsettled3. unfold move_refines. cbn.
    split; [|auto 10].
    apply (pokemonAt_fst _ _ _ _ _ Hfirst). by eapply settled_trans. }
  assert (settled h h2) as Hstep2 by by eapply settled_trans.
  destruct (MoveEffectApplicationResult.targetFainted firstMoveResult).
  { intros [= <- <-]. split; [|done]. cbn.
    split; [done|]. split; [|done].
    constructor; [|constructor]. apply HfirstMove, settled_refl. }
  destruct (MoveEffectApplicationResult.userFainted firstMoveResult).
  { intros [= <- <-]. split; [|done]. cbn.
    split; [done|]. split; [|done].
    constructor; [|constructor]. apply HfirstMove, settled_refl. }
  set (bs2 := MoveEffectApplicationResult.battleState firstMoveResult) in *.
  set (cur2 := Store.effect_battleState r1) in *.
  pose proof (playerOf_reads _ _ _ (MoveOrderInfo.secondPlayerKey moveOrder) Hreads2)
    as Hsecond2.
  pose proof (playerOf_reads _ _ _ (MoveOrderInfo.firstPlayerKey moveOrder) Hreads2)
    as Hfirst2.
  destruct (Store.playerOf h2 cur2 (MoveOrderInfo.secondPlayerKey moveOrder))
             as [secondMoveUser|],
           (getPlayer bs2 (MoveOrderInfo.secondPlayerKey moveOrder))
             as [secondMoveUserContents|]; try done;
    [|by intros [= <- <-]].
  destruct (Store.playerOf h2 cur2 (MoveOrderInfo.firstPlayerKey moveOrder))
             as [secondMoveTarget|],
           (getPlayer bs2 (MoveOrderInfo.firstPlayerKey moveOrder))
             as [secondMoveTargetContents|]; try done;
    [|by intros [= <- <-]].
  destruct (readState_reads _ _ _ Hreads2) as (s2 & Hs2 & HgameType2 & Hfield2).
  rewrite Hs2, Hsecond2, Hfirst2, HgameType2, Hfield2.
  rewrite (formatOrAt_reads _ _ _ format Hreads2).
  rewrite !(pokemonAt_snd _ _ _ _ Hsecond2), !(pokemonAt_snd _ _ _ _ Hfirst2).
  rewrite !(activeIndexAt_reads _ _ _ Hsecond2), !(activeIndexAt_reads _ _ _ Hfirst2).
  set (secondMatchup := calcSmogonMatchup _ _ _ _ _ _ _ _ _).
  destruct (Store.applyMoveEffects dexMoves h2 _ _ _ _ _ _) as [r2 h3] eqn:Happly2.
  destruct Hreads2 as [Hsnap2 Hsep2].
  destruct (applyMoveEffects_refines _ _ _ _ _ _ _ _ _ _ _ Hsnap2 Happly2)
    as ((Hreads3 & _ & _ & _ & Herrors2) & Hsettled3).
  set (secondMoveResult := applyMoveEffects _ _ _ _ _ _ _) in *.
  rewrite Herrors2.
  intros [= <- <-]. split; [|by eapply settled_trans]. cbn.
  split; [done|]. split; [|done].
  constructor; [by apply HfirstMove|]. constructor; [|constructor].
  unfold move_refines. cbn. split; [|auto 10].
  by apply (pokemonAt_fst _ _ _ _ _ Hsecond2).
Qed.

End TurnRefine.

(** *** Every snapshot has its objects *)

Lemma loadItems_reads pokemon : ∀ h items h',
  Store.loadItems h pokemon = (items, h') →
  h ⊆ h' ∧ Store.snapshotItems h' items = Some pokemon.
Proof.
  induction pokemon as [|p pokemon IH]; intros h items h'.
  - intros [= <- <-]. split; [reflexivity|done].
  - change (Store.loadItems h (p :: pokemon))
      with (let '(items, h) := Store.loadItems h pokemon in
            let '(l, h) := Store.alloc h (Store.OPokemon p) in
            (l :: items, h)).
    destruct (Store.loadItems h pokemon) as [items1 h1] eqn:Hrest.
    apply IH in Hrest as [Hsub1 Hitems1].
    destruct (Store.alloc h1 (Store.OPokemon p)) as [l h2] eqn:Halloc.
    intros [= <- <-].
    apply alloc_spec in Halloc as (Hsub2 & _ & Hlook & _).
    split; [by etrans|]. apply mapM_Some. constructor.
    + unfold Store.readPokemon. by rewrite Hlook.
    + apply mapM_Some. by apply (snapshotItems_weaken _ _ Hsub2).
Qed.

Lemma loadPlayer_reads h contents player h' :
  Store.loadPlayer h contents = (player, h') →
  h ⊆ h' ∧ Store.snapshotPlayer h' player = Some contents.
Proof.
  unfold Store.loadPlayer. destruct contents as [indices selection pokemon].
  cbn [CalcdexPlayer.pokemon CalcdexPlayer.activeIndices
       CalcdexPlayer.selectionIndex].
  destruct pokemon as [xs|].
  - destruct (Store.loadItems h xs) as [items h1] eqn:Hitems.
    apply loadItems_reads in Hitems as [Hsub1 Hitems].
    destruct (Store.alloc h1 (Store.OArray items)) as [a h2] eqn:Harray.
    apply alloc_spec in Harray as (Hsub2 & _ & Ha & _).
    intros (Hsub3 & _ & Hlook & _)%alloc_spec.
    split; [by do 2 (etrans; [eassumption|])|].
    unfold Store.snapshotPlayer, Store.readPlayer. rewrite Hlook. cbn.
    unfold Store.readArray. rewrite (lookup_weaken _ _ _ _ Ha Hsub3). cbn.
    by rewrite (snapshotItems_weaken _ _ Hsub3 _ _
                  (snapshotItems_weaken _ _ Hsub2 _ _ Hitems)).
  - intros (Hsub & _ & Hlook & _)%alloc_spec. split; [done|].
    unfold Store.snapshotPlayer, Store.readPlayer. by rewrite Hlook.
Qed.

Lemma loadOptionalPlayer_reads h contents player h' :
  Store.loadOptionalPlayer h contents = (player, h') →
  h ⊆ h' ∧ Store.snapshotOptionalPlayer h' player = Some contents.
Proof.
  unfold Store.loadOptionalPlayer. destruct contents as [contents|].
  - destruct (Store.loadPlayer h contents) as [l h1] eqn:Hload.
    apply loadPlayer_reads in Hload as [Hsub Hl]. intros [= <- <-].
    split; [done|]. cbn. by rewrite Hl.
  - by intros [= <- <-].
Qed.

Lemma load_reads h bs battleState h' :
  Store.load h bs = (battleState, h') →
  h ⊆ h' ∧ Store.snapshot h' battleState = Some bs.
Proof.
  unfold Store.load.
  destruct (Store.loadOptionalPlayer h _) as [a h1] eqn:H1.
  destruct (Store.loadOptionalPlayer h1 _) as [b h2] eqn:H2.
  destruct (Store.loadOptionalPlayer h2 _) as [c h3] eqn:H3.
  destruct (Store.loadOptionalPlayer h3 _) as [d h4] eqn:H4.
  apply loadOptionalPlayer_reads in H1 as [Hsub1 Ha].
  apply loadOptionalPlayer_reads in H2 as [Hsub2 Hb].
  apply loadOptionalPlayer_reads in H3 as [Hsub3 Hc].
  apply loadOptionalPlayer_reads in H4 as [Hsub4 Hd].
  intros (Hsub5 & _ & Hlook & _)%alloc_spec.
  split; [by do 4 (etrans; [eassumption|])|].
  apply snapshot_Some. eexists. unfold Store.readState. rewrite Hlook.
  split; [done|]. cbn. do 3 (split; [done|]).
  intros []; cbn.
  - apply (snapshotOptionalPlayer_weaken h1); [|done].
    by do 3 (etrans; [eassumption|]).
  - apply (snapshotOptionalPlayer_weaken h2); [|done].
    by do 2 (etrans; [eassumption|]).
  - apply (snapshotOptionalPlayer_weaken h3); [|done]. by etrans.
  - by apply (snapshotOptionalPlayer_weaken h4).
Qed.

(** X26.  The run over the objects of a snapshot and the run over the snapshot
    itself come to the same turn. *)
Theorem simulateTurn_over_store_and_snapshot
    (dexMoves : option FormatArg → MoveName → option DexMove.t)
    (calcPokemonFinalStats :
       FormatArg → CalcdexPokemon.t → CalcdexPokemon.t →
       option CalcdexPlayer.t → option CalcdexPlayer.t →
       option CalcdexBattleField.t → option (list CalcdexPlayer.t) → option Z)
    (Math_random : Q)
    (calcSmogonMatchup :
       FormatArg → string →
       option CalcdexPokemon.t → option CalcdexPokemon.t → MoveName →
       CalcdexPlayer.t → CalcdexPlayer.t → list CalcdexPlayer.t →
       CalcdexBattleField.t → option CalcdexMatchupResult.t)
    (bs : CalcdexBattleState.t) (key1 key2 : CalcdexPlayerKey)
    (move1 move2 : MoveName) (format : option FormatArg) :
  let loaded := Store.load ∅ bs in
  let turn :=
    Store.simulateTurn dexMoves calcPokemonFinalStats Math_random
      calcSmogonMatchup loaded.2 loaded.1 key1 key2 move1 move2 format in
  turn_refines turn.2 turn.1
    (simulateTurn dexMoves calcPokemonFinalStats Math_random calcSmogonMatchup
       bs key1 key2 move1 move2 format).
Proof.
  intros loaded turn.
  destruct loaded as [battleState h] eqn:Hload.
  apply load_reads in Hload as [_ Hsnap].
  destruct turn as [c h'] eqn:Hturn. cbn in *.
  by destruct (simulateTurn_refines _ _ _ _ _ _ _ _ _ _ _ _ _ _ Hsnap Hturn).
Qed.

(** * Further properties of the engine *)

(** ** Order decisions *)

Section OrderFacts.

Variable dexMoves : option FormatArg → MoveName → option DexMove.t.
Variable calcPokemonFinalStats :
  FormatArg → CalcdexPokemon.t → CalcdexPokemon.t →
  option CalcdexPlayer.t → option CalcdexPlayer.t →
  option CalcdexBattleField.t → option (list CalcdexPlayer.t) → option Z.
Variable Math_random : Q.

Variable format : FormatArg.
Variables p1Pokemon p2Pokemon : CalcdexPokemon.t.
Variables p1Move p2Move : MoveName.
Variables p1Player p2Player : option CalcdexPlayer.t.
Variable field : option CalcdexBattleField.t.
Variable allPlayers : option (list CalcdexPlayer.t).

Let p1Priority := default 0 (dexMoves (Some format) p1Move ≫= DexMove.priority).
Let p2Priority := default 0 (dexMoves (Some format) p2Move ≫= DexMove.priority).
Let p1Speed :=
  default 0 (calcPokemonFinalStats format p1Pokemon p2Pokemon
               p1Player p2Player field allPlayers).
Let p2Speed :=
  default 0 (calcPokemonFinalStats format p2Pokemon p1Pokemon
               p2Player p1Player field allPlayers).
Let p1Key := default p1 (CalcdexPokemon.playerKey p1Pokemon).
Let p2Key := default p2 (CalcdexPokemon.playerKey p2Pokemon).
Let isTrickRoom := default false (field ≫= CalcdexBattleField.isTrickRoom).
Let order :=
  determineMoveOrder dexMoves calcPokemonFinalStats Math_random format
    p1Pokemon p2Pokemon p1Move p2Move p1Player p2Player field allPlayers.
Let swapped :=
  determineMoveOrder dexMoves calcPokemonFinalStats Math_random format
    p2Pokemon p1Pokemon p2Move p1Move p2Player p1Player field allPlayers.

(** X1.  Whatever the inputs, the order decision is one of the two arrangements
    of the two sides: key, move, priority and speed of one side fill the
    [first*] properties and those of the other side the [second*]
    properties.  No side is dropped or listed twice, and no number is
    recorded against the wrong side. *)
Theorem determineMoveOrder_arranges_both_sides :
  acts_first order p1Key p2Key p1Move p2Move p1Priority p2Priority
    p1Speed p2Speed ∨
  acts_first order p2Key p1Key p2Move p1Move p2Priority p1Priority
    p2Speed p1Speed.
Proof.
  unfold order, determineMoveOrder, acts_first.
  fold p1Priority p2Priority p1Speed p2Speed p1Key p2Key isTrickRoom.
  destruct (Z.eqb_spec p1Priority p2Priority) as [Hprio|Hprio]; cbn.
  - destruct (Z.eqb_spec p1Speed p2Speed) as [Hspeed|Hspeed].
    + destruct (Qlt_le_dec Math_random (1 # 2)); cbn; [left|right];
        rewrite ?Hprio, ?Hspeed; auto 10.
    + destruct isTrickRoom.
      * destruct (p1Speed <? p2Speed); cbn; [left|right];
          rewrite ?Hprio; auto 10.
      * destruct (p2Speed <? p1Speed); cbn; [left|right];
          rewrite ?Hprio; auto 10.
  - destruct (Z.ltb_spec p2Priority p1Priority); [left|right];
      repeat split; lia.
Qed.

(** X2.  The reason an order decision gives can be checked against the numbers
    it records: 'priority' comes with a strictly higher first priority;
    'speed' with equal priorities, a strictly faster first side and no
    Trick Room; 'trick-room' with equal priorities, a strictly slower first
    side and Trick Room active; 'random' with equal priorities and equal
    speeds. *)
Theorem determineMoveOrder_reason_shown : reason_shown order isTrickRoom.
Proof.
  unfold reason_shown, order, determineMoveOrder.
  fold p1Priority p2Priority p1Speed p2Speed p1Key p2Key isTrickRoom.
  destruct (Z.eqb_spec p1Priority p2Priority) as [Hprio|Hprio]; cbn.
  - destruct (Z.eqb_spec p1Speed p2Speed) as [Hspeed|Hspeed]; cbn; [done|].
    destruct isTrickRoom; cbn.
    + destruct (Z.ltb_spec p1Speed p2Speed); repeat split; (done || lia).
    + destruct (Z.ltb_spec p2Speed p1Speed); repeat split; (done || lia).
  - lia.
Qed.

(** X3.  Outside a full tie the decision does not depend on which side is
    passed as the first argument: with the two sides exchanged the same
    moves, priorities, speeds and reason come out, and the same keys when
    each Pokemon carries its side's key. *)
Theorem determineMoveOrder_argument_order :
  p1Priority ≠ p2Priority ∨ p1Speed ≠ p2Speed →
  MoveOrderInfo.firstMove swapped = MoveOrderInfo.firstMove order ∧
  MoveOrderInfo.secondMove swapped = MoveOrderInfo.secondMove order ∧
  MoveOrderInfo.firstPriority swapped = MoveOrderInfo.firstPriority order ∧
  MoveOrderInfo.secondPriority swapped = MoveOrderInfo.secondPriority order ∧
  MoveOrderInfo.firstSpeed swapped = MoveOrderInfo.firstSpeed order ∧
  MoveOrderInfo.secondSpeed swapped = MoveOrderInfo.secondSpeed order ∧
  MoveOrderInfo.reason swapped = MoveOrderInfo.reason order ∧
  (is_Some (CalcdexPokemon.playerKey p1Pokemon) →
   is_Some (CalcdexPokemon.playerKey p2Pokemon) →
   swapped = order).
Proof.
  intros Hdiffer.
  assert (is_Some (CalcdexPokemon.playerKey p1Pokemon) →
          is_Some (CalcdexPokemon.playerKey p2Pokemon) →
          default p1 (CalcdexPokemon.playerKey p2Pokemon) = p2Key ∧
          default p2 (CalcdexPokemon.playerKey p1Pokemon) = p1Key) as Hkeys.
  { unfold p1Key, p2Key. by intros [k1 ->] [k2 ->]. }
  unfold swapped, order, determineMoveOrder.
  fold p1Priority p2Priority p1Speed p2Speed isTrickRoom.
  rewrite (Z.eqb_sym p2Priority p1Priority), (Z.eqb_sym p2Speed p1Speed).
  destruct (Z.eqb_spec p1Priority p2Priority) as [Hprio|Hprio]; cbn.
  - destruct (Z.eqb_spec p1Speed p2Speed) as [Hspeed|Hspeed]; [tauto|].
    destruct isTrickRoom.
    + destruct (Z.ltb_spec p1Speed p2Speed), (Z.ltb_spec p2Speed p1Speed);
        try lia; cbn; (do 7 (split; [done || lia|]));
        intros H1 H2; destruct (Hkeys H1 H2) as [-> ->];
        fold p1Key p2Key; by rewrite Hprio.
    + destruct (Z.ltb_spec p1Speed p2Speed), (Z.ltb_spec p2Speed p1Speed);
        try lia; cbn; (do 7 (split; [done || lia|]));
        intros H1 H2; destruct (Hkeys H1 H2) as [-> ->];
        fold p1Key p2Key; by rewrite Hprio.
  - destruct (Z.ltb_spec p1Priority p2Priority), (Z.ltb_spec p2Priority p1Priority);
      try lia; cbn; (do 7 (split; [done || lia|]));
      intros H1 H2; destruct (Hkeys H1 H2) as [-> ->];
      fold p1Key p2Key; f_equal; lia.
Qed.

End OrderFacts.

(** ** What an application writes *)

Lemma setPlayer_fields bs k player :
  CalcdexBattleState.format (setPlayer bs k player) = CalcdexBattleState.format bs ∧
  CalcdexBattleState.gameType (setPlayer bs k player) = CalcdexBattleState.gameType bs ∧
  CalcdexBattleState.field (setPlayer bs k player) = CalcdexBattleState.field bs.
Proof. by destruct bs, k. Qed.

Section Writes.

Variable dexMoves : option FormatArg → MoveName → option DexMove.t.
Variable bs : CalcdexBattleState.t.

(** A property of the working snapshot that holds at the start and
    survives every assignment of the form the code makes. *)
Variable P : CalcdexBattleState.t → Prop.
Hypothesis P_start : P bs.
Hypothesis P_write : ∀ cur k player old n,
  P cur → getPlayer bs k = Some player →
  pokemonAt player (activeIndex player) = Some old →
  written old n →
  P (setPokemon cur k (activeIndex player) (withHp old n)).

Lemma applyMoveEffects_writes userKey targetKey move matchupResult format :
  P (MoveEffectApplicationResult.battleState
       (applyMoveEffects dexMoves bs userKey targetKey move matchupResult format)).
Proof.
  unfold applyMoveEffects, cloneBattleState.
  destruct (getPlayer bs userKey) as [userPlayer|] eqn:Huser; [|done].
  destruct (getPlayer bs targetKey) as [targetPlayer|] eqn:Htarget; [|done].
  destruct (pokemonAt userPlayer _) as [userPokemon|] eqn:HuserAt; [|done].
  destruct (pokemonAt targetPlayer _) as [targetPokemon|] eqn:HtargetAt; [|done].
  destruct (dexMoves format move) as [dexMove|]; [|done].
  (* the damage block *)
  assert (∃ cur parts,
    P cur ∧
    (damageBlock dexMove matchupResult targetKey (activeIndex targetPlayer)
       targetPokemon
       (bs, [CalcdexPokemon.speciesForme userPokemon +:+ " used " +:+ move +:+ "!"])
     = Continue (cur, parts) ∨
     ∃ r, damageBlock dexMove matchupResult targetKey (activeIndex targetPlayer)
            targetPokemon
            (bs, [CalcdexPokemon.speciesForme userPokemon +:+ " used " +:+ move +:+ "!"])
          = Return r ∧ MoveEffectApplicationResult.battleState r = cur))
    as (cur & parts & Hcur & Hdamage).
  { unfold damageBlock.
    destruct (if bool_decide (DexMove.category dexMove ≠ Status)
              then presentDamageRange matchupResult else None) as [d|];
      [|by eexists _, _; split; [eassumption|left]].
    destruct (Z.ltb_spec 0 (damageOf d)) as [Hpos|_]; [|by eexists _, _; split; [eassumption|left]].
    eexists _, _. split; last first.
    - case_match; [right; by eexists|by left].
    - apply (P_write bs targetKey targetPlayer targetPokemon); try done.
      by apply written_loss. }
  destruct Hdamage as [->|(r & -> & <-)]; [|done].
  (* the recoil block *)
  assert (∃ cur' parts',
    P cur' ∧
    (recoilBlock dexMove matchupResult userKey (activeIndex userPlayer)
       userPokemon (cur, parts) = Continue (cur', parts') ∨
     ∃ r, recoilBlock dexMove matchupResult userKey (activeIndex userPlayer)
            userPokemon (cur, parts) = Return r ∧
          MoveEffectApplicationResult.battleState r = cur'))
    as (cur' & parts' & Hcur' & Hrecoil).
  { unfold recoilBlock.
    destruct (DexMove.recoil dexMove) as [[num den]|]; [|by eexists _, _; split; [eassumption|left]].
    destruct (presentDamageRange matchupResult) as [d|]; [|by eexists _, _; split; [eassumption|left]].
    destruct (0 <? num); [|by eexists _, _; split; [eassumption|left]].
    eexists _, _. split; last first.
    - case_match; [right; by eexists|by left].
    - apply (P_write cur userKey userPlayer userPokemon); try done.
      apply written_loss. eapply Z.lt_le_trans; [|apply Z.le_max_l]. done. }
  destruct Hrecoil as [->|(r & -> & <-)]; [|done].
  (* the drain block *)
  unfold drainBlock.
  destruct (DexMove.drain dexMove) as [[num den]|]; [|done].
  destruct (presentDamageRange matchupResult) as [d|]; [|done].
  destruct (0 <? num); [|done].
  cbn. apply (P_write cur' userKey userPlayer userPokemon); try done.
  apply written_gain. eapply Z.lt_le_trans; [|apply Z.le_max_l]. done.
Qed.

End Writes.

(** *** Only health, and only of the combatants in play *)

Lemma same_but_health_refl pokemon : same_but_health pokemon pokemon.
Proof. by left. Qed.

Lemma same_but_health_trans a b c :
  same_but_health a b → same_but_health b c → same_but_health a c.
Proof.
  intros [->|[n ->]] [->|[m ->]]; [by left|right..]; by eexists.
Qed.

Lemma same_but_health_withHp pokemon n : same_but_health pokemon (withHp pokemon n).
Proof. right. by eexists. Qed.

Lemma activeIndex_health_only player player' :
  player_health_only player player' → activeIndex player' = activeIndex player.
Proof. intros (Ha & Hs & _). unfold activeIndex. by rewrite Ha, Hs. Qed.

Lemma player_health_only_refl player : player_health_only player player.
Proof.
  split; [done|]. split; [done|].
  destruct (CalcdexPlayer.pokemon player) as [xs|]; [|done].
  split; [done|]. intros i old Hold. exists old.
  split; [done|]. split; [apply same_but_health_refl|done].
Qed.

Lemma player_health_only_trans a b c :
  player_health_only a b → player_health_only b c → player_health_only a c.
Proof.
  intros Hab Hbc. pose proof (activeIndex_health_only _ _ Hab) as Hactive.
  destruct Hab as (Ha & Hs & Hxs), Hbc as (Ha' & Hs' & Hxs').
  split; [congruence|]. split; [congruence|].
  destruct (CalcdexPlayer.pokemon a) as [xs|],
           (CalcdexPlayer.pokemon b) as [ys|],
           (CalcdexPlayer.pokemon c) as [zs|]; try done.
  destruct Hxs as [Hlen Hxs], Hxs' as [Hlen' Hxs'].
  split; [congruence|]. intros i old Hold.
  destruct (Hxs i old Hold) as (mid & Hmid & Hsame & Hrest).
  destruct (Hxs' i mid Hmid) as (new & Hnew & Hsame' & Hrest').
  exists new. split; [done|]. split; [by eapply same_but_health_trans|].
  intros Hne. rewrite Hrest' by by rewrite Hactive. by apply Hrest.
Qed.

Lemma health_only_refl bs : health_only bs bs.
Proof.
  do 3 (split; [done|]). intros k.
  destruct (getPlayer bs k); [apply player_health_only_refl|done].
Qed.

Lemma health_only_trans a b c :
  health_only a b → health_only b c → health_only a c.
Proof.
  intros (Hf & Hg & Hfl & Hk) (Hf' & Hg' & Hfl' & Hk').
  split; [congruence|]. split; [congruence|]. split; [congruence|].
  intros k. specialize (Hk k). specialize (Hk' k).
  destruct (getPlayer a k), (getPlayer b k), (getPlayer c k); try done.
  by eapply player_health_only_trans.
Qed.

(** One assignment of the code, made on a snapshot that is the input up to
    health, leaves a snapshot that is the input up to health. *)
Lemma health_only_write bs cur k player old n :
  health_only bs cur →
  getPlayer bs k = Some player →
  pokemonAt player (activeIndex player) = Some old →
  health_only bs (setPokemon cur k (activeIndex player) (withHp old n)).
Proof.
  intros (Hf & Hg & Hfl & Hk) Hplayer Hold.
  pose proof (Hk k) as Hside. rewrite Hplayer in Hside.
  destruct (getPlayer cur k) as [player'|] eqn:Hplayer'; [|done].
  destruct (pokemonAt_inv _ _ _ Hold) as (xs & Hxs & [Hi Hat]%at_index_Some).
  destruct Hside as (Ha & Hs & Hteam). rewrite Hxs in Hteam.
  destruct (CalcdexPlayer.pokemon player') as [xs'|] eqn:Hxs'; [|done].
  destruct Hteam as [Hlen Hteam].
  unfold setPokemon, health_only. rewrite Hplayer', Hxs'.
  destruct (setPlayer_fields cur k
              (CalcdexPlayer.mk (CalcdexPlayer.activeIndices player')
                 (CalcdexPlayer.selectionIndex player')
                 (Some (set_index xs' (activeIndex player) (withHp old n)))))
    as (-> & -> & ->).
  do 3 (split; [done|]). intros k'. rewrite getPlayer_setPlayer.
  destruct (decide (k = k')) as [<-|Hne]; [|apply Hk].
  rewrite Hplayer. split; [done|]. split; [done|]. cbn. rewrite Hxs.
  unfold set_index. split; [by rewrite length_insert|].
  intros i old' Hold'.
  destruct (decide (i = Z.to_nat (activeIndex player))) as [->|Hother].
  - exists (withHp old n). rewrite Hat in Hold'. simplify_eq.
    split; [|split].
    + apply list_lookup_insert_eq. rewrite Hlen. by eapply lookup_lt_Some.
    + apply same_but_health_withHp.
    + intros Hne. lia.
  - rewrite list_lookup_insert_ne by done. by apply Hteam.
Qed.

(** *** Health stays between zero and the maximum *)

Lemma healthy_written old n : healthy old → written old n → healthy (withHp old n).
Proof.
  unfold healthy. intros Hold Hn.
  change (maxHealthOf (withHp old n)) with (maxHealthOf old).
  rewrite healthOf_withHp. destruct Hn; lia.
Qed.

Lemma all_healthy_active bs k player old :
  all_healthy bs → getPlayer bs k = Some player →
  pokemonAt player (activeIndex player) = Some old → healthy old.
Proof.
  intros Hall Hplayer Hold.
  destruct (pokemonAt_inv _ _ _ Hold) as (xs & Hxs & [_ Hat]%at_index_Some).
  eapply Forall_lookup_1; [by eapply Hall|done].
Qed.

Lemma all_healthy_write cur k i new :
  all_healthy cur → healthy new → all_healthy (setPokemon cur k i new).
Proof.
  intros Hall Hnew k' player' xs'. unfold setPokemon.
  destruct (getPlayer cur k) as [player|] eqn:Hplayer; [|apply Hall].
  destruct (CalcdexPlayer.pokemon player) as [xs|] eqn:Hxs; [|apply Hall].
  rewrite getPlayer_setPlayer.
  destruct (decide (k = k')) as [<-|Hne]; [|apply Hall].
  intros [= <-]. cbn. intros [= <-]. unfold set_index.
  apply Forall_insert; [by eapply Hall|done].
Qed.


(** *** The exits of an application *)

Lemma damageBlock_exits dexMove matchupResult key index pokemon bs parts :
  match damageBlock dexMove matchupResult key index pokemon (bs, parts) with
  | Return r =>
      MoveEffectApplicationResult.battleState r
        = setPokemon bs key index (withHp pokemon 0) ∧
      MoveEffectApplicationResult.targetFainted r = true ∧
      MoveEffectApplicationResult.userFainted r = false ∧
      MoveEffectApplicationResult.errors r = None ∧
      is_Some (presentDamageRange matchupResult)
  | Continue (cur, _) =>
      cur = bs ∨
      ∃ n, cur = setPokemon bs key index (withHp pokemon n) ∧
           is_Some (presentDamageRange matchupResult)
  end.
Proof.
  unfold damageBlock.
  destruct (bool_decide (DexMove.category dexMove ≠ Status)); [|by left].
  destruct (presentDamageRange matchupResult) as [d|]; [|by left].
  destruct (0 <? damageOf d); [|by left].
  destruct (Z.eqb_spec (Z.max 0 (default 100 (CalcdexPokemon.hp pokemon) - damageOf d)) 0)
    as [->|_]; cbn; [done|]. right. by eexists.
Qed.

Lemma recoilBlock_exits dexMove matchupResult key index pokemon bs parts :
  match recoilBlock dexMove matchupResult key index pokemon (bs, parts) with
  | Return r =>
      MoveEffectApplicationResult.battleState r
        = setPokemon bs key index (withHp pokemon 0) ∧
      MoveEffectApplicationResult.targetFainted r = false ∧
      MoveEffectApplicationResult.userFainted r = true ∧
      MoveEffectApplicationResult.errors r = None ∧
      is_Some (presentDamageRange matchupResult)
  | Continue (cur, _) =>
      cur = bs ∨
      ∃ n, cur = setPokemon bs key index (withHp pokemon n) ∧
           is_Some (presentDamageRange matchupResult)
  end.
Proof.
  unfold recoilBlock.
  destruct (DexMove.recoil dexMove) as [[num den]|]; [|by left].
  destruct (presentDamageRange matchupResult) as [d|]; [|by left].
  destruct (0 <? num); [|by left].
  match goal with |- context [?x =? 0] => destruct (Z.eqb_spec x 0) as [->|_] end;
    cbn; [done|]. right. by eexists.
Qed.

Lemma drainBlock_exits dexMove matchupResult key index pokemon bs parts :
  let cur := (drainBlock dexMove matchupResult key index pokemon (bs, parts)).1 in
  cur = bs ∨
  ∃ n, cur = setPokemon bs key index (withHp pokemon n) ∧
       is_Some (presentDamageRange matchupResult).
Proof.
  unfold drainBlock.
  destruct (DexMove.drain dexMove) as [[num den]|]; [|by left].
  destruct (presentDamageRange matchupResult) as [d|]; [|by left].
  destruct (0 <? num); [|by left].
  right. by eexists.
Qed.

(** Reading back the combatant in play after one assignment of the code. *)
Lemma activePokemon_written bs cur k player old new :
  health_only bs cur →
  getPlayer bs k = Some player →
  pokemonAt player (activeIndex player) = Some old →
  activePokemon (setPokemon cur k (activeIndex player) new) k = Some new.
Proof.
  intros (_ & _ & _ & Hk) Hplayer Hold.
  specialize (Hk k). rewrite Hplayer in Hk.
  destruct (getPlayer cur k) as [player'|] eqn:Hplayer'; [|done].
  pose proof (activeIndex_health_only _ _ Hk) as Hactive.
  destruct (pokemonAt_inv _ _ _ Hold) as (xs & Hxs & [Hi Hat]%at_index_Some).
  destruct Hk as (_ & _ & Hteam). rewrite Hxs in Hteam.
  destruct (CalcdexPlayer.pokemon player') as [xs'|] eqn:Hxs'; [|done].
  destruct Hteam as [_ Hteam].
  destruct (Hteam _ _ Hat) as (old' & Hold' & _).
  rewrite <- Hactive.
  apply (activePokemon_setPokemon_same cur k player' old'); [done|].
  unfold pokemonAt. rewrite Hxs'. cbn. unfold at_index.
  rewrite Hactive. by destruct (Z.ltb_spec (activeIndex player) 0); [lia|].
Qed.

Section EffectOutcomes.

Variable dexMoves : option FormatArg → MoveName → option DexMove.t.
Variable bs : CalcdexBattleState.t.
Variables userKey targetKey : CalcdexPlayerKey.
Variable move : MoveName.
Variable matchupResult : option CalcdexMatchupResult.t.
Variable format : option FormatArg.

Let result :=
  applyMoveEffects dexMoves bs userKey targetKey move matchupResult format.

(** X4.  An application reports an error exactly when a side is missing, a
    side has no combatant in play, or the move is not in the dex.  It then
    reports one message, and returns the snapshot as it was, with both
    faint flags false and no description. *)
Theorem applyMoveEffects_error_exits :
  (MoveEffectApplicationResult.errors result = None ↔
   is_Some (activePokemon bs userKey) ∧ is_Some (activePokemon bs targetKey) ∧
   is_Some (dexMoves format move)) ∧
  (MoveEffectApplicationResult.errors result ≠ None →
   (∃ message,
      MoveEffectApplicationResult.errors result = Some [message] ∧
      message ∈ ["Invalid player keys"; "Invalid Pokemon";
                 "Move " +:+ move +:+ " not found in dex"]) ∧
   MoveEffectApplicationResult.battleState result = bs ∧
   MoveEffectApplicationResult.targetFainted result = false ∧
   MoveEffectApplicationResult.userFainted result = false ∧
   MoveEffectApplicationResult.description result = None).
Proof.
  unfold result, applyMoveEffects, cloneBattleState, activePokemon.
  destruct (getPlayer bs userKey) as [userPlayer|]; cbn [mbind option_bind];
    [|split; [split; [done|by intros ([? ?] & _)]|];
      intros _; split; [eexists; split; [done|set_solver]|done]].
  destruct (getPlayer bs targetKey) as [targetPlayer|]; cbn [mbind option_bind];
    [|split; [split; [done|by intros (_ & [? ?] & _)]|];
      intros _; split; [eexists; split; [done|set_solver]|done]].
  destruct (pokemonAt userPlayer _) as [userPokemon|]; cbn [mbind option_bind];
    [|split; [split; [done|by intros ([? ?] & _)]|];
      intros _; split; [eexists; split; [done|set_solver]|done]].
  destruct (pokemonAt targetPlayer _) as [targetPokemon|]; cbn [mbind option_bind];
    [|split; [split; [done|by intros (_ & [? ?] & _)]|];
      intros _; split; [eexists; split; [done|set_solver]|done]].
  destruct (dexMoves format move) as [dexMove|]; cbn [mbind option_bind];
    [|split; [split; [done|by intros (_ & _ & [? ?])]|];
      intros _; split; [eexists; split; [done|set_solver]|done]].
  match goal with |- context [damageBlock ?a ?b ?c ?d ?e (?f, ?g)] =>
    pose proof (damageBlock_exits a b c d e f g) as Hdamage;
    destruct (damageBlock a b c d e (f, g)) as [r|[cur parts]]
  end.
  { destruct Hdamage as (_ & _ & _ & -> & _). by repeat split; eauto. }
  match goal with |- context [recoilBlock ?a ?b ?c ?d ?e (?f, ?g)] =>
    pose proof (recoilBlock_exits a b c d e f g) as Hrecoil;
    destruct (recoilBlock a b c d e (f, g)) as [r|[cur' parts']]
  end.
  { destruct Hrecoil as (_ & _ & _ & -> & _). by repeat split; eauto. }
  destruct (drainBlock _ _ _ _ _ _) as [cur'' parts'']. cbn.
  by repeat split; eauto.
Qed.

(** X5.  All three effects are guarded by the damage range: when the matchup
    has none (no matchup, no range, or the number 0), an application
    returns the snapshot as it was and reports no faint, whatever the move
    is. *)
Theorem applyMoveEffects_without_damage_range :
  presentDamageRange matchupResult = None →
  MoveEffectApplicationResult.battleState result = bs ∧
  MoveEffectApplicationResult.targetFainted result = false ∧
  MoveEffectApplicationResult.userFainted result = false.
Proof.
  intros Hnone. unfold result, applyMoveEffects, cloneBattleState.
  destruct (getPlayer bs userKey) as [userPlayer|]; [|done].
  destruct (getPlayer bs targetKey) as [targetPlayer|]; [|done].
  destruct (pokemonAt userPlayer _) as [userPokemon|]; [|done].
  destruct (pokemonAt targetPlayer _) as [targetPokemon|]; [|done].
  destruct (dexMoves format move) as [dexMove|]; [|done].
  unfold damageBlock, recoilBlock, drainBlock. rewrite Hnone.
  destruct (bool_decide _), (DexMove.recoil dexMove) as [[? ?]|],
           (DexMove.drain dexMove) as [[? ?]|]; done.
Qed.

(** X6.  The two faint flags are never both set, and a set flag is backed by
    the returned snapshot: the combatant it speaks of is in play there
    with health 0. *)
Theorem applyMoveEffects_faint_flags :
  (MoveEffectApplicationResult.targetFainted result = true →
   MoveEffectApplicationResult.userFainted result = false ∧
   healthOf <$> activePokemon (MoveEffectApplicationResult.battleState result)
                  targetKey = Some 0) ∧
  (MoveEffectApplicationResult.userFainted result = true →
   MoveEffectApplicationResult.targetFainted result = false ∧
   healthOf <$> activePokemon (MoveEffectApplicationResult.battleState result)
                  userKey = Some 0).
Proof.
  unfold result, applyMoveEffects, cloneBattleState.
  destruct (getPlayer bs userKey) as [userPlayer|] eqn:Huser; [|done].
  destruct (getPlayer bs targetKey) as [targetPlayer|] eqn:Htarget; [|done].
  destruct (pokemonAt userPlayer _) as [userPokemon|] eqn:HuserAt; [|done].
  destruct (pokemonAt targetPlayer _) as [targetPokemon|] eqn:HtargetAt; [|done].
  destruct (dexMoves format move) as [dexMove|]; [|done].
  match goal with |- context [damageBlock ?a ?b ?c ?d ?e (?f, ?g)] =>
    pose proof (damageBlock_exits a b c d e f g) as Hdamage;
    destruct (damageBlock a b c d e (f, g)) as [r|[cur parts]]
  end.
  { destruct Hdamage as (-> & -> & -> & _). split; [|done]. intros _.
    split; [done|].
    rewrite (activePokemon_written bs bs targetKey targetPlayer targetPokemon);
      [done|apply health_only_refl|done|done]. }
  assert (health_only bs cur) as Hcur.
  { destruct Hdamage as [->|(n & -> & _)]; [apply health_only_refl|].
    apply health_only_write; [apply health_only_refl|done|done]. }
  match goal with |- context [recoilBlock ?a ?b ?c ?d ?e (?f, ?g)] =>
    pose proof (recoilBlock_exits a b c d e f g) as Hrecoil;
    destruct (recoilBlock a b c d e (f, g)) as [r|[cur' parts']]
  end.
  { destruct Hrecoil as (-> & -> & -> & _). split; [done|]. intros _.
    split; [done|].
    rewrite (activePokemon_written bs cur userKey userPlayer userPokemon);
      done. }
  by destruct (drainBlock _ _ _ _ _ _).
Qed.

End EffectOutcomes.

(** ** Whole turns *)

Section OrderKeys.

Variable dexMoves : option FormatArg → MoveName → option DexMove.t.
Variable calcPokemonFinalStats :
  FormatArg → CalcdexPokemon.t → CalcdexPokemon.t →
  option CalcdexPlayer.t → option CalcdexPlayer.t →
  option CalcdexBattleField.t → option (list CalcdexPlayer.t) → option Z.
Variable Math_random : Q.

(** The two keys and the two moves of an order decision are those of the
    two arguments, one way round or the other; the recorded priorities do
    not rise from first to second, and at equal priorities the recorded
    speeds are in the order the field asks for. *)
Lemma determineMoveOrder_sides format p1Pokemon p2Pokemon p1Move p2Move
    p1Player p2Player field allPlayers :
  let o := determineMoveOrder dexMoves calcPokemonFinalStats Math_random format
             p1Pokemon p2Pokemon p1Move p2Move p1Player p2Player field
             allPlayers in
  let p1Key := default p1 (CalcdexPokemon.playerKey p1Pokemon) in
  let p2Key := default p2 (CalcdexPokemon.playerKey p2Pokemon) in
  ((MoveOrderInfo.firstPlayerKey o = p1Key ∧ MoveOrderInfo.secondPlayerKey o = p2Key ∧
    MoveOrderInfo.firstMove o = p1Move ∧ MoveOrderInfo.secondMove o = p2Move) ∨
   (MoveOrderInfo.firstPlayerKey o = p2Key ∧ MoveOrderInfo.secondPlayerKey o = p1Key ∧
    MoveOrderInfo.firstMove o = p2Move ∧ MoveOrderInfo.secondMove o = p1Move)) ∧
  MoveOrderInfo.secondPriority o ≤ MoveOrderInfo.firstPriority o ∧
  (MoveOrderInfo.firstPriority o = MoveOrderInfo.secondPriority o →
   if default false (field ≫= CalcdexBattleField.isTrickRoom)
   then MoveOrderInfo.firstSpeed o ≤ MoveOrderInfo.secondSpeed o
   else MoveOrderInfo.secondSpeed o ≤ MoveOrderInfo.firstSpeed o).
Proof.
  cbv zeta. unfold determineMoveOrder.
  set (p1Priority := default 0 (dexMoves (Some format) p1Move ≫= DexMove.priority)).
  set (p2Priority := default 0 (dexMoves (Some format) p2Move ≫= DexMove.priority)).
  set (p1Speed := default 0 (calcPokemonFinalStats format p1Pokemon p2Pokemon _ _ _ _)).
  set (p2Speed := default 0 (calcPokemonFinalStats format p2Pokemon p1Pokemon _ _ _ _)).
  destruct (Z.eqb_spec p1Priority p2Priority) as [Hprio|Hprio]; cbn.
  - destruct (Z.eqb_spec p1Speed p2Speed) as [Hspeed|Hspeed].
    + destruct (Qlt_le_dec Math_random (1 # 2)); cbn;
        (split; [auto 10|]); (split; [lia|]); intros _;
        destruct (default false _); lia.
    + destruct (default false _).
      * destruct (Z.ltb_spec p1Speed p2Speed); cbn;
          (split; [auto 10|]); (split; [lia|]); intros _; lia.
      * destruct (Z.ltb_spec p2Speed p1Speed); cbn;
          (split; [auto 10|]); (split; [lia|]); intros _; lia.
  - destruct (Z.ltb_spec p2Priority p1Priority); cbn;
      (split; [auto 10|]); (split; [lia|]); intros Heq; lia.
Qed.

End OrderKeys.

Lemma health_only_side bs cur k :
  health_only bs cur → is_Some (getPlayer bs k) → is_Some (getPlayer cur k).
Proof.
  intros (_ & _ & _ & Hk) [player Hplayer]. specialize (Hk k).
  rewrite Hplayer in Hk. by destruct (getPlayer cur k).
Qed.

Section TurnFacts.

Variable dexMoves : option FormatArg → MoveName → option DexMove.t.
Variable calcPokemonFinalStats :
  FormatArg → CalcdexPokemon.t → CalcdexPokemon.t →
  option CalcdexPlayer.t → option CalcdexPlayer.t →
  option CalcdexBattleField.t → option (list CalcdexPlayer.t) → option Z.
Variable Math_random : Q.
Variable calcSmogonMatchup :
  FormatArg → string →
  option CalcdexPokemon.t → option CalcdexPokemon.t → MoveName →
  CalcdexPlayer.t → CalcdexPlayer.t → list CalcdexPlayer.t →
  CalcdexBattleField.t → option CalcdexMatchupResult.t.

Variable bs : CalcdexBattleState.t.
Variables playerKey opponentKey : CalcdexPlayerKey.
Variables playerMove opponentMove : MoveName.
Variable format : option FormatArg.

Let turn :=
  simulateTurn dexMoves calcPokemonFinalStats Math_random calcSmogonMatchup
    bs playerKey opponentKey playerMove opponentMove format.

(** The snapshot of a returned turn is the input after no, one or two
    applications. *)
Lemma simulateTurn_states (Q : CalcdexBattleState.t → Prop) :
  Q bs →
  (∀ cur userKey targetKey move matchupResult effectFormat,
     Q cur →
     Q (MoveEffectApplicationResult.battleState
          (applyMoveEffects dexMoves cur userKey targetKey move matchupResult
             effectFormat))) →
  ∀ t, turn = Returns t → Q (TurnSimulationResult.battleState t).
Proof.
  intros Hstart Hstep t. unfold turn, simulateTurn, cloneBattleState.
  destruct (getPlayer bs playerKey) as [player|]; [|by intros [= <-]].
  destruct (getPlayer bs opponentKey) as [opponent|]; [|by intros [= <-]].
  destruct (pokemonAt player _) as [playerPokemon|]; [|by intros [= <-]].
  destruct (pokemonAt opponent _) as [opponentPokemon|]; [|by intros [= <-]].
  cbv zeta. set (moveOrder := determineMoveOrder _ _ _ _ _ _ _ _ _ _ _ _).
  destruct (getPlayer bs (MoveOrderInfo.firstPlayerKey moveOrder))
    as [firstMoveUser|]; [|done].
  destruct (getPlayer bs (MoveOrderInfo.secondPlayerKey moveOrder))
    as [firstMoveTarget|]; [|done].
  set (firstMoveResult := applyMoveEffects _ bs _ _ _ _ _).
  assert (Q (MoveEffectApplicationResult.battleState firstMoveResult)) as Hfirst
    by by apply Hstep.
  destruct (MoveEffectApplicationResult.targetFainted firstMoveResult);
    [by intros [= <-]|].
  destruct (MoveEffectApplicationResult.userFainted firstMoveResult);
    [by intros [= <-]|].
  destruct (getPlayer _ (MoveOrderInfo.secondPlayerKey moveOrder))
    as [secondMoveUser|]; [|done].
  destruct (getPlayer _ (MoveOrderInfo.firstPlayerKey moveOrder))
    as [secondMoveTarget|]; [|done].
  intros [= <-]. cbn. by apply Hstep.
Qed.

(** X7.  Whatever the arguments, the snapshot [applyMoveEffects] returns, and
    the snapshot of every turn [simulateTurn] returns, is the input up to
    health: format, game type and field are the same, every side is there
    with the same indices and a team of the same size, every Pokemon keeps
    every property but [hp] and [dirtyHp], which are set together, and every
    Pokemon that is not its side's combatant in play is untouched. *)
Theorem simulation_changes_health_only :
  (∀ userKey targetKey move matchupResult effectFormat,
     health_only bs
       (MoveEffectApplicationResult.battleState
          (applyMoveEffects dexMoves bs userKey targetKey move matchupResult
             effectFormat))) ∧
  (∀ t, turn = Returns t → health_only bs (TurnSimulationResult.battleState t)).
Proof.
  assert (∀ cur userKey targetKey move matchupResult effectFormat,
    health_only cur
      (MoveEffectApplicationResult.battleState
         (applyMoveEffects dexMoves cur userKey targetKey move matchupResult
            effectFormat))) as Hstep.
  { intros cur *. apply applyMoveEffects_writes with (P := health_only cur).
    - apply health_only_refl.
    - intros cur' k player old n Hcur Hplayer Hold _.
      by apply health_only_write. }
  split; [apply Hstep|].
  apply simulateTurn_states; [apply health_only_refl|].
  intros cur * Hcur. eapply health_only_trans; [exact Hcur|apply Hstep].
Qed.

(** X8.  When every Pokemon of the input has its health between zero and its
    maximum (with the code's defaults of 100 for a missing value), so has
    every Pokemon of the snapshot [applyMoveEffects] returns and of the
    snapshot of every turn [simulateTurn] returns. *)
Theorem simulation_keeps_health_in_range :
  all_healthy bs →
  (∀ userKey targetKey move matchupResult effectFormat,
     all_healthy
       (MoveEffectApplicationResult.battleState
          (applyMoveEffects dexMoves bs userKey targetKey move matchupResult
             effectFormat))) ∧
  (∀ t, turn = Returns t → all_healthy (TurnSimulationResult.battleState t)).
Proof.
  assert (∀ cur userKey targetKey move matchupResult effectFormat,
    all_healthy cur →
    all_healthy
      (MoveEffectApplicationResult.battleState
         (applyMoveEffects dexMoves cur userKey targetKey move matchupResult
            effectFormat))) as Hstep.
  { intros cur * Hall.
    apply applyMoveEffects_writes with (P := all_healthy); [done|].
    intros cur' k player old n Hcur Hplayer Hold Hn.
    apply all_healthy_write; [done|].
    apply healthy_written; [|done]. by apply (all_healthy_active cur k player). }
  intros Hall. split; [intros; by apply Hstep|].
  apply simulateTurn_states; [done|]. intros cur * Hcur. by apply Hstep.
Qed.

(** An application keeps every side of its input. *)
Lemma applyMoveEffects_side cur userKey targetKey move matchupResult
    effectFormat k :
  is_Some (getPlayer cur k) →
  is_Some (getPlayer
             (MoveEffectApplicationResult.battleState
                (applyMoveEffects dexMoves cur userKey targetKey move
                   matchupResult effectFormat)) k).
Proof.
  apply health_only_side.
  apply applyMoveEffects_writes with (P := health_only cur).
  - apply health_only_refl.
  - intros cur' k' player old n Hcur Hplayer Hold _.
    by apply health_only_write.
Qed.

(** X9.  [simulateTurn] finds the acting sides under the keys the two Pokemon
    carry, not under the keys it was called with.  When each combatant in
    play carries the key of its own side, every lookup succeeds and the
    call returns a turn: it does not throw. *)
Theorem simulateTurn_returns_with_own_keys :
  activePokemon bs playerKey ≫= CalcdexPokemon.playerKey = Some playerKey →
  activePokemon bs opponentKey ≫= CalcdexPokemon.playerKey = Some opponentKey →
  ∃ t, turn = Returns t.
Proof.
  unfold activePokemon, turn, simulateTurn, cloneBattleState.
  destruct (getPlayer bs playerKey) as [player|] eqn:Hplayer; [|done].
  destruct (getPlayer bs opponentKey) as [opponent|] eqn:Hopponent; [|done].
  cbn [mbind option_bind].
  destruct (pokemonAt player _) as [playerPokemon|]; [|done].
  destruct (pokemonAt opponent _) as [opponentPokemon|]; [|done].
  cbn [mbind option_bind]. intros HplayerKey HopponentKey. cbv zeta.
  match goal with |- context [determineMoveOrder ?a ?b ?c ?d ?e ?f ?g ?h ?i ?j ?k ?l] =>
    destruct (determineMoveOrder_sides a b c d e f g h i j k l) as [Hsides _];
    set (moveOrder := determineMoveOrder a b c d e f g h i j k l) in *
  end.
  cbv zeta in Hsides. rewrite HplayerKey, HopponentKey in Hsides. cbn in Hsides.
  assert (is_Some (getPlayer bs (MoveOrderInfo.firstPlayerKey moveOrder)) ∧
          is_Some (getPlayer bs (MoveOrderInfo.secondPlayerKey moveOrder)))
    as [Hfirst Hsecond].
  { destruct Hsides as [(-> & -> & _)|(-> & -> & _)]; by rewrite Hplayer, Hopponent. }
  destruct Hfirst as [firstMoveUser HfirstUser].
  destruct Hsecond as [firstMoveTarget HfirstTarget].
  rewrite HfirstUser, HfirstTarget.
  set (firstMoveResult := applyMoveEffects _ bs _ _ _ _ _).
  destruct (MoveEffectApplicationResult.targetFainted firstMoveResult);
    [by eexists|].
  destruct (MoveEffectApplicationResult.userFainted firstMoveResult);
    [by eexists|].
  destruct (applyMoveEffects_side bs (MoveOrderInfo.firstPlayerKey moveOrder)
              (MoveOrderInfo.secondPlayerKey moveOrder)
              (MoveOrderInfo.firstMove moveOrder)
              (calcSmogonMatchup (formatOr format bs)
                 (CalcdexBattleState.gameType bs)
                 (pokemonAt firstMoveUser (activeIndex firstMoveUser))
                 (pokemonAt firstMoveTarget (activeIndex firstMoveTarget))
                 (MoveOrderInfo.firstMove moveOrder) firstMoveUser
                 firstMoveTarget [firstMoveUser; firstMoveTarget]
                 (CalcdexBattleState.field bs))
              (Some (formatOr format bs))
              (MoveOrderInfo.secondPlayerKey moveOrder))
    as [secondMoveUser HsecondUser]; [by rewrite HfirstTarget|].
  destruct (applyMoveEffects_side bs (MoveOrderInfo.firstPlayerKey moveOrder)
              (MoveOrderInfo.secondPlayerKey moveOrder)
              (MoveOrderInfo.firstMove moveOrder)
              (calcSmogonMatchup (formatOr format bs)
                 (CalcdexBattleState.gameType bs)
                 (pokemonAt firstMoveUser (activeIndex firstMoveUser))
                 (pokemonAt firstMoveTarget (activeIndex firstMoveTarget))
                 (MoveOrderInfo.firstMove moveOrder) firstMoveUser
                 firstMoveTarget [firstMoveUser; firstMoveTarget]
                 (CalcdexBattleState.field bs))
              (Some (formatOr format bs))
              (MoveOrderInfo.firstPlayerKey moveOrder))
    as [secondMoveTarget HsecondTarget]; [by rewrite HfirstUser|].
  fold firstMoveResult in HsecondUser, HsecondTarget.
  rewrite HsecondUser, HsecondTarget. by eexists.
Qed.

(** X10.  A turn that fails its checks on entry returns at once: when a side is
    missing or has no combatant in play, the call returns the snapshot as
    it was, no move result and one message; and a returned turn has no move
    result only in that case. *)
Theorem simulateTurn_entry_checks :
  (activePokemon bs playerKey = None ∨ activePokemon bs opponentKey = None →
   ∃ message,
     turn = Returns {| TurnSimulationResult.battleState := bs;
                       TurnSimulationResult.moveResults := [];
                       TurnSimulationResult.errors := Some [message] |} ∧
     message ∈ ["Invalid player keys"; "No active Pokemon"]) ∧
  (∀ t, turn = Returns t → TurnSimulationResult.moveResults t = [] →
        activePokemon bs playerKey = None ∨ activePokemon bs opponentKey = None).
Proof.
  unfold activePokemon, turn, simulateTurn, cloneBattleState.
  destruct (getPlayer bs playerKey) as [player|]; cbn [mbind option_bind];
    [|split; [intros _; eexists; split; [done|set_solver]|auto]].
  destruct (getPlayer bs opponentKey) as [opponent|]; cbn [mbind option_bind];
    [|split; [intros _; eexists; split; [done|set_solver]|auto]].
  destruct (pokemonAt player _) as [playerPokemon|];
    [|split; [intros _; eexists; split; [done|set_solver]|auto]].
  destruct (pokemonAt opponent _) as [opponentPokemon|];
    [|split; [intros _; eexists; split; [done|set_solver]|auto]].
  split; [by intros [|]|]. intros t. cbv zeta.
  set (moveOrder := determineMoveOrder _ _ _ _ _ _ _ _ _ _ _ _).
  destruct (getPlayer bs (MoveOrderInfo.firstPlayerKey moveOrder)); [|done].
  destruct (getPlayer bs (MoveOrderInfo.secondPlayerKey moveOrder)); [|done].
  set (firstMoveResult := applyMoveEffects _ bs _ _ _ _ _).
  destruct (MoveEffectApplicationResult.targetFainted firstMoveResult);
    [by intros [= <-]|].
  destruct (MoveEffectApplicationResult.userFainted firstMoveResult);
    [by intros [= <-]|].
  destruct (getPlayer _ (MoveOrderInfo.secondPlayerKey moveOrder)); [|done].
  destruct (getPlayer _ (MoveOrderInfo.firstPlayerKey moveOrder)); [|done].
  by intros [= <-].
Qed.

(** X11.  The move results of a returned turn are in the order of execution.
    There are at most two; the first is marked as moving first and the
    second as not; the two carry the two selected moves, one each; the
    priority does not rise from the first to the second; and at equal
    priorities the effective speed does not rise either, or does not fall
    while the field of the input has Trick Room. *)
Theorem simulateTurn_results_in_order t :
  turn = Returns t →
  match TurnSimulationResult.moveResults t with
  | [] => True
  | [m] =>
      PlayAheadMoveResult.movesFirst m = true ∧
      (PlayAheadMoveResult.move m = playerMove ∨
       PlayAheadMoveResult.move m = opponentMove)
  | [m1; m2] =>
      PlayAheadMoveResult.movesFirst m1 = true ∧
      PlayAheadMoveResult.movesFirst m2 = false ∧
      ((PlayAheadMoveResult.move m1 = playerMove ∧
        PlayAheadMoveResult.move m2 = opponentMove) ∨
       (PlayAheadMoveResult.move m1 = opponentMove ∧
        PlayAheadMoveResult.move m2 = playerMove)) ∧
      PlayAheadMoveResult.priority m2 ≤ PlayAheadMoveResult.priority m1 ∧
      (PlayAheadMoveResult.priority m1 = PlayAheadMoveResult.priority m2 →
       if default false
            (CalcdexBattleField.isTrickRoom (CalcdexBattleState.field bs))
       then PlayAheadMoveResult.effectiveSpeed m1
            ≤ PlayAheadMoveResult.effectiveSpeed m2
       else PlayAheadMoveResult.effectiveSpeed m2
            ≤ PlayAheadMoveResult.effectiveSpeed m1)
  | _ => False
  end.
Proof.
  unfold turn, simulateTurn, cloneBattleState.
  destruct (getPlayer bs playerKey) as [player|]; [|by intros [= <-]].
  destruct (getPlayer bs opponentKey) as [opponent|]; [|by intros [= <-]].
  destruct (pokemonAt player _) as [playerPokemon|]; [|by intros [= <-]].
  destruct (pokemonAt opponent _) as [opponentPokemon|]; [|by intros [= <-]].
  cbv zeta.
  match goal with |- context [determineMoveOrder ?a ?b ?c ?d ?e ?f ?g ?h ?i ?j ?k ?l] =>
    destruct (determineMoveOrder_sides a b c d e f g h i j k l)
      as (Hsides & Hpriority & Hspeed);
    set (moveOrder := determineMoveOrder a b c d e f g h i j k l) in *
  end.
  cbv zeta in Hsides. cbn [mbind option_bind] in Hspeed.
  destruct (getPlayer bs (MoveOrderInfo.firstPlayerKey moveOrder)); [|done].
  destruct (getPlayer bs (MoveOrderInfo.secondPlayerKey moveOrder)); [|done].
  set (firstMoveResult := applyMoveEffects _ bs _ _ _ _ _).
  assert (MoveOrderInfo.firstMove moveOrder = playerMove ∨
          MoveOrderInfo.firstMove moveOrder = opponentMove) as Hone
    by (destruct Hsides as [(_ & _ & -> & _)|(_ & _ & -> & _)]; auto).
  assert ((MoveOrderInfo.firstMove moveOrder = playerMove ∧
           MoveOrderInfo.secondMove moveOrder = opponentMove) ∨
          (MoveOrderInfo.firstMove moveOrder = opponentMove ∧
           MoveOrderInfo.secondMove moveOrder = playerMove)) as Hboth
    by (destruct Hsides as [(_ & _ & -> & ->)|(_ & _ & -> & ->)]; auto).
  destruct (MoveEffectApplicationResult.targetFainted firstMoveResult);
    [by intros [= <-]|].
  destruct (MoveEffectApplicationResult.userFainted firstMoveResult);
    [by intros [= <-]|].
  destruct (getPlayer _ (MoveOrderInfo.secondPlayerKey moveOrder)); [|done].
  destruct (getPlayer _ (MoveOrderInfo.firstPlayerKey moveOrder)); [|done].
  intros [= <-]. cbn. auto 10.
Qed.

(** X12.  A move result is filed under the key its Pokemon carries, which need
    not be the key [simulateTurn] was called with: each result of a
    returned turn pairs the player's move with the key of the player's
    combatant ([playerKey] or, failing that, 'p1'), or the opponent's move
    with the key of the opponent's combatant (or 'p2'). *)
Theorem simulateTurn_files_results_by_carried_key t playerPokemon opponentPokemon :
  turn = Returns t →
  activePokemon bs playerKey = Some playerPokemon →
  activePokemon bs opponentKey = Some opponentPokemon →
  Forall (λ m,
            (PlayAheadMoveResult.playerKey m
               = default p1 (CalcdexPokemon.playerKey playerPokemon) ∧
             PlayAheadMoveResult.move m = playerMove) ∨
            (PlayAheadMoveResult.playerKey m
               = default p2 (CalcdexPokemon.playerKey opponentPokemon) ∧
             PlayAheadMoveResult.move m = opponentMove))
         (TurnSimulationResult.moveResults t).
Proof.
  intros Hturn Hplayer Hopponent. revert Hturn.
  unfold activePokemon in Hplayer, Hopponent.
  unfold turn, simulateTurn, cloneBattleState.
  destruct (getPlayer bs playerKey) as [player|]; [|done].
  destruct (getPlayer bs opponentKey) as [opponent|]; [|done].
  cbn [mbind option_bind] in Hplayer, Hopponent.
  rewrite Hplayer, Hopponent. cbv zeta.
  match goal with |- context [determineMoveOrder ?a ?b ?c ?d ?e ?f ?g ?h ?i ?j ?k ?l] =>
    destruct (determineMoveOrder_sides a b c d e f g h i j k l) as [Hsides _];
    set (moveOrder := determineMoveOrder a b c d e f g h i j k l) in *
  end.
  cbv zeta in Hsides.
  destruct (getPlayer bs (MoveOrderInfo.firstPlayerKey moveOrder)); [|done].
  destruct (getPlayer bs (MoveOrderInfo.secondPlayerKey moveOrder)); [|done].
  set (firstMoveResult := applyMoveEffects _ bs _ _ _ _ _).
  destruct (MoveEffectApplicationResult.targetFainted firstMoveResult);
    [intros [= <-]; cbn; apply Forall_cons_2; [|apply Forall_nil_2];
     destruct Hsides as [(-> & _ & -> & _)|(-> & _ & -> & _)]; auto|].
  destruct (MoveEffectApplicationResult.userFainted firstMoveResult);
    [intros [= <-]; cbn; apply Forall_cons_2; [|apply Forall_nil_2];
     destruct Hsides as [(-> & _ & -> & _)|(-> & _ & -> & _)]; auto|].
  destruct (getPlayer _ (MoveOrderInfo.secondPlayerKey moveOrder)); [|done].
  destruct (getPlayer _ (MoveOrderInfo.firstPlayerKey moveOrder)); [|done].
  intros [= <-]. cbn.
  apply Forall_cons_2; [|apply Forall_cons_2; [|apply Forall_nil_2]];
    destruct Hsides as [(H1 & H2 & H3 & H4)|(H1 & H2 & H3 & H4)];
    rewrite ?H1, ?H2, ?H3, ?H4; auto.
Qed.

End TurnFacts.

(** * Further properties of the session store *)

(** ** One reducer at a time *)

Lemma destroy_lookup ids : ∀ (state : PlayAheadSliceState) battleId,
  destroy state ids !! battleId =
  if decide (battleId ∈ ids) then None else state !! battleId.
Proof.
  unfold destroy.
  induction ids as [|id ids IH]; intros state battleId; cbn.
  - by rewrite decide_False by set_solver.
  - rewrite IH.
    destruct (decide (battleId ∈ ids)) as [Hin|Hout].
    + by rewrite decide_True by set_solver.
    + destruct (decide (battleId = id)) as [->|Hne].
      * rewrite decide_True by set_solver.
        destruct (state !! id) eqn:Hid; [apply lookup_delete_eq|done].
      * rewrite decide_False by set_solver.
        destruct (state !! id); [by rewrite lookup_delete_ne|done].
Qed.

Lemma activeSession_inv (state : PlayAheadSliceState) battleId s :
  activeSession state battleId = Some s →
  battleId ≠ "" ∧ state !! battleId = Some s ∧ PlayAheadState.active s = true.
Proof.
  unfold activeSession.
  destruct (truthyString battleId) eqn:Hid; [|done].
  apply truthyString_true in Hid.
  destruct (state !! battleId) as [s'|]; [|done].
  destruct (PlayAheadState.active s') eqn:Hactive; [|done].
  by intros [= <-].
Qed.

Lemma no_active_session_None state battleId :
  no_active_session state battleId → activeSession state battleId = None.
Proof. apply activeSession_None. Qed.

(** X13.  An action leaves the sessions of the battles it does not name as they
    are. *)
Theorem playAheadReducer_other_sessions
    (state : PlayAheadSliceState) (action : PlayAheadAction) (battleId : string) :
  battleId ∉ targets action →
  playAheadReducer state action !! battleId = state !! battleId.
Proof.
  intros Hother.
  destruct action as [id bs|id m|id m|id bs rs|id d|id i|id|id|payload]; cbn in *;
    try (assert (id ≠ battleId) as Hne by set_solver).
  - unfold initSimulation. destruct (truthyString id), bs; try done.
    by rewrite lookup_insert_ne.
  - unfold setPlayerMove. destruct (activeSession state id); [|done].
    by rewrite lookup_insert_ne.
  - unfold setOpponentMove. destruct (activeSession state id); [|done].
    by rewrite lookup_insert_ne.
  - unfold updateSimulatedState. destruct (activeSession state id); [|done].
    by rewrite lookup_insert_ne.
  - unfold addPendingDecision. destruct (activeSession state id); [|done].
    by rewrite lookup_insert_ne.
  - unfold resolvePendingDecision. destruct (activeSession state id); [|done].
    by rewrite lookup_insert_ne.
  - unfold advanceTurn. destruct (activeSession state id); [|done].
    by rewrite lookup_insert_ne.
  - unfold resetSimulation. destruct (truthyString id), (state !! id); try done.
    by rewrite lookup_delete_ne.
  - rewrite destroy_lookup. by rewrite decide_False.
Qed.

(** X14.  An action that has no session to work on changes nothing: selecting a
    move, storing a result, queueing or resolving a decision and advancing
    do nothing for an empty id, an unknown battle or an inactive session;
    starting does nothing for an empty id or without a battle state;
    resetting and destroying do nothing for battles without a session. *)
Theorem playAheadReducer_ignores
    (state : PlayAheadSliceState) (action : PlayAheadAction) :
  (on_session action = true →
   Forall (no_active_session state) (targets action) →
   playAheadReducer state action = state) ∧
  (∀ battleState, initSimulation state "" battleState = state) ∧
  (∀ battleId, initSimulation state battleId None = state) ∧
  (∀ battleId, battleId = "" ∨ state !! battleId = None →
               resetSimulation state battleId = state) ∧
  (∀ battleIds, Forall (λ battleId, state !! battleId = None) battleIds →
                destroy state battleIds = state).
Proof.
  split; [|split; [|split; [|split]]].
  - destruct action as [id bs|id m|id m|id bs rs|id d|id i|id|id|payload];
      try done; cbn; intros _ [Hnone%no_active_session_None _]%Forall_cons.
    + unfold setPlayerMove. by rewrite Hnone.
    + unfold setOpponentMove. by rewrite Hnone.
    + unfold updateSimulatedState. by rewrite Hnone.
    + unfold addPendingDecision. by rewrite Hnone.
    + unfold resolvePendingDecision. by rewrite Hnone.
    + unfold advanceTurn. by rewrite Hnone.
  - done.
  - intros battleId. unfold initSimulation. by destruct (truthyString battleId).
  - intros battleId [->|Hnone]; [done|]. unfold resetSimulation.
    rewrite Hnone. by destruct (truthyString battleId).
  - intros battleIds Hnone. apply map_eq. intros id. rewrite destroy_lookup.
    destruct (decide (id ∈ battleIds)) as [Hin|]; [|done].
    by rewrite (proj1 (Forall_forall _ _) Hnone id Hin).
Qed.

(** X15.  [destroy] removes the sessions of exactly the battles it is given,
    and for one battle with a non-empty id it does what [resetSimulation]
    does. *)
Theorem destroy_removes_named_sessions
    (state : PlayAheadSliceState) (payload : DestroyPayload) :
  (∀ battleId,
     playAheadReducer state (DestroyAction payload) !! battleId =
     if decide (battleId ∈ destroyIds payload) then None
     else state !! battleId) ∧
  (∀ battleId, battleId ≠ "" →
     playAheadReducer state (DestroyAction (OneBattle battleId)) =
     playAheadReducer state (ResetSimulationAction battleId)).
Proof.
  split.
  - intros battleId. apply destroy_lookup.
  - intros battleId Hid%truthyString_true. cbn. unfold resetSimulation.
    by rewrite Hid.
Qed.

(** ** How the reducers compose *)

Lemma activeSession_insert (state : PlayAheadSliceState) battleId s :
  battleId ≠ "" → PlayAheadState.active s = true →
  activeSession (<[battleId := s]> state) battleId = Some s.
Proof.
  intros Hid Hactive. apply activeSession_Some; [done| |done].
  apply lookup_insert_eq.
Qed.

(** X16.  The two selections are independent of each other and the last one
    made for a side is the one that stands: selecting for the player and
    for the opponent gives the same store in either order, and selecting
    twice for one side is selecting the second move once. *)
Theorem selections_compose
    (state : PlayAheadSliceState) (battleId : string) (m1 m2 : MoveName) :
  setOpponentMove (setPlayerMove state battleId m1) battleId m2 =
  setPlayerMove (setOpponentMove state battleId m2) battleId m1 ∧
  setPlayerMove (setPlayerMove state battleId m1) battleId m2 =
  setPlayerMove state battleId m2 ∧
  setOpponentMove (setOpponentMove state battleId m1) battleId m2 =
  setOpponentMove state battleId m2.
Proof.
  unfold setPlayerMove, setOpponentMove.
  destruct (activeSession state battleId) as [s|] eqn:Hs.
  - destruct (activeSession_inv _ _ _ Hs) as (Hid & _ & Hactive).
    rewrite !activeSession_insert by done. cbn.
    by rewrite !insert_insert_eq.
  - by rewrite !Hs.
Qed.

Lemma spliceOne_last {A} (xs : list A) x :
  spliceOne (xs ++ [x]) (Z.of_nat (length xs)) = xs ∧
  spliceOne (xs ++ [x]) (-1) = xs.
Proof.
  unfold spliceOne. rewrite length_app. cbn.
  assert (delete (length xs) (xs ++ [x]) = xs) as Hdelete.
  { induction xs as [|y xs IH]; [done|]. cbn. f_equal. exact IH. }
  split.
  - destruct (Z.ltb_spec (Z.of_nat (length xs)) 0); [lia|].
    replace (Z.to_nat _) with (length xs) by lia. done.
  - cbn. replace (Z.to_nat _) with (length xs) by lia. done.
Qed.

(** X17.  Queueing a decision and then resolving it restores the store: the new
    decision sits at the end of the queue, at the index that was the
    length of the queue, which is also index -1. *)
Theorem pending_decision_round_trip
    (state : PlayAheadSliceState) (battleId : string) (s : PlayAheadState.t)
    (decision : PlayAheadPendingDecision.t) :
  battleId ≠ "" →
  state !! battleId = Some s →
  PlayAheadState.active s = true →
  let queued := addPendingDecision state battleId decision in
  PlayAheadState.pendingDecisions <$> queued !! battleId
    = Some (PlayAheadState.pendingDecisions s ++ [decision]) ∧
  resolvePendingDecision queued battleId
    (Z.of_nat (length (PlayAheadState.pendingDecisions s))) = state ∧
  resolvePendingDecision queued battleId (-1) = state.
Proof.
  intros Hid Hs Hactive queued. unfold queued, addPendingDecision.
  rewrite (activeSession_Some _ _ s) by done.
  split; [by rewrite lookup_insert_eq|].
  unfold resolvePendingDecision. rewrite activeSession_insert by done. cbn.
  destruct (spliceOne_last (PlayAheadState.pendingDecisions s) decision)
    as [-> ->].
  rewrite !insert_insert_eq.
  assert (PlayAheadState.mk (PlayAheadState.battleId s) (PlayAheadState.active s)
            (PlayAheadState.simulatedTurns s) (PlayAheadState.playerMove s)
            (PlayAheadState.opponentMove s)
            (PlayAheadState.simulatedBattleState s)
            (PlayAheadState.turnResults s) (PlayAheadState.pendingDecisions s)
            (PlayAheadState.turnHistory s) (PlayAheadState.errors s) = s)
    as -> by by destruct s.
  by rewrite insert_id.
Qed.

Lemma spliceOne_length {A} (xs : list A) (start : Z) :
  length (spliceOne xs start) =
  if Z.of_nat (length xs) <=? start then length xs else Nat.pred (length xs).
Proof.
  unfold spliceOne.
  rewrite delete_take_drop, length_app, length_take, length_drop.
  destruct (Z.leb_spec (Z.of_nat (length xs)) start),
           (Z.ltb_spec start 0); lia.
Qed.

(** X18.  Resolving removes at most one decision.  An index at or past the end
    of the queue removes nothing; every other index, negative ones
    included, removes exactly one decision when there is one; and an index
    within the queue removes the decision at that index, keeping the
    others in order. *)
Theorem resolvePendingDecision_removes_one
    (state : PlayAheadSliceState) (battleId : string) (s : PlayAheadState.t)
    (decisionIndex : Z) :
  battleId ≠ "" →
  state !! battleId = Some s →
  PlayAheadState.active s = true →
  let queue := PlayAheadState.pendingDecisions s in
  ∃ s',
    resolvePendingDecision state battleId decisionIndex !! battleId = Some s' ∧
    length (PlayAheadState.pendingDecisions s') =
      (if Z.of_nat (length queue) <=? decisionIndex
       then length queue else Nat.pred (length queue)) ∧
    (0 ≤ decisionIndex < Z.of_nat (length queue) →
     PlayAheadState.pendingDecisions s' =
       take (Z.to_nat decisionIndex) queue ++
       drop (S (Z.to_nat decisionIndex)) queue).
Proof.
  intros Hid Hs Hactive queue. unfold resolvePendingDecision.
  rewrite (activeSession_Some _ _ s) by done. rewrite lookup_insert_eq.
  eexists. split; [done|]. cbn. fold queue.
  split; [apply spliceOne_length|]. intros Hin.
  unfold spliceOne. destruct (Z.ltb_spec decisionIndex 0); [lia|].
  rewrite Z.min_l by lia. apply delete_take_drop.
Qed.

(** ** Every store that can be reached *)

Lemma history_in_order_nil turns : history_in_order turns [].
Proof. split; intros *; by rewrite lookup_nil. Qed.

Lemma history_in_order_snoc turns entries entry :
  0 ≤ turns →
  history_in_order turns entries →
  TurnHistoryEntry.turn entry = turns + 1 →
  history_in_order (turns + 1) (entries ++ [entry]).
Proof.
  intros Hturns [Hbound Horder] Hentry. split.
  - intros i e [He|[_ He]]%lookup_app_Some.
    + specialize (Hbound _ _ He). lia.
    + destruct (i - length entries)%nat; [|done]. cbn in He. simplify_eq. lia.
  - intros i j older newer [Ho|[Hi Ho]]%lookup_app_Some
      [Hn|[Hj Hn]]%lookup_app_Some Hlt.
    + by eapply Horder.
    + specialize (Hbound _ _ Ho).
      destruct (j - length entries)%nat; [|done]. cbn in Hn. simplify_eq. lia.
    + apply lookup_lt_Some in Hn. lia.
    + destruct (i - length entries)%nat eqn:Hi', (j - length entries)%nat eqn:Hj';
        try done. lia.
Qed.

Lemma history_in_order_later turns entries :
  history_in_order turns entries → history_in_order (turns + 1) entries.
Proof.
  intros [Hbound Horder]. split; [|done].
  intros i e He. specialize (Hbound _ _ He). lia.
Qed.

Lemma invariant_insert (state : PlayAheadSliceState) battleId s' :
  (∀ id s, state !! id = Some s → session_invariant id s) →
  session_invariant battleId s' →
  ∀ id s, <[battleId := s']> state !! id = Some s → session_invariant id s.
Proof.
  intros Hall Hnew id s. rewrite lookup_insert.
  destruct (decide (battleId = id)) as [<-|_]; [by intros [= <-]|apply Hall].
Qed.

Lemma playAheadReducer_invariant (state : PlayAheadSliceState) action :
  (∀ id s, state !! id = Some s → session_invariant id s) →
  ∀ id s, playAheadReducer state action !! id = Some s → session_invariant id s.
Proof.
  intros Hall.
  destruct action as [id bs|id m|id m|id bs rs|id d|id i|id|id|payload]; cbn.
  - unfold initSimulation.
    destruct (truthyString id) eqn:Hid; [|done]. apply truthyString_true in Hid.
    destruct bs as [bs|]; [|done]. apply invariant_insert; [done|].
    unfold session_invariant. cbn. do 6 (split; [done || by eexists|]).
    split; [done|]. eexists. split; [done|]. apply history_in_order_nil.
  - unfold setPlayerMove.
    destruct (activeSession state id) as [s0|] eqn:Hs0; [|done].
    apply activeSession_inv in Hs0 as (_ & Hs0 & _).
    apply invariant_insert; [done|]. apply (Hall _ _ Hs0).
  - unfold setOpponentMove.
    destruct (activeSession state id) as [s0|] eqn:Hs0; [|done].
    apply activeSession_inv in Hs0 as (_ & Hs0 & _).
    apply invariant_insert; [done|]. apply (Hall _ _ Hs0).
  - unfold updateSimulatedState.
    destruct (activeSession state id) as [s0|] eqn:Hs0; [|done].
    apply activeSession_inv in Hs0 as (_ & Hs0 & _).
    apply invariant_insert; [done|].
    destruct (Hall _ _ Hs0) as (H1 & H2 & H3 & H4 & _ & _ & H7 & H8).
    unfold session_invariant. cbn. by do 4 (split; [done|]).
  - unfold addPendingDecision.
    destruct (activeSession state id) as [s0|] eqn:Hs0; [|done].
    apply activeSession_inv in Hs0 as (_ & Hs0 & _).
    apply invariant_insert; [done|]. apply (Hall _ _ Hs0).
  - unfold resolvePendingDecision.
    destruct (activeSession state id) as [s0|] eqn:Hs0; [|done].
    apply activeSession_inv in Hs0 as (_ & Hs0 & _).
    apply invariant_insert; [done|]. apply (Hall _ _ Hs0).
  - unfold advanceTurn.
    destruct (activeSession state id) as [s0|] eqn:Hs0; [|done].
    apply activeSession_inv in Hs0 as (_ & Hs0 & _).
    apply invariant_insert; [done|].
    destruct (Hall _ _ Hs0)
      as (H1 & H2 & H3 & H4 & H5 & H6 & H7 & entries & Hentries & Horder).
    unfold session_invariant. cbn. do 5 (split; [done|]).
    split; [by eexists|]. split; [lia|].
    rewrite Hentries. cbn.
    destruct (truthyMove (PlayAheadState.playerMove s0)),
             (truthyMove (PlayAheadState.opponentMove s0)),
             (PlayAheadState.turnResults s0);
      eexists; (split; [done|]);
      (by apply history_in_order_snoc) || (by apply history_in_order_later).
  - unfold resetSimulation.
    destruct (truthyString id), (state !! id); try done.
    intros id' s [_ Hs]%lookup_delete_Some. by apply Hall.
  - intros id' s. rewrite destroy_lookup.
    destruct (decide (id' ∈ destroyIds payload)); [done|apply Hall].
Qed.

Lemma reached_invariant actions : ∀ id s,
  reached actions !! id = Some s → session_invariant id s.
Proof.
  unfold reached.
  induction actions as [|action actions IH] using rev_ind.
  - intros id s. cbn. unfold initialState. by rewrite lookup_empty.
  - rewrite foldl_app. cbn. by apply playAheadReducer_invariant.
Qed.

(** X19.  In every store reached from the initial one, a session is filed under
    its own, non-empty battle id, and it is active: no reducer ever
    deactivates a session, so the hook's [isActive] is true wherever a
    session exists. *)
Theorem reached_sessions_are_active
    (actions : list PlayAheadAction) (battleId : string) (s : PlayAheadState.t) :
  reached actions !! battleId = Some s →
  battleId ≠ "" ∧
  PlayAheadState.battleId s = Some battleId ∧
  PlayAheadState.active s = true ∧
  usePlayAheadContext.isActive
    (PlayAheadProvider (reached actions) battleId) = true.
Proof.
  intros session.
  destruct (reached_invariant _ _ _ session) as (H1 & H2 & H3 & _).
  do 3 (split; [done|]).
  unfold usePlayAheadContext.isActive, PlayAheadProvider. cbn.
  by rewrite session.
Qed.

(** X20.  In every store reached from the initial one, the turn counter of a
    session is not negative and its history is in order: the turn numbers
    rise strictly along the history and lie between 1 and the counter, so
    the history never has more entries than turns were advanced. *)
Theorem reached_history_is_in_order
    (actions : list PlayAheadAction) (battleId : string) (s : PlayAheadState.t) :
  reached actions !! battleId = Some s →
  0 ≤ PlayAheadState.simulatedTurns s ∧
  ∃ entries,
    PlayAheadState.turnHistory s = Some entries ∧
    history_in_order (PlayAheadState.simulatedTurns s) entries.
Proof.
  intros session.
  by destruct (reached_invariant _ _ _ session) as (_ & _ & _ & _ & _ & _ & H7 & H8).
Qed.

(** X21.  No reducer writes the [errors] of a session: in every store reached
    from the initial one it is the empty list it was started with, and the
    snapshot and the latest results are always defined. *)
Theorem reached_errors_stay_empty
    (actions : list PlayAheadAction) (battleId : string) (s : PlayAheadState.t) :
  reached actions !! battleId = Some s →
  PlayAheadState.errors s = Some [] ∧
  is_Some (PlayAheadState.simulatedBattleState s) ∧
  is_Some (PlayAheadState.turnResults s).
Proof.
  intros session.
  by destruct (reached_invariant _ _ _ session) as (_ & _ & _ & H4 & H5 & H6 & _).
Qed.

(** * Further properties of the hook and the controls *)

Lemma truthyMove_Some m name : truthyMove m = Some name → m = Some name ∧ name ≠ "".
Proof.
  destruct m as [n|]; [|done]. cbn.
  destruct (truthyString n) eqn:Hn; [|done]. intros [= <-].
  by apply truthyString_true in Hn.
Qed.


Section HookFacts.

Variable dexMoves : option FormatArg → MoveName → option DexMove.t.
Variable calcPokemonFinalStats :
  FormatArg → CalcdexPokemon.t → CalcdexPokemon.t →
  option CalcdexPlayer.t → option CalcdexPlayer.t →
  option CalcdexBattleField.t → option (list CalcdexPlayer.t) → option Z.
Variable Math_random : Q.
Variable calcSmogonMatchup :
  FormatArg → string →
  option CalcdexPokemon.t → option CalcdexPokemon.t → MoveName →
  CalcdexPlayer.t → CalcdexPlayer.t → list CalcdexPlayer.t →
  CalcdexBattleField.t → option CalcdexMatchupResult.t.

Let simulate :=
  simulateTurn dexMoves calcPokemonFinalStats Math_random calcSmogonMatchup.
Let execute :=
  usePlayAheadContext.executeSimulation
    dexMoves calcPokemonFinalStats Math_random calcSmogonMatchup.
Let pressExecute :=
  PlayAheadControls.handleExecute
    dexMoves calcPokemonFinalStats Math_random calcSmogonMatchup.

(** X22.  The "Simulate Turn" handler and the hook's callback guard the same
    thing, so the handler is the callback; and the callback returns
    without running a turn and without a dispatch exactly when
    [canExecute] is false, that is, when a move is not selected. *)
Theorem executeSimulation_runs_when_ready
    (ctx : PlayAheadContextValue.t) (currentBattleState : CalcdexBattleState.t)
    (playerKey opponentKey : CalcdexPlayerKey) :
  pressExecute ctx currentBattleState playerKey opponentKey
    = execute ctx currentBattleState playerKey opponentKey ∧
  (execute ctx currentBattleState playerKey opponentKey = Returns None ↔
   usePlayAheadContext.canExecute ctx = false).
Proof.
  unfold pressExecute, execute, PlayAheadControls.handleExecute,
    usePlayAheadContext.executeSimulation, usePlayAheadContext.canExecute.
  destruct (PlayAheadContextValue.state ctx) as [s|]; cbn; [|done].
  destruct (truthyMove (PlayAheadState.playerMove s)); [|done].
  destruct (truthyMove (PlayAheadState.opponentMove s)); [|done].
  split; [done|]. by destruct (simulateTurn _ _ _ _ _ _ _ _ _ _).
Qed.

(** X23.  A second "Simulate Turn" without advancing continues from the first:
    the action of the first stores the snapshot and the results of its
    turn, the selections stay, and the next run starts from the stored
    snapshot; of the battle state it is handed it reads only the format. *)
Theorem executeSimulation_continues
    (playAhead : PlayAheadSliceState) (battleId : string) (s : PlayAheadState.t)
    (currentBattleState : CalcdexBattleState.t)
    (playerKey opponentKey : CalcdexPlayerKey) (action : PlayAheadAction) :
  battleId ≠ "" →
  playAhead !! battleId = Some s →
  PlayAheadState.active s = true →
  execute (PlayAheadProvider playAhead battleId) currentBattleState
    playerKey opponentKey = Returns (Some action) →
  ∃ playerMove opponentMove result,
    selected (PlayAheadState.playerMove s) playerMove ∧
    selected (PlayAheadState.opponentMove s) opponentMove ∧
    simulate
      (default currentBattleState (PlayAheadState.simulatedBattleState s))
      playerKey opponentKey playerMove opponentMove
      (Some (FormatString (CalcdexBattleState.format currentBattleState)))
      = Returns result ∧
    action = UpdateSimulatedStateAction battleId
               (TurnSimulationResult.battleState result)
               (TurnSimulationResult.moveResults result) ∧
    PlayAheadState.turnResults <$> playAheadReducer playAhead action !! battleId
      = Some (Some (TurnSimulationResult.moveResults result)) ∧
    ∀ laterBattleState,
      execute (PlayAheadProvider (playAheadReducer playAhead action) battleId)
        laterBattleState playerKey opponentKey =
      match simulate (TurnSimulationResult.battleState result)
              playerKey opponentKey playerMove opponentMove
              (Some (FormatString (CalcdexBattleState.format laterBattleState))) with
      | Returns next =>
          Returns (Some (UpdateSimulatedStateAction battleId
                           (TurnSimulationResult.battleState next)
                           (TurnSimulationResult.moveResults next)))
      | Throws => Throws
      end.
Proof.
  intros Hid Hs Hactive.
  unfold execute, usePlayAheadContext.executeSimulation, PlayAheadProvider. cbn. rewrite Hs.
  destruct (truthyMove (PlayAheadState.playerMove s)) as [playerMove|] eqn:Hpm;
    [|done].
  destruct (truthyMove (PlayAheadState.opponentMove s)) as [opponentMove|] eqn:Hom;
    [|done].
  destruct (simulateTurn _ _ _ _ _ _ _ _ _ _) as [result|] eqn:Hturn; [|done].
  intros [= <-]. exists playerMove, opponentMove, result.
  split; [by apply truthyMove_Some|]. split; [by apply truthyMove_Some|].
  split; [exact Hturn|]. split; [done|]. cbn.
  unfold updateSimulatedState. rewrite (activeSession_Some _ _ s) by done.
  rewrite lookup_insert_eq. split; [done|]. intros laterBattleState. cbn.
  by rewrite Hpm, Hom.
Qed.


End HookFacts.


(** X27.  "Next Turn" starts the next turn of an active session: the counter the
    header shows goes up by one, the selections and the results are cleared,
    so that nothing can be simulated and the "Next Turn" and "Reset" buttons
    are hidden until a turn has been simulated again; the session stays
    active and its pending decisions are neither required to be resolved
    nor touched. *)
Theorem handleAdvance_starts_next_turn
    (playAhead : PlayAheadSliceState) (battleId : string)
    (s : PlayAheadState.t) :
  battleId ≠ "" →
  playAhead !! battleId = Some s →
  PlayAheadState.active s = true →
  let ctx := PlayAheadProvider playAhead battleId in
  let advanced :=
    PlayAheadProvider
      (playAheadReducer playAhead (PlayAheadControls.handleAdvance ctx))
      battleId in
  PlayAheadControls.turnsAhead advanced = PlayAheadControls.turnsAhead ctx + 1 ∧
  PlayAheadControls.hasExecuted advanced = false ∧
  usePlayAheadContext.canExecute advanced = false ∧
  usePlayAheadContext.isActive advanced = true ∧
  usePlayAheadContext.pendingDecisionCount advanced
    = usePlayAheadContext.pendingDecisionCount ctx.
Proof.
  intros Hid Hs Hactive ctx advanced.
  unfold advanced, ctx, PlayAheadControls.handleAdvance,
    usePlayAheadContext.advanceTurn, PlayAheadProvider,
    PlayAheadControls.turnsAhead, PlayAheadControls.hasExecuted,
    usePlayAheadContext.canExecute, usePlayAheadContext.isActive,
    usePlayAheadContext.pendingDecisionCount.
  cbn. unfold advanceTurn.
  rewrite (activeSession_Some _ _ _ Hid Hs Hactive), lookup_insert_eq, Hs.
  cbn. by rewrite Hactive.
Qed.

(** * Worked instances of the further properties *)

(** A +1 move against a move of priority 0: the decision is the same
    whichever side is passed first. *)
Lemma determineMoveOrder_argument_order_witness :
  determineMoveOrder Samples.dex Samples.speeds (1 # 4) Samples.gen9ou
    (Samples.pokemon "Regieleki" p2 100 100)
    (Samples.pokemon "Talonflame" p1 150 150)
    "Ice Beam" "Quick Attack" None None Samples.plainField None =
  determineMoveOrder Samples.dex Samples.speeds (1 # 4) Samples.gen9ou
    (Samples.pokemon "Talonflame" p1 150 150)
    (Samples.pokemon "Regieleki" p2 100 100)
    "Quick Attack" "Ice Beam" None None Samples.plainField None.
Proof.
  apply (determineMoveOrder_argument_order Samples.dex Samples.speeds (1 # 4)
           Samples.gen9ou
           (Samples.pokemon "Talonflame" p1 150 150)
           (Samples.pokemon "Regieleki" p2 100 100)
           "Quick Attack" "Ice Beam" None None Samples.plainField None).
  - left. vm_compute. discriminate.
  - by eexists.
  - by eexists.
Defined.

(** Brave Bird, a recoil move, used without a matchup: nothing happens. *)
Lemma applyMoveEffects_without_damage_range_witness :
  let bs := Samples.battle (Samples.pokemon "Talonflame" p1 150 150)
                           (Samples.pokemon "Garchomp" p2 100 100) false in
  let result := applyMoveEffects Samples.dex bs p1 p2 "Brave Bird" None None in
  MoveEffectApplicationResult.battleState result = bs ∧
  MoveEffectApplicationResult.targetFainted result = false ∧
  MoveEffectApplicationResult.userFainted result = false.
Proof.
  intros bs result.
  apply (applyMoveEffects_without_damage_range Samples.dex bs p1 p2
           "Brave Bird" None None).
  reflexivity.
Defined.

Lemma sample_battle_all_healthy user target hp hp' :
  0 ≤ hp ≤ 100 → 0 ≤ hp' ≤ 100 →
  all_healthy (Samples.battle (Samples.pokemon user p1 hp 100)
                              (Samples.pokemon target p2 hp' 100) false).
Proof.
  intros Hhp Hhp' k player xs Hplayer Hxs.
  destruct k; cbn in Hplayer; simplify_eq; cbn in Hxs; simplify_eq;
    (constructor; [unfold healthy; cbn; lia|constructor]).
Qed.

(** Garchomp and Landorus-Therian at full health trade Earthquake and Ice
    Beam: the turn returns, and everyone's health is still in range. *)
Lemma simulation_keeps_health_in_range_witness :
  ∃ t,
    simulateTurn Samples.dex Samples.speeds (1 # 4) Samples.matchup
      (Samples.battle (Samples.pokemon "Garchomp" p1 100 100)
                      (Samples.pokemon "Landorus-Therian" p2 100 100) false)
      p1 p2 "Earthquake" "Ice Beam" None = Returns t ∧
    all_healthy (TurnSimulationResult.battleState t).
Proof.
  eexists. split; [vm_compute; reflexivity|].
  refine (proj2 (simulation_keeps_health_in_range Samples.dex Samples.speeds
                   (1 # 4) Samples.matchup
                   (Samples.battle (Samples.pokemon "Garchomp" p1 100 100)
                      (Samples.pokemon "Landorus-Therian" p2 100 100) false)
                   p1 p2 "Earthquake" "Ice Beam" None _) _ _).
  - apply sample_battle_all_healthy; lia.
  - vm_compute. reflexivity.
Defined.

(** Both sample combatants carry the key of their side, so the turn
    returns. *)
Lemma simulateTurn_returns_with_own_keys_witness :
  ∃ t,
    simulateTurn Samples.dex Samples.speeds (1 # 4) Samples.matchup
      (Samples.battle (Samples.pokemon "Garchomp" p1 100 100)
                      (Samples.pokemon "Landorus-Therian" p2 100 100) false)
      p1 p2 "Earthquake" "Ice Beam" None = Returns t.
Proof.
  apply (simulateTurn_returns_with_own_keys Samples.dex Samples.speeds (1 # 4)
           Samples.matchup
           (Samples.battle (Samples.pokemon "Garchomp" p1 100 100)
              (Samples.pokemon "Landorus-Therian" p2 100 100) false)
           p1 p2 "Earthquake" "Ice Beam" None); reflexivity.
Defined.

(** The same turn: two results, in order of priority and, the priorities
    being equal and no Trick Room up, of speed. *)
Lemma simulateTurn_results_in_order_witness :
  ∃ t m1 m2,
    simulateTurn Samples.dex Samples.speeds (1 # 4) Samples.matchup
      (Samples.battle (Samples.pokemon "Garchomp" p1 100 100)
                      (Samples.pokemon "Landorus-Therian" p2 100 100) false)
      p1 p2 "Earthquake" "Ice Beam" None = Returns t ∧
    TurnSimulationResult.moveResults t = [m1; m2] ∧
    PlayAheadMoveResult.priority m2 ≤ PlayAheadMoveResult.priority m1 ∧
    PlayAheadMoveResult.effectiveSpeed m2 ≤ PlayAheadMoveResult.effectiveSpeed m1.
Proof.
  eexists _, _, _. split; [vm_compute; reflexivity|].
  pose proof (simulateTurn_results_in_order Samples.dex Samples.speeds (1 # 4)
                Samples.matchup
                (Samples.battle (Samples.pokemon "Garchomp" p1 100 100)
                   (Samples.pokemon "Landorus-Therian" p2 100 100) false)
                p1 p2 "Earthquake" "Ice Beam" None _
                ltac:(vm_compute; reflexivity)) as Horder.
  cbn in Horder. destruct Horder as (_ & _ & _ & Hpriority & Hspeed).
  split; [reflexivity|]. split; [exact Hpriority|exact (Hspeed eq_refl)].
Defined.

(** Advancing the sample battle leaves a battle of another id alone. *)
Lemma playAheadReducer_other_sessions_witness :
  playAheadReducer session_resolved (AdvanceTurnAction Samples.battleId)
    !! "battle-gen9ou-456" = session_resolved !! "battle-gen9ou-456".
Proof.
  apply playAheadReducer_other_sessions. cbn.
  intros Hin%list_elem_of_In. destruct Hin as [Heq|[]]. discriminate.
Defined.

(** The sample decision queued on the sample session and resolved again,
    by index 0 of the queue that was empty and by index -1. *)
Lemma pending_decision_round_trip_witness :
  let queued :=
    addPendingDecision session_resolved Samples.battleId sample_decision in
  resolvePendingDecision queued Samples.battleId 0 = session_resolved ∧
  resolvePendingDecision queued Samples.battleId (-1) = session_resolved.
Proof.
  intros queued.
  destruct (session_resolved !! Samples.battleId) as [s|] eqn:Hs;
    [|vm_compute in Hs; discriminate].
  assert (PlayAheadState.active s = true ∧
          PlayAheadState.pendingDecisions s = []) as [Hactive Hqueue].
  { vm_compute in Hs. by injection Hs as <-. }
  destruct (pending_decision_round_trip session_resolved Samples.battleId s
              sample_decision ltac:(discriminate) Hs Hactive)
    as (_ & Hindex & Hlast).
  rewrite Hqueue in Hindex. split; [exact Hindex|exact Hlast].
Defined.

(** Resolving index 0 of a queue of one leaves an empty queue. *)
Lemma resolvePendingDecision_removes_one_witness :
  let queued :=
    addPendingDecision session_resolved Samples.battleId sample_decision in
  ∃ s',
    resolvePendingDecision queued Samples.battleId 0 !! Samples.battleId
      = Some s' ∧
    length (PlayAheadState.pendingDecisions s') = 0%nat.
Proof.
  intros queued.
  destruct (queued !! Samples.battleId) as [s|] eqn:Hs;
    [|vm_compute in Hs; discriminate].
  assert (PlayAheadState.active s = true ∧
          length (PlayAheadState.pendingDecisions s) = 1%nat) as [Hactive Hqueue].
  { vm_compute in Hs. by injection Hs as <-. }
  destruct (resolvePendingDecision_removes_one queued Samples.battleId s 0
              ltac:(discriminate) Hs Hactive) as (s' & Hs' & Hlength & _).
  exists s'. split; [exact Hs'|]. by rewrite Hlength, Hqueue.
Defined.

(** After one simulated turn of the sample battle the session is active. *)
Lemma reached_sessions_are_active_witness :
  usePlayAheadContext.isActive (PlayAheadProvider (reached sample_actions) Samples.battleId) = true.
Proof.
  destruct (reached sample_actions !! Samples.battleId) as [s|] eqn:Hs;
    [|vm_compute in Hs; discriminate].
  apply (reached_sessions_are_active sample_actions Samples.battleId s Hs).
Defined.

(** ... its history is in order ... *)
Lemma reached_history_is_in_order_witness :
  ∃ s entries,
    reached sample_actions !! Samples.battleId = Some s ∧
    PlayAheadState.turnHistory s = Some entries ∧
    history_in_order (PlayAheadState.simulatedTurns s) entries.
Proof.
  destruct (reached sample_actions !! Samples.battleId) as [s|] eqn:Hs;
    [|vm_compute in Hs; discriminate].
  destruct (reached_history_is_in_order sample_actions Samples.battleId s Hs)
    as (_ & entries & Hentries & Horder).
  exists s, entries. split; [reflexivity|]. split; [exact Hentries|exact Horder].
Defined.

(** ... and its errors are empty. *)
Lemma reached_errors_stay_empty_witness :
  ∃ s,
    reached sample_actions !! Samples.battleId = Some s ∧
    PlayAheadState.errors s = Some [].
Proof.
  destruct (reached sample_actions !! Samples.battleId) as [s|] eqn:Hs;
    [|vm_compute in Hs; discriminate].
  destruct (reached_errors_stay_empty sample_actions Samples.battleId s Hs)
    as (Herrors & _).
  exists s. split; [reflexivity|exact Herrors].
Defined.

(** "Simulate Turn" pressed on the sample session with Earthquake and Ice
    Beam selected: the action stores the turn, and a second press would
    start from the snapshot that turn returned. *)
Lemma executeSimulation_continues_witness :
  let bs := Samples.battle (Samples.pokemon "Garchomp" p1 100 100)
                           (Samples.pokemon "Landorus-Therian" p2 100 100) false in
  let execute :=
    usePlayAheadContext.executeSimulation Samples.dex Samples.speeds (1 # 4) Samples.matchup in
  ∃ action result,
    execute (PlayAheadProvider session_selected Samples.battleId) bs p1 p2
      = Returns (Some action) ∧
    action = UpdateSimulatedStateAction Samples.battleId
               (TurnSimulationResult.battleState result)
               (TurnSimulationResult.moveResults result) ∧
    ∀ laterBattleState,
      execute (PlayAheadProvider (playAheadReducer session_selected action)
                 Samples.battleId) laterBattleState p1 p2 =
      match simulateTurn Samples.dex Samples.speeds (1 # 4) Samples.matchup
              (TurnSimulationResult.battleState result) p1 p2
              "Earthquake" "Ice Beam"
              (Some (FormatString
                       (CalcdexBattleState.format laterBattleState))) with
      | Returns next =>
          Returns (Some (UpdateSimulatedStateAction Samples.battleId
                           (TurnSimulationResult.battleState next)
                           (TurnSimulationResult.moveResults next)))
      | Throws => Throws
      end.
Proof.
  intros bs execute.
  destruct (session_selected !! Samples.battleId) as [s|] eqn:Hs;
    [|vm_compute in Hs; discriminate].
  assert (PlayAheadState.active s = true ∧
          PlayAheadState.playerMove s = Some "Earthquake" ∧
          PlayAheadState.opponentMove s = Some "Ice Beam")
    as (Hactive & Hplayer & Hopponent).
  { vm_compute in Hs. by injection Hs as <-. }
  destruct (execute (PlayAheadProvider session_selected Samples.battleId) bs p1 p2)
    as [[action|]|] eqn:Hexecute;
    [|vm_compute in Hexecute; discriminate..].
  destruct (executeSimulation_continues Samples.dex Samples.speeds (1 # 4)
              Samples.matchup session_selected Samples.battleId s bs p1 p2
              action ltac:(discriminate) Hs Hactive Hexecute)
    as (playerMove & opponentMove & result & [Hp _] & [Ho _] & _ & Haction & _ & Hnext).
  rewrite Hplayer in Hp. rewrite Hopponent in Ho.
  injection Hp as <-. injection Ho as <-.
  exists action, result. split; [reflexivity|]. split; [exact Haction|exact Hnext].
Defined.



(** In the sample turn Earthquake is filed under p1 and Ice Beam under p2,
    the keys Garchomp and Landorus-Therian carry. *)
Lemma simulateTurn_files_results_by_carried_key_witness :
  ∃ t,
    simulateTurn Samples.dex Samples.speeds (1 # 4) Samples.matchup
      (Samples.battle (Samples.pokemon "Garchomp" p1 100 100)
                      (Samples.pokemon "Landorus-Therian" p2 100 100) false)
      p1 p2 "Earthquake" "Ice Beam" None = Returns t ∧
    Forall (λ m,
              (PlayAheadMoveResult.playerKey m = p1 ∧
               PlayAheadMoveResult.move m = "Earthquake") ∨
              (PlayAheadMoveResult.playerKey m = p2 ∧
               PlayAheadMoveResult.move m = "Ice Beam"))
           (TurnSimulationResult.moveResults t).
Proof.
  eexists. split; [vm_compute; reflexivity|].
  apply (simulateTurn_files_results_by_carried_key Samples.dex Samples.speeds
           (1 # 4) Samples.matchup
           (Samples.battle (Samples.pokemon "Garchomp" p1 100 100)
              (Samples.pokemon "Landorus-Therian" p2 100 100) false)
           p1 p2 "Earthquake" "Ice Beam" None _
           (Samples.pokemon "Garchomp" p1 100 100)
           (Samples.pokemon "Landorus-Therian" p2 100 100));
    vm_compute; reflexivity.
Defined.

(** "Next Turn" on the sample session with both moves selected: the header
    shows turn +1 and nothing is selected any more. *)
Lemma handleAdvance_starts_next_turn_witness :
  let advanced :=
    PlayAheadProvider
      (playAheadReducer session_selected
         (PlayAheadControls.handleAdvance
            (PlayAheadProvider session_selected Samples.battleId)))
      Samples.battleId in
  PlayAheadControls.turnsAhead advanced = 1 ∧
  usePlayAheadContext.canExecute advanced = false.
Proof.
  intros advanced.
  destruct (session_selected !! Samples.battleId) as [s|] eqn:Hs;
    [|vm_compute in Hs; discriminate].
  destruct (handleAdvance_starts_next_turn session_selected Samples.battleId s
              ltac:(discriminate) Hs
              ltac:(vm_compute in Hs; injection Hs as <-; reflexivity))
    as (Hturns & _ & Hcan & _).
  split; [|exact Hcan].
  etransitivity; [exact Hturns|].
  unfold PlayAheadControls.turnsAhead, PlayAheadProvider. cbn.
  rewrite Hs. vm_compute in Hs. injection Hs as <-. reflexivity.
Defined.
